(** * Throttled, integrity-verified file transfer

    Shallow embedding of the two transfer tools of the repository:

    - [absolutelyfreesync.py]: [FileOperationWorker] (batch directory
      copy / verify-and-delete with MD5 verification) and the slot
      [FileCopierApp._handle_task_completion];
    - [speed_adjustable_copy.py]: [FileWorker] (single file copy / move
      with a throughput ceiling).

    Python code is written in a small monad that threads the state of the
    machine (file system, clock, cancellation flag), propagates exceptions
    and records what the program does as a list of events: emitted Qt
    signals, calls into the operating system, mutex operations.

    Idealisations: a path is the list of its components; file metadata is
    not represented; Python floats are exact rationals. *)

From Stdlib Require Import ZArith QArith Qround Lqa Strings.Byte Ascii.
From Stdlib Require Import Sorting.Sorted.
From stdpp Require Import gmap strings list pretty.

Abbreviation path := (list string).
Abbreviation bytes := (list byte).

(** ** Paths *)

(** [os.path.basename] and [os.path.dirname] on component lists. *)
Definition basename (p : path) : string := List.last p "".
Definition dirname (p : path) : path := removelast p.

(** [os.path.relpath p start]: drop the common prefix, climb out of what is
    left of [start]. *)
Fixpoint relpath (p start : path) : path :=
  match p, start with
  | a :: p', b :: start' =>
      if decide (a = b) then relpath p' start'
      else replicate (length start) ".." ++ p
  | _, _ => replicate (length start) ".." ++ p
  end.

(** The text of a path, as it appears in messages. *)
Definition path_str (p : path) : string := "/" +:+ String.concat "/" p.

(** All non-empty prefixes of a path: the directories [os.makedirs] visits. *)
Definition ancestors (p : path) : list path :=
  (λ n, take n p) <$> seq 1 (length p).

(** ** The machine *)

(** Outcome of the next call into the operating system, as decided by the
    environment: it goes through, it raises [OSError], or (for a copy) it
    silently stores other bytes than the ones read. *)
Inductive fault : Type :=
  | Pass
  | IOError
  | Garble (junk : bytes).

#[export] Instance byte_eq_dec : EqDecision byte := Byte.byte_eq_dec.
#[export] Instance fault_eq_dec : EqDecision fault.
Proof. solve_decision. Defined.

Inductive thread : Type := Worker | Requester.

#[export] Instance thread_eq_dec : EqDecision thread.
Proof. solve_decision. Defined.

Inductive exn : Type :=
  | FileNotFoundError (p : path)
  | IsADirectoryError (p : path)
  | FileExistsError (p : path)
  | SameFileError (src dst : path)
  | OSError (p : path)
  | ZeroDivisionError.

(** [str(e)]. *)
Definition exn_str (e : exn) : string :=
  match e with
  | FileNotFoundError p =>
      "[Errno 2] No such file or directory: '" +:+ path_str p +:+ "'"
  | IsADirectoryError p =>
      "[Errno 21] Is a directory: '" +:+ path_str p +:+ "'"
  | FileExistsError p =>
      "[Errno 17] File exists: '" +:+ path_str p +:+ "'"
  | SameFileError a b =>
      "'" +:+ path_str a +:+ "' and '" +:+ path_str b +:+ "' are the same file"
  | OSError p => "[Errno 5] Input/output error: '" +:+ path_str p +:+ "'"
  | ZeroDivisionError => "division by zero"
  end.

Inductive event : Type :=
  (* signals of FileOperationWorker *)
  | operation_progress (task_index : nat) (filename message : string)
  | operation_finished (task_index : nat) (success : bool) (message : string)
  | overall_progress (percent : Z)
  (* signals of FileWorker *)
  | finished
  | progress_update (percent : Z)
  | speed_update (mbps : Q)
  | status_message (text : string)
  | error_occurred (text : string)
  (* file system *)
  | Makedirs (p : path)
  | Copy2 (src dst : path)
  | Truncate (p : path)
  | FileWrite (p : path) (n : nat)
  | Remove (p : path)
  | Md5 (p : path) (digest : string)
  (* cancellation flag and its mutex *)
  | Lock (t : thread)
  | Unlock (t : thread)
  | FlagRead (t : thread) (v : bool)
  | FlagWrite (t : thread) (v : bool)
  (* time *)
  | Clock (t : Q)
  | Sleep (d : Q).

Record World : Type := mkWorld {
  files : gmap path bytes;      (* regular files and their content *)
  dirs : gset path;             (* directories, the root apart *)
  plan : list fault;            (* outcome of the coming system calls *)
  is_running : bool;            (* the worker's [_is_running] *)
  stop_after : option nat;      (* polls left before a stop request lands *)
  replies : list bool;          (* answers to the stop confirmation dialog *)
  now : Q;                      (* wall clock *)
  ticks : list Q                (* time that passes before each clock reading *)
}.

Definition set_files (f : gmap path bytes) (w : World) : World :=
  mkWorld f (dirs w) (plan w) (is_running w) (stop_after w) (replies w)
          (now w) (ticks w).
Definition set_dirs (d : gset path) (w : World) : World :=
  mkWorld (files w) d (plan w) (is_running w) (stop_after w) (replies w)
          (now w) (ticks w).
Definition set_plan (p : list fault) (w : World) : World :=
  mkWorld (files w) (dirs w) p (is_running w) (stop_after w) (replies w)
          (now w) (ticks w).
Definition set_is_running (b : bool) (w : World) : World :=
  mkWorld (files w) (dirs w) (plan w) b (stop_after w) (replies w)
          (now w) (ticks w).
Definition set_stop_after (s : option nat) (w : World) : World :=
  mkWorld (files w) (dirs w) (plan w) (is_running w) s (replies w)
          (now w) (ticks w).
Definition set_replies (r : list bool) (w : World) : World :=
  mkWorld (files w) (dirs w) (plan w) (is_running w) (stop_after w) r
          (now w) (ticks w).
Definition set_clock (t : Q) (ts : list Q) (w : World) : World :=
  mkWorld (files w) (dirs w) (plan w) (is_running w) (stop_after w)
          (replies w) t ts.

(** ** The monad: state, exceptions, event log *)

(** [Stuck] marks a loop of the embedding that ran out of fuel; it is not a
    Python exception and no handler catches it. *)
Inductive outcome (A : Type) : Type :=
  | Ok (a : A)
  | Raise (e : exn)
  | Stuck.
Arguments Ok {A} a.
Arguments Raise {A} e.
Arguments Stuck {A}.

Record result (A : Type) : Type := Res {
  out : outcome A;
  world : World;
  log : list event
}.
Arguments Res {A} out world log.
Arguments out {A} r.
Arguments world {A} r.
Arguments log {A} r.

Definition M (A : Type) : Type := World → result A.

Definition after {A} (l : list event) (r : result A) : result A :=
  match r with Res o w l' => Res o w (l ++ l') end.

#[export] Instance M_ret : MRet M := λ A a w, Res (Ok a) w [].
#[export] Instance M_bind : MBind M := λ A B k m w,
  match m w with
  | Res (Ok a) w1 l1 => after l1 (k a w1)
  | Res (Raise e) w1 l1 => Res (Raise e) w1 l1
  | Res Stuck w1 l1 => Res Stuck w1 l1
  end.

Definition raise {A} (e : exn) : M A := λ w, Res (Raise e) w [].
Definition stuck {A} : M A := λ w, Res Stuck w [].
Definition emit (e : event) : M unit := λ w, Res (Ok tt) w [e].
Definition gets {A} (f : World → A) : M A := λ w, Res (Ok (f w)) w [].
Definition modify (f : World → World) : M unit := λ w, Res (Ok tt) (f w) [].

(** [try: m except Exception as e: h e]. *)
Definition try_except {A} (m : M A) (h : exn → M A) : M A := λ w,
  match m w with
  | Res (Raise e) w1 l1 => after l1 (h e w1)
  | r => r
  end.

(** [try: m finally: f]. *)
Definition try_finally {A} (m : M A) (f : M unit) : M A := λ w,
  match m w with
  | Res o w1 l1 =>
      match f w1 with
      | Res (Ok _) w2 l2 => Res o w2 (l1 ++ l2)
      | Res (Raise e) w2 l2 => Res (Raise e) w2 (l1 ++ l2)
      | Res Stuck w2 l2 => Res Stuck w2 (l1 ++ l2)
      end
  end.

(** ** The operating system *)

Definition next_fault : M fault := λ w,
  match plan w with
  | [] => Res (Ok Pass) w []
  | f :: p => Res (Ok f) (set_plan p w) []
  end.

Definition is_file (w : World) (p : path) : bool :=
  bool_decide (is_Some (files w !! p)).
Definition is_dir (w : World) (p : path) : bool :=
  bool_decide (p = [] ∨ p ∈ dirs w).

(** [os.path.exists]. *)
Definition os_path_exists (w : World) (p : path) : bool :=
  is_file w p || is_dir w p.

(** [os.makedirs(p, exist_ok=True)]. *)
Definition os_makedirs (p : path) : M unit :=
  f ← next_fault;
  w ← gets id;
  match f with
  | IOError => raise (OSError p)
  | _ =>
      match List.find (is_file w) (ancestors p) with
      | Some q => raise (FileExistsError q)
      | None =>
          modify (set_dirs (list_to_set (ancestors p) ∪ dirs w));;
          emit (Makedirs p)
      end
  end.

(** [shutil.copy2(src, dst)]: an existing directory as [dst] receives the
    file under its base name. *)
Definition shutil_copy2 (src dst : path) : M unit :=
  f ← next_fault;
  w ← gets id;
  match f with
  | IOError => raise (OSError src)
  | _ =>
      match files w !! src with
      | None =>
          if is_dir w src then raise (IsADirectoryError src)
          else raise (FileNotFoundError src)
      | Some data =>
          let target := if is_dir w dst then dst ++ [basename src] else dst in
          if bool_decide (target = src) then raise (SameFileError src target)
          else if is_dir w target then raise (IsADirectoryError target)
          else if negb (is_dir w (dirname target))
               then raise (FileNotFoundError target)
          else
            let stored := match f with Garble junk => junk | _ => data end in
            modify (set_files (<[target := stored]> (files w)));;
            emit (Copy2 src dst)
      end
  end.

(** [os.remove]. *)
Definition os_remove (p : path) : M unit :=
  f ← next_fault;
  w ← gets id;
  match f with
  | IOError => raise (OSError p)
  | _ =>
      match files w !! p with
      | None =>
          if is_dir w p then raise (IsADirectoryError p)
          else raise (FileNotFoundError p)
      | Some _ =>
          modify (set_files (delete p (files w)));;
          emit (Remove p)
      end
  end.

(** [open(p, 'rb')]: the handle is what is left to read. *)
Definition open_rb (p : path) : M bytes :=
  f ← next_fault;
  w ← gets id;
  match f with
  | IOError => raise (OSError p)
  | _ =>
      match files w !! p with
      | None =>
          if is_dir w p then raise (IsADirectoryError p)
          else raise (FileNotFoundError p)
      | Some data => mret data
      end
  end.

(** [handle.read(n)]: the block read and the handle after it. *)
Definition read (p : path) (handle : bytes) (n : nat) : M (bytes * bytes) :=
  f ← next_fault;
  match f with
  | IOError => raise (OSError p)
  | _ => mret (take n handle, drop n handle)
  end.

(** The order in which a top-down [os.walk] reaches the files: at the first
    component where two paths part, the path that ends there (a file of the
    directory) comes before the path that goes on (a file of a
    subdirectory); two names of one directory come in the order of the
    strings, which stands for the order in which the platform lists them. *)
Fixpoint walk_leb (p q : path) : bool :=
  match p, q with
  | [], _ => true
  | _ :: _, [] => false
  | a :: p', b :: q' =>
      if decide (a = b) then walk_leb p' q'
      else match p', q' with
           | [], _ :: _ => true
           | _ :: _, [] => false
           | _, _ => String.leb a b
           end
  end.

Fixpoint walk_insert (p : path) (l : list path) : list path :=
  match l with
  | [] => [p]
  | q :: l' => if walk_leb p q then p :: l else q :: walk_insert p l'
  end.

Definition walk_sort (l : list path) : list path := foldr walk_insert [] l.

(** [[os.path.join(dp, f) for dp, dn, fn in os.walk(top) for f in fn]]:
    every regular file below [top], top-down: the files of a directory
    before those of its subdirectories; nothing when [top] is not a
    directory. *)
Definition os_walk (w : World) (top : path) : list path :=
  if is_dir w top then
    walk_sort
      (List.filter (λ q, bool_decide (top `prefix_of` q ∧ q ≠ top))
                   (fst <$> map_to_list (files w)))
  else [].

(** ** The cancellation flag *)

(** [stop()] as the requester runs it, with or without the mutex. *)
Definition requester_stop (locked : bool) : M unit :=
  (if locked then emit (Lock Requester) else mret tt);;
  modify (set_is_running false);;
  emit (FlagWrite Requester false);;
  (if locked then emit (Unlock Requester) else mret tt).

(** A stop request of the user lands between two polls of the worker:
    [stop_after = Some n] lets [n] more polls read [True]. *)
Definition serve_stop_request (locked : bool) : M unit :=
  s ← gets stop_after;
  match s with
  | None => mret tt
  | Some 0 => modify (set_stop_after None);; requester_stop locked
  | Some (S n) => modify (set_stop_after (Some n))
  end.

(** [self.mutex.lock()], [self.mutex.unlock()] in the worker. *)
Definition mutex_lock : M unit := serve_stop_request true;; emit (Lock Worker).
Definition mutex_unlock : M unit := emit (Unlock Worker).

(** Reading [self._is_running] in the worker. *)
Definition read_flag : M bool :=
  b ← gets is_running;
  emit (FlagRead Worker b);;
  mret b.

(** ** hashlib *)

Definition lower_hex (c : ascii) : bool :=
  bool_decide (c ∈ String.list_ascii_of_string "0123456789abcdef").

(** What the program relies on from [hashlib.md5]: feeding data in pieces
    equals feeding their concatenation, and [hexdigest] is made of lowercase
    hexadecimal digits. *)
Class Hashlib : Type := {
  hasher : Type;
  md5 : hasher;
  update : hasher → bytes → hasher;
  hexdigest : hasher → string;
  update_app : ∀ h a b, update (update h a) b = update h (a ++ b);
  update_nil : ∀ h, update h [] = h;
  hexdigest_lower : ∀ h,
    forallb lower_hex (String.list_ascii_of_string (hexdigest h)) = true
}.

(** A reference [Hashlib]: the state is the data fed so far and the digest
    writes every byte as two hexadecimal digits. It is used to run the
    programs on concrete inputs. *)
Definition hex_digit (n : N) : ascii :=
  match n with
  | 0 => "0" | 1 => "1" | 2 => "2" | 3 => "3" | 4 => "4" | 5 => "5"
  | 6 => "6" | 7 => "7" | 8 => "8" | 9 => "9" | 10 => "a" | 11 => "b"
  | 12 => "c" | 13 => "d" | 14 => "e" | _ => "f"
  end%N%char.

Fixpoint hex_of_bytes (data : bytes) : string :=
  match data with
  | [] => EmptyString
  | b :: data' =>
      String (hex_digit (Byte.to_N b / 16))
        (String (hex_digit (Byte.to_N b `mod` 16)) (hex_of_bytes data'))
  end.

#[export] Program Instance concat_hashlib : Hashlib := {|
  hasher := bytes;
  md5 := [];
  update h b := h ++ b;
  hexdigest := hex_of_bytes
|}.
Next Obligation. intros. by rewrite app_assoc. Qed.
Next Obligation. intros. by rewrite app_nil_r. Qed.
Next Obligation.
  intros data. induction data as [|b data IH]; [done|].
  assert (∀ n, lower_hex (hex_digit n) = true) as Hdigit.
  { intros [|p]; [done|]. do 4 (destruct p as [p|p|]; try done). }
  cbn [hex_of_bytes String.list_ascii_of_string forallb].
  by rewrite !Hdigit.
Qed.

(** ** absolutelyfreesync.py *)

(** An entry of [task_list]: the dictionary built by [TaskSetupDialog]. *)
Record task : Type := Task {
  source : path;
  destination : path;
  mode : string;
  name : string
}.

Module Sync.
Section worker.
Context `{HL : Hashlib}.

(** [QMessageBox.question] in [_stop_operations]: the next scripted reply;
    [No], the default button, when there is none. *)
Definition question : M bool := λ w,
  match replies w with
  | [] => Res (Ok false) w []
  | r :: rs => Res (Ok r) (set_replies rs w) []
  end.

(** [FileCopierApp._stop_operations], called while the worker thread is
    running: [stop()] on confirmation, then [wait()]. *)
Definition _stop_operations : M unit :=
  reply ← question;
  if (reply : bool) then requester_stop true else mret tt.

(** [FileCopierApp._handle_task_completion]; the text and colour of the
    list item are not represented. *)
Definition _handle_task_completion (self : list task) (task_index : nat)
    (success : bool) (message : string) : M unit :=
  if bool_decide (length self ≤ task_index) then mret tt
  else if success then mret tt
  else _stop_operations.

(** [self.operation_finished.emit(...)]. The connected slot lives in the GUI
    thread; the embedding runs it to its end before the worker goes on, the
    schedule under which a stop issued by the slot is seen earliest. *)
Definition emit_operation_finished (self : list task) (task_index : nat)
    (success : bool) (message : string) : M unit :=
  emit (operation_finished task_index success message);;
  _handle_task_completion self task_index success message.

(** The [while len(buf) > 0] loop of [_calculate_md5]. *)
Fixpoint md5_loop (fuel : nat) (filepath : path) (blocksize : nat)
    (h : hasher) (buf afile : bytes) {struct fuel} : M hasher :=
  if bool_decide (0 < length buf) then
    match fuel with
    | 0 => stuck
    | S fuel' =>
        let h' := update h buf in
        '(buf2, afile2) ← read filepath afile blocksize;
        md5_loop fuel' filepath blocksize h' buf2 afile2
    end
  else mret h.

(** [FileOperationWorker._calculate_md5]; the returned string is also
    recorded in the log. *)
Definition _calculate_md5 (filepath : path) (blocksize : nat) : M string :=
  let hasher0 := md5 in
  digest ← try_except
    (afile ← open_rb filepath;
     '(buf, afile1) ← read filepath afile blocksize;
     h ← md5_loop (length afile) filepath blocksize hasher0 buf afile1;
     mret (hexdigest h))
    (λ _, mret "ERROR_HASH");
  emit (Md5 filepath digest);;
  mret digest.

(** The text of the failure reported for a file whose digests differ. *)
Definition mismatch_message (f : path) : string :=
  "MD5 Mismatch for " +:+ basename f +:+ ". Copy failed.".

(** Default of the [blocksize] argument: 65536. *)
Definition blocksize : nat := 64 * 1024.

(** System calls [_calculate_md5] makes on a readable file of [n] bytes:
    [open], one [read] per block, and the [read] that finds the end. *)
Definition md5_calls (blocksize n : nat) : nat :=
  2 + (n + blocksize - 1) / blocksize.

(** [int((file_idx + 1) / total_files * 100)]. *)
Definition percent_of (done total : nat) : Z :=
  (Z.of_nat done * 100 / Z.of_nat total)%Z.

(** How a loop body ends: it falls through to the next iteration, or the
    enclosing function returns. *)
Inductive flow : Type := Next | Return.

(** The [for file_idx, src_filepath in enumerate(all_files)] loop of
    [_process_directory], from index [file_idx] on. *)
Fixpoint for_each_file (self : list task) (task_index : nat)
    (src_dir dst_dir : path) (mode : string) (total_files file_idx : nat)
    (all_files : list path) : M flow :=
  match all_files with
  | [] => mret Next
  | src_filepath :: rest =>
      mutex_lock;;
      r ← read_flag;
      if negb r then mutex_unlock;; mret Return
      else
        mutex_unlock;;
        let rel_path := relpath src_filepath src_dir in
        let dst_filepath := dst_dir ++ rel_path in
        os_makedirs (dirname dst_filepath);;
        let filename := basename src_filepath in
        emit (operation_progress task_index filename "Copying...");;
        shutil_copy2 src_filepath dst_filepath;;
        emit (operation_progress task_index filename "Verifying MD5...");;
        src_md5 ← _calculate_md5 src_filepath blocksize;
        dst_md5 ← _calculate_md5 dst_filepath blocksize;
        if negb (String.eqb src_md5 dst_md5) then
          emit_operation_finished self task_index false
            ("MD5 Mismatch for " +:+ filename +:+ ". Copy failed.");;
          mret Return
        else
          (if String.eqb mode "verify_and_delete" then
             emit (operation_progress task_index filename
                     "Deleting Source...");;
             os_remove src_filepath
           else mret tt);;
          emit (overall_progress (percent_of (S file_idx) total_files));;
          for_each_file self task_index src_dir dst_dir mode total_files
            (S file_idx) rest
  end.

(** [FileOperationWorker._process_directory]. *)
Definition _process_directory (self : list task) (task_index : nat)
    (src_dir dst_dir : path) (mode : string) : M unit :=
  w ← gets id;
  if negb (os_path_exists w src_dir) then
    emit_operation_finished self task_index false
      ("Source directory not found: " +:+ path_str src_dir)
  else
    os_makedirs dst_dir;;
    w ← gets id;
    let all_files := os_walk w src_dir in
    let total_files := length all_files in
    if bool_decide (total_files = 0) then
      emit_operation_finished self task_index true
        "Source directory is empty. Operation successful."
    else
      fl ← for_each_file self task_index src_dir dst_dir mode total_files 0
             all_files;
      match fl with
      | Return => mret tt
      | Next =>
          emit_operation_finished self task_index true
            ("Operation **" +:+ mode +:+ "** successful.")
      end.

(** The [for i, task in enumerate(self.task_list)] loop of [run], from
    index [i] on. *)
Fixpoint for_each_task (self : list task) (i : nat) (tasks : list task)
    : M unit :=
  match tasks with
  | [] => mret tt
  | t :: rest =>
      mutex_lock;;
      r ← read_flag;
      if negb r then mutex_unlock
      else
        mutex_unlock;;
        emit (overall_progress 0);;
        try_except
          (if bool_decide (mode t ∈ ["verify_and_delete"; "copy"]) then
             _process_directory self i (source t) (destination t) (mode t)
           else
             emit_operation_finished self i false
               ("Unknown mode: " +:+ mode t))
          (λ e, emit_operation_finished self i false
                  ("Critical Error: " +:+ exn_str e));;
        for_each_task self (S i) rest
  end.

(** [FileOperationWorker.run]. *)
Definition run (self : list task) : M unit :=
  for_each_task self 0 self;;
  emit (overall_progress 100).

(** [FileOperationWorker.stop], called by the GUI thread. *)
Definition stop : M unit := requester_stop true.

End worker.
End Sync.

(** ** speed_adjustable_copy.py *)

Module Throttle.

Definition CHUNK_SIZE : nat := 1024 * 1024.
Definition MAX_SPEED_MBPS : Z := 500.
Definition MAX_SPEED_BPS : Z := MAX_SPEED_MBPS * 1024 * 1024.

(** The fields [FileWorker.__init__] stores; [_is_running] is
    [is_running] of the machine. *)
Record FileWorker : Type := mkFileWorker {
  src_path : path;
  dest_path : path;
  operation : string;
  speed_limit_mbps : Z
}.

(** [time.time()]: the clock first advances by the next tick. *)
Definition time_time : M Q := λ w,
  match ticks w with
  | [] => Res (Ok (now w)) w [Clock (now w)]
  | d :: ts => Res (Ok (now w + d)%Q) (set_clock (now w + d)%Q ts w)
                   [Clock (now w + d)%Q]
  end.

(** [time.sleep(d)]. *)
Definition time_sleep (d : Q) : M unit := λ w,
  Res (Ok tt) (set_clock (now w + d)%Q (ticks w) w) [Sleep d].

(** [os.path.getsize]. *)
Definition os_path_getsize (p : path) : M Z :=
  f ← next_fault;
  w ← gets id;
  match f with
  | IOError => raise (OSError p)
  | _ =>
      match files w !! p with
      | Some data => mret (Z.of_nat (length data))
      | None =>
          if is_dir w p then mret 4096%Z else raise (FileNotFoundError p)
      end
  end.

(** [open(p, 'wb')]: the file is created, or emptied. *)
Definition open_wb (p : path) : M unit :=
  f ← next_fault;
  w ← gets id;
  match f with
  | IOError => raise (OSError p)
  | _ =>
      if is_dir w p then raise (IsADirectoryError p)
      else if negb (is_dir w (dirname p)) then raise (FileNotFoundError p)
      else modify (set_files (<[p := []]> (files w)));; emit (Truncate p)
  end.

(** [fsrc.read(n)] with the handle at offset [pos] of the file as it is
    now. *)
Definition fsrc_read (p : path) (pos n : nat) : M bytes :=
  f ← next_fault;
  w ← gets id;
  match f with
  | IOError => raise (OSError p)
  | _ => mret (take n (drop pos (default [] (files w !! p))))
  end.

(** [fdst.write(chunk)]. *)
Definition fdst_write (p : path) (chunk : bytes) : M unit :=
  f ← next_fault;
  w ← gets id;
  match f with
  | IOError => raise (OSError p)
  | _ =>
      let stored := match f with Garble junk => junk | _ => chunk end in
      modify (set_files
                (<[p := default [] (files w !! p) ++ stored]> (files w)));;
      emit (FileWrite p (length chunk))
  end.

(** Reading [self._is_running]: there is no mutex in this class. *)
Definition poll : M bool := serve_stop_request false;; read_flag.

(** [FileWorker.stop]. *)
Definition stop : M unit := requester_stop false.

(** [int(x)] on a float: truncation towards zero. *)
Definition int (x : Q) : Z :=
  if Qlt_le_dec x 0 then Qceiling x else Qfloor x.


(** The value of [speed_limit_bps] after the guard against a zero limit. *)
Definition speed_limit_bps (speed_limit_mbps : Z) : Z :=
  let speed_limit_bps := (speed_limit_mbps * 1024 * 1024)%Z in
  if (speed_limit_bps <=? 0)%Z then (MAX_SPEED_BPS * 2)%Z
  else speed_limit_bps.

(** [bytes_copied / elapsed_time if elapsed_time > 0 else 0], then the
    division by [1024 * 1024]. *)
Definition current_speed_mbps (bytes_copied : Z) (elapsed_time : Q) : Q :=
  let current_speed_bps :=
    if Qlt_le_dec 0 elapsed_time then (inject_Z bytes_copied / elapsed_time)%Q
    else 0%Q in
  (current_speed_bps / inject_Z (1024 * 1024))%Q.

(** The [while self._is_running] loop of [_execute_file_operation]; the
    result is [bytes_copied]. *)
Fixpoint copy_loop (fuel : nat) (self : FileWorker) (chunk_size : nat)
    (file_size limit_bps : Z) (start_time : Q) (bytes_copied : Z)
    (pos : nat) : M Z :=
  match fuel with
  | 0 => stuck
  | S fuel' =>
      r ← poll;
      if negb r then mret bytes_copied
      else
        chunk_start_time ← time_time;
        chunk ← fsrc_read (src_path self) pos chunk_size;
        if bool_decide (chunk = []) then mret bytes_copied
        else
          fdst_write (dest_path self) chunk;;
          let bytes_copied := (bytes_copied + Z.of_nat (length chunk))%Z in
          (if bool_decide (file_size = 0%Z) then raise ZeroDivisionError
           else mret tt);;
          let progress :=
            int (inject_Z bytes_copied / inject_Z file_size * 100)%Q in
          emit (progress_update progress);;
          chunk_end_time ← time_time;
          let actual_write_time := (chunk_end_time - chunk_start_time)%Q in
          let target_time_needed :=
            (inject_Z (Z.of_nat (length chunk)) / inject_Z limit_bps)%Q in
          let delay := (target_time_needed - actual_write_time)%Q in
          (if Qlt_le_dec 0 delay then time_sleep delay else mret tt);;
          t ← time_time;
          let elapsed_time := (t - start_time)%Q in
          emit (speed_update (current_speed_mbps bytes_copied elapsed_time));;
          copy_loop fuel' self chunk_size file_size limit_bps start_time
            bytes_copied (pos + length chunk)
  end.

(** [FileWorker._execute_file_operation]. *)
Definition _execute_file_operation (self : FileWorker) : M unit :=
  file_size ← os_path_getsize (src_path self);
  let bytes_copied := 0%Z in
  let limit_bps := speed_limit_bps (speed_limit_mbps self) in
  start_time ← time_time;
  fsrc ← open_rb (src_path self);
  open_wb (dest_path self);;
  copy_loop (S (length fsrc)) self CHUNK_SIZE file_size limit_bps start_time
    bytes_copied 0;;
  r ← poll;
  if negb r then
    os_remove (dest_path self);;
    emit (status_message "Operation cancelled. Partial file removed.")
  else if String.eqb (operation self) "move" then
    os_remove (src_path self);;
    emit (status_message "Source file deleted (Move operation complete).")
  else mret tt.

(** [str.capitalize] for ASCII text. *)
Definition upper (c : ascii) : ascii :=
  let n := nat_of_ascii c in
  if bool_decide (97 ≤ n ≤ 122) then ascii_of_nat (n - 32) else c.
Definition lower (c : ascii) : ascii :=
  let n := nat_of_ascii c in
  if bool_decide (65 ≤ n ≤ 90) then ascii_of_nat (n + 32) else c.
Fixpoint lowercase (s : string) : string :=
  match s with
  | EmptyString => EmptyString
  | String c s' => String (lower c) (lowercase s')
  end.
Definition capitalize (s : string) : string :=
  match s with
  | EmptyString => EmptyString
  | String c s' => String (upper c) (lowercase s')
  end.

(** [FileWorker.run]. *)
Definition run (self : FileWorker) : M unit :=
  r ← poll;
  if negb r then emit finished
  else
    try_finally
      (try_except
         (emit (status_message
                  ("Starting " +:+ operation self +:+ " operation..."));;
          _execute_file_operation self;;
          emit (status_message
                  ("Operation complete: " +:+ capitalize (operation self)
                   +:+ " successful.")))
         (λ e, emit (error_occurred
                       ("Error during " +:+ operation self +:+ ": "
                        +:+ exn_str e))))
      (emit finished).

End Throttle.

(** ** Monitors

    A property of a log is stated as an automaton that reads the events in
    order and may reject. *)

Fixpoint scan {S : Type} (step : S → event → option S) (s : S)
    (l : list event) : option S :=
  match l with
  | [] => Some s
  | e :: l' =>
      match step s e with
      | Some s' => scan step s' l'
      | None => None
      end
  end.

(** The flag is accessed under the mutex: the state is the thread that
    holds the mutex; a thread locks a free mutex, unlocks the mutex it
    holds, and reads or writes the flag only while it holds the mutex. *)
Definition mutex_step (holder : option thread) (e : event)
    : option (option thread) :=
  match e with
  | Lock t => match holder with None => Some (Some t) | Some _ => None end
  | Unlock t => if decide (holder = Some t) then Some None else None
  | FlagRead t _ | FlagWrite t _ =>
      if decide (holder = Some t) then Some holder else None
  | _ => Some holder
  end.

Definition lock_disciplined (l : list event) : Prop :=
  scan mutex_step None l = Some None.

(** A file is removed only after it was copied and its digest and the
    digest of the copy, computed in this order after the copy, were equal:
    the state is how far the verification of the last copy has come. A
    digest is computed only of a file just copied and then of its copy, and
    nothing is written between the two. With [strict] the two digests must
    be digests: the failure sentinel of [_calculate_md5] verifies nothing. *)
Inductive verification : Type :=
  | Unverified
  | Copied (src dst : path)
  | SourceHashed (src dst : path) (digest : string)
  | Verified (src dst : path).

(** No digest is awaited. *)
Definition calm (v : verification) : bool :=
  match v with SourceHashed _ _ _ => false | _ => true end.

Definition guard_step (strict : bool) (v : verification) (e : event)
    : option verification :=
  match e with
  | Copy2 src dst => if calm v then Some (Copied src dst) else None
  | Md5 p digest =>
      match v with
      | Copied src dst =>
          if decide (p = src) then Some (SourceHashed src dst digest)
          else None
      | SourceHashed src dst d =>
          if decide (p = dst) then
            if decide (digest = d) then
              if strict && bool_decide (d = "ERROR_HASH") then Some Unverified
              else Some (Verified src dst)
            else Some Unverified
          else None
      | _ => None
      end
  | Remove p =>
      match v with
      | Verified src dst => if decide (p = src) then Some Unverified else None
      | _ => None
      end
  | Truncate _ | FileWrite _ _ => if calm v then Some Unverified else None
  | _ => Some v
  end.

(** Every removal follows a successful digest match. *)
Definition deletes_after_match (l : list event) : Prop :=
  is_Some (scan (guard_step true) Unverified l).

(** The digests a log records, in order. *)
Definition digests (l : list event) : list (path * string) :=
  omap (λ e, match e with Md5 p d => Some (p, d) | _ => None end) l.

(** Of the digests taken two by two, those of a file and of its copy, some
    two are both the failure sentinel. *)
Fixpoint both_fail (ds : list (path * string)) : bool :=
  match ds with
  | (_, d1) :: (_, d2) :: ds' =>
      bool_decide (d1 = "ERROR_HASH") && bool_decide (d2 = "ERROR_HASH")
      || both_fail ds'
  | _ => false
  end.

(** The digest of the source that awaits the digest of the copy. *)
Definition pending (v : verification) : list (path * string) :=
  match v with SourceHashed src _ d => [(src, d)] | _ => [] end.

(** The rate limiter. The state follows one chunk: the clock is read, the
    chunk is written, the clock is read again; with [target] the size of the
    chunk divided by the limit and [actual] the time between the two
    readings, the limiter sleeps [target - actual] when that is positive and
    does not sleep otherwise; the clock is read once more and the sample
    emitted is [sample bytes elapsed], for the bytes written since the start
    and the time since the first reading of the clock. *)
Inductive pacing : Type :=
  | Idle
  | Between (start : Q) (bytes : Z)
  | Reading (start : Q) (bytes : Z) (chunk_start : Q)
  | Written (start : Q) (bytes : Z) (chunk_start : Q) (n : nat)
  | MustSleep (start : Q) (bytes : Z) (delay : Q)
  | Paced (start : Q) (bytes : Z)
  | Sampling (start : Q) (bytes : Z) (t : Q).

Definition pacing_step (limit : Z) (sample : Z → Q → Q) (s : pacing)
    (e : event) : option pacing :=
  match s, e with
  | Idle, Clock t => Some (Between t 0)
  | Between start bytes, Clock t => Some (Reading start bytes t)
  | Reading start bytes chunk_start, FileWrite _ n =>
      Some (Written start (bytes + Z.of_nat n) chunk_start n)
  | Written start bytes chunk_start n, Clock t =>
      let target := (inject_Z (Z.of_nat n) / inject_Z limit)%Q in
      let actual := (t - chunk_start)%Q in
      if Qlt_le_dec actual target
      then Some (MustSleep start bytes (target - actual))
      else Some (Paced start bytes)
  | MustSleep start bytes delay, Sleep d =>
      if Qeq_bool d delay then Some (Paced start bytes) else None
  | Paced start bytes, Clock t => Some (Sampling start bytes t)
  | Sampling start bytes t, speed_update mbps =>
      if Qeq_bool mbps (sample bytes (t - start)%Q)
      then Some (Between start bytes) else None
  | _, (Clock _ | Sleep _ | FileWrite _ _ | speed_update _) => None
  | _, _ => Some s
  end.

(** No chunk is left half way. *)
Definition settled (s : pacing) : Prop :=
  match s with
  | Idle | Between _ _ | Reading _ _ _ => True
  | _ => False
  end.

(** The bytes that have gone through the limiter, when no chunk is left
    half way. *)
Definition paced (s : pacing) : option Z :=
  match s with
  | Idle => Some 0%Z
  | Between _ bytes | Reading _ bytes _ => Some bytes
  | _ => None
  end.

(** The sample in bytes per second. *)
Definition bytes_per_second (bytes : Z) (elapsed : Q) : Q :=
  (inject_Z bytes / elapsed)%Q.

(** The sample the limiter is to emit for [bytes] bytes moved in [elapsed]
    seconds: bytes per second scaled to MiB per second, and 0 when the
    elapsed time is not positive. *)
Definition mib_per_second (bytes : Z) (elapsed : Q) : Q :=
  if Qlt_le_dec 0 elapsed
  then (inject_Z bytes / elapsed / inject_Z (1024 * 1024))%Q
  else 0%Q.

(** The sample in any unit: bytes per second divided by [unit]. *)
Definition per_second_in (unit : Q) (bytes : Z) (elapsed : Q) : Q :=
  (inject_Z bytes / elapsed / unit)%Q.

(** The effective limit, in bytes per second, for a ceiling of [mbps] MiB
    per second: the ceiling itself, and for a ceiling of 0 (or below) the
    constant 1048576000, twice the 500 MiB per second at which the slider
    ends. *)
Definition effective_limit (mbps : Z) : Z :=
  if decide (0 < mbps)%Z then (mbps * 1048576)%Z else 1048576000%Z.

(** No digest is computed. *)
Definition no_digest (e : event) : Prop :=
  match e with Md5 _ _ => False | _ => True end.

(** ** Sample inputs *)

Module Sample.

Definition text (s : string) : bytes := String.list_byte_of_string s.

(** /src/a.txt and /src/sub/b.txt; no destination yet. *)
Definition disk : gmap path bytes :=
  <[["src"; "a.txt"] := text "hello"]>
    (<[["src"; "sub"; "b.txt"] := text "world!"]> ∅).

(** No injected fault, no stop request, the clock at 0. *)
Definition machine : World :=
  mkWorld disk {[ ["src"]; ["src"; "sub"] ]} [] true None [] 0 [].

Definition secure_move : task :=
  Task ["src"] ["dst"] "verify_and_delete" "Op: Verify | From: src | To: dst".

(** /src holds the single file a.txt. *)
Definition one_file : World :=
  mkWorld {[ ["src"; "a.txt"] := text "hello" ]} {[ ["src"] ]} [] true None []
          0 [].

(** After the copy of a.txt has gone through, every [open] fails: the two
    [makedirs] and the [copy2] pass, the two [open] of the verification
    raise. *)
Definition unreadable_after_copy : World :=
  set_plan [Pass; Pass; Pass; IOError; IOError] one_file.

(** The copy of a.txt stores other bytes than the ones read. *)
Definition garbled_copy : World :=
  set_plan [Pass; Garble (text "junk")] one_file.



Definition absent : task :=
  Task ["nope"] ["dst"] "copy" "Op: Copy | From: nope | To: dst".

(** The clock advances by 1, 2, 3, 4, 5 seconds before its successive
    readings. *)
Definition slow_clock : World := set_clock 0 [1; 2; 3; 4; 5]%Q machine.

(** Move /src/a.txt to /a.bak with the slider at 0. *)
Definition move_a : Throttle.FileWorker :=
  Throttle.mkFileWorker ["src"; "a.txt"] ["a.bak"] "move" 0.

End Sample.

(** ** Statements about programs

    [wp m w Φ]: running [m] on the machine [w] ends in an outcome, a machine
    and a log that satisfy [Φ]. *)
Definition wp {A} (m : M A) (w : World)
    (Φ : outcome A → World → list event → Prop) : Prop :=
  match m w with Res o w' l => Φ o w' l end.


(** [accepts step s m Q]: on every machine, the monitor started in [s]
    accepts the log of [m] and ends in a state that [Q] relates to the
    outcome. *)
Definition accepts {S A : Type} (step : S → event → option S) (s : S)
    (m : M A) (Q : outcome A → S → Prop) : Prop :=
  ∀ w, wp m w (λ o _ l, ∃ s', scan step s l = Some s' ∧ Q o s').

(** [hoare L P m Q]: from a machine satisfying [P], every event [m] logs
    satisfies [L] and outcome and machine at the end satisfy [Q]. *)
Definition hoare {A} (L : event → Prop) (P : World → Prop) (m : M A)
    (Q : outcome A → World → Prop) : Prop :=
  ∀ w, P w → wp m w (λ o w' l, Forall L l ∧ Q o w').

Abbreviation any := (λ _ : World, True).
Abbreviation anything := (λ _ : event, True).

(** Calls that leave the files alone and record no digest. *)
Definition keeps_files {A} (m : M A) : Prop :=
  ∀ w, wp m w (λ _ w' l, files w' = files w ∧ digests l = []).

(** What the slot connected to [operation_finished] can add to the log. *)
Definition stop_events : list event :=
  [Lock Requester; FlagWrite Requester false; Unlock Requester].

(** The slot touches the flag and the scripted replies, nothing else. *)
Definition slot_effect (w w' : World) : Prop :=
  files w' = files w ∧ dirs w' = dirs w ∧ plan w' = plan w ∧
  stop_after w' = stop_after w ∧ now w' = now w ∧ ticks w' = ticks w.

(** Events other than a throughput sample and a digest. *)
Definition plain (e : event) : Prop :=
  match e with speed_update _ | Md5 _ _ => False | _ => True end.

(** A run that returns normally leaves the limiter settled. *)
Definition settled_if_ok {A} (o : outcome A) (s : pacing) : Prop :=
  match o with Ok _ => settled s | _ => True end.


(** ** Statements about runs

    Event classes and relations between machines, used to say what a run
    of a worker logs and what it changes. *)

(** Nothing but the clock differs between two machines. *)
Definition only_clock (w w' : World) : Prop :=
  files w' = files w ∧ dirs w' = dirs w ∧ plan w' = plan w ∧
  is_running w' = is_running w ∧ stop_after w' = stop_after w ∧
  replies w' = replies w.

(** No fault is planned and no stop is requested or pending. *)
Definition undisturbed (w : World) : Prop :=
  plan w = [] ∧ is_running w = true ∧ stop_after w = None.

(** In the middle of an undisturbed copy of [data] by [self]: no fault is
    planned, no stop is requested, and the files are those of the start,
    [files0], with the first [pos] bytes of [data] at the destination. *)
Definition midcopy (self : Throttle.FileWorker) (data : bytes)
    (files0 : gmap path bytes) (pos : nat) (w : World) : Prop :=
  plan w = [] ∧ is_running w = true ∧ stop_after w = None ∧
  files w = <[Throttle.dest_path self := take pos data]> files0.

(** Events other than the progress and throughput signals. *)
Definition silent (e : event) : Prop :=
  match e with progress_update _ | speed_update _ => False | _ => True end.

(** Events of the cancellation flag and of its mutex. *)
Definition flag_event (e : event) : Prop :=
  match e with
  | Lock _ | Unlock _ | FlagRead _ _ | FlagWrite _ _ => True
  | _ => False
  end.

(** A progress signal carries a percentage. *)
Definition progress_in_range (e : event) : Prop :=
  match e with
  | progress_update p => (0 ≤ p ≤ 100)%Z
  | _ => True
  end.

(** What [_execute_file_operation] may log: no error, no end of the run,
    progress within range. *)
Definition body_event (e : event) : Prop :=
  match e with
  | progress_update p => (0 ≤ p ≤ 100)%Z
  | error_occurred _ | finished => False
  | _ => True
  end.

(** The maps agree except at [q]. *)
Definition only_at (q : path) (m m' : gmap path bytes) : Prop :=
  ∀ p, p ≠ q → m' !! p = m !! p.

(** What the task of index [i] of the batch worker, on [src_dir] and
    [dst_dir], may log: its signals carry the index [i]; a copy takes a
    file below the source to the same relative path below the destination;
    a removal happens in mode verify_and_delete and below the source;
    directories are made at or below the destination; the overall progress
    is a percentage; nothing is written but by a copy. *)
Definition task_event (i : nat) (src_dir dst_dir : path) (mode : string)
    (e : event) : Prop :=
  match e with
  | operation_progress j _ _ | operation_finished j _ _ => j = i
  | Copy2 s d => ∃ rel, rel ≠ [] ∧ s = src_dir ++ rel ∧ d = dst_dir ++ rel
  | Remove p =>
      mode = "verify_and_delete" ∧ ∃ rel, rel ≠ [] ∧ p = src_dir ++ rel
  | Makedirs p => dst_dir `prefix_of` p
  | overall_progress p => (0 ≤ p ≤ 100)%Z
  | Truncate _ | FileWrite _ _ => False
  | _ => True
  end.

(** How a task may change the files: a path keeps its content, or it lies
    at or below the destination, or the mode is verify_and_delete, the path
    lies below the source and the file is gone. *)
Definition touched (src_dir dst_dir : path) (mode : string)
    (m m' : gmap path bytes) : Prop :=
  ∀ p, m' !! p = m !! p ∨ dst_dir `prefix_of` p ∨
       (mode = "verify_and_delete" ∧ (∃ rel, rel ≠ [] ∧ p = src_dir ++ rel) ∧
        m' !! p = None).

(** What the batch worker may signal for a queue of [n] tasks: the overall
    progress is a percentage, the other signals carry the index of a task
    of the queue. *)
Definition queue_event (n : nat) (e : event) : Prop :=
  match e with
  | overall_progress p => (0 ≤ p ≤ 100)%Z
  | operation_progress i _ _ | operation_finished i _ _ => i < n
  | _ => True
  end.

(** No regular file is a proper ancestor of [p]. *)
Definition no_file_above (m : gmap path bytes) (p : path) : Prop :=
  ∀ q, q `prefix_of` p → q ≠ p → m !! q = None.

(** No regular file lies below another one. *)
Definition tree_like (m : gmap path bytes) : Prop :=
  ∀ p q, is_Some (m !! p) → is_Some (m !! q) → p `prefix_of` q → p = q.

(** The task indices of the completion reports of a log, in order. *)
Definition reported (l : list event) : list nat :=
  omap (λ e, match e with operation_finished i _ _ => Some i | _ => None end)
       l.

(** Monitor of the completion reports: the state is the least task index
    that may still be reported; a report of task [i] moves it past [i]. *)
Definition order_step (next : nat) (e : event) : option nat :=
  match e with
  | operation_finished i _ _ => if decide (next ≤ i) then Some (S i) else None
  | _ => Some next
  end.

(** ** Sample inputs for the corner cases *)

Module Corner.

(** The fourth system call, the first write of a chunk, fails. *)
Definition write_fails : World :=
  set_plan [Pass; Pass; Pass; IOError] Sample.machine.

(** Copy a file that does not exist. *)
Definition copy_nothing : Throttle.FileWorker :=
  Throttle.mkFileWorker ["nope"] ["a.bak"] "copy" 0.

(** Copy /src/a.txt onto itself. *)
Definition copy_onto_itself : Throttle.FileWorker :=
  Throttle.mkFileWorker ["src"; "a.txt"] ["src"; "a.txt"] "copy" 10.


(** The wall clock is set back while a chunk is copied: the write takes a
    second, and the next reading of the clock is a nanosecond after the
    start of the operation. *)
Definition clock_set_back : World :=
  set_clock 0 [0; 0; 1; -(999999999 # 1000000000)]%Q Sample.machine.

(** The wall clock is set back by a second after the chunk was paced: the
    next reading lies before the start of the operation. *)
Definition clock_set_far_back : World :=
  set_clock 0 [0; 0; 0; -(1)]%Q Sample.machine.

End Corner.

(** ** The window of speed_adjustable_copy.py *)

(** [s.split(sep)] for a separator that is not empty. *)
Fixpoint str_split_go (fuel : nat) (sep s : string) : list string :=
  match fuel with
  | 0 => [s]
  | S fuel' =>
      match String.index 0 sep s with
      | Some i =>
          let k := i + String.length sep in
          String.substring 0 i s
            :: str_split_go fuel' sep
                 (String.substring k (String.length s - k) s)
      | None => [s]
      end
  end.

Definition str_split (sep s : string) : list string :=
  str_split_go (String.length s) sep s.

Module ThrottleApp.
Section window.

(** [f"{mbps:.2f}"]: a float in fixed notation with two decimals. *)
Context (fixed2 : Q → string).

(** The attributes of [FileTransferApp] its slots read or write: for a
    button, an input or the combo box whether it is enabled; for the slider
    its value and whether it is enabled; the texts of the labels; the value
    of the progress bar; for the thread whether it is running. *)
Record FileTransferApp : Type := mkFileTransferApp {
  worker_thread : option bool;
  _is_running : bool;
  start_btn : bool;
  stop_btn : bool;
  src_input : bool;
  dest_input : bool;
  src_btn : bool;
  dest_btn : bool;
  operation_combo : bool;
  speed_slider : Z;
  speed_slider_enabled : bool;
  speed_value_label : string;
  progress_bar : Z;
  status_label : string
}.

Definition set_speed_value_label (s : string) (self : FileTransferApp)
    : FileTransferApp :=
  mkFileTransferApp (worker_thread self) (_is_running self) (start_btn self)
    (stop_btn self) (src_input self) (dest_input self) (src_btn self)
    (dest_btn self) (operation_combo self) (speed_slider self)
    (speed_slider_enabled self) s (progress_bar self) (status_label self).

Definition set_status_label (s : string) (self : FileTransferApp)
    : FileTransferApp :=
  mkFileTransferApp (worker_thread self) (_is_running self) (start_btn self)
    (stop_btn self) (src_input self) (dest_input self) (src_btn self)
    (dest_btn self) (operation_combo self) (speed_slider self)
    (speed_slider_enabled self) (speed_value_label self) (progress_bar self)
    s.

(** [QProgressBar.setValue] with the range 0..100 set by [_setup_ui]: a
    value outside the range is ignored. *)
Definition progress_bar_setValue (value : Z) (self : FileTransferApp)
    : FileTransferApp :=
  mkFileTransferApp (worker_thread self) (_is_running self) (start_btn self)
    (stop_btn self) (src_input self) (dest_input self) (src_btn self)
    (dest_btn self) (operation_combo self) (speed_slider self)
    (speed_slider_enabled self) (speed_value_label self)
    (if bool_decide (0 ≤ value ≤ 100)%Z then value else progress_bar self)
    (status_label self).

(** [FileTransferApp._update_speed_label]; [None] stands for the
    IndexError of [split(': ')[1]]. *)
Definition _update_speed_label (value : Z) (self : FileTransferApp)
    : option FileTransferApp :=
  let speed_text :=
    if bool_decide (value = 0%Z) then "Unlimited (Max Throttling)"
    else pretty value +:+ " MB/s" in
  let current_text := speed_value_label self in
  if String.prefix "Real-time:" current_text then
    part ← str_split ": " current_text !! 1;
    Some (set_speed_value_label
            (speed_text +:+ " (Real-time: " +:+ part +:+ ")") self)
  else
    Some (set_speed_value_label (speed_text +:+ " (Real-time: N/A)") self).

(** [FileTransferApp._operation_finished]; [None] stands for the
    AttributeError raised when there is no thread. *)
Definition _operation_finished (self : FileTransferApp)
    : option FileTransferApp :=
  running ← worker_thread self;
  (* [quit()] and [wait()] when the thread is running *)
  let self :=
    mkFileTransferApp (Some false) false true false true true true true true
      (speed_slider self) true (speed_value_label self) (progress_bar self)
      (status_label self) in
  _update_speed_label (speed_slider self) self.

(** [FileTransferApp._update_real_time_speed]. *)
Definition _update_real_time_speed (mbps : Q) (self : FileTransferApp)
    : FileTransferApp :=
  let set_speed_text :=
    if bool_decide (0 < speed_slider self)%Z
    then pretty (speed_slider self) +:+ " MB/s"
    else "Unlimited (Max Throttling)" in
  set_speed_value_label
    (set_speed_text +:+ " (Real-time: " +:+ fixed2 mbps +:+ " MB/s)") self.

(** [FileTransferApp._handle_error]; the message box is not represented. *)
Definition _handle_error (message : string) (self : FileTransferApp)
    : option FileTransferApp :=
  _operation_finished (set_status_label ("Error: " +:+ message) self).

(** The connections made by [_start_operation]: the slot run for a signal
    of the worker. *)
Definition slot (e : event) (self : FileTransferApp)
    : option FileTransferApp :=
  match e with
  | finished => _operation_finished self
  | progress_update p => Some (progress_bar_setValue p self)
  | speed_update mbps => Some (_update_real_time_speed mbps self)
  | status_message s => Some (set_status_label s self)
  | error_occurred message => _handle_error message self
  | _ => Some self
  end.

(** The signals of a log delivered in the order of their emission, each
    slot running to its end before the next. *)
Fixpoint deliver (l : list event) (self : FileTransferApp)
    : option FileTransferApp :=
  match l with
  | [] => Some self
  | e :: l' => self' ← slot e self; deliver l' self'
  end.

(** The window once [_start_operation] has started a thread. *)
Definition started : FileTransferApp :=
  mkFileTransferApp (Some true) true false true false false false false false
    10 false "10 MB/s (Real-time: N/A)" 0 "Starting move...".

End window.

(** A thread exists, and the label of the speed does not begin with
    "Real-time:". *)
Definition tidy (self : FileTransferApp) : Prop :=
  is_Some (worker_thread self) ∧
  String.prefix "Real-time:" (speed_value_label self) = false.

End ThrottleApp.

(** ** The window of absolutelyfreesync.py *)

Module SyncApp.

(** The attributes of [FileCopierApp]: the queue, the thread (if any, and
    whether it is running), the texts of the rows of the list widget and of
    the labels, whether the two buttons are enabled, the value of the
    progress bar. The colour of a row is not represented. *)
Record FileCopierApp : Type := mkFileCopierApp {
  task_list : list task;
  worker_thread : option bool;
  current_task_index : Z;
  task_list_widget : list string;
  start_btn : bool;
  stop_btn : bool;
  current_file_label : string;
  status_detail_label : string;
  progress_bar : Z
}.

(** The text of the row of a task: [f"[{number}] {task['name']}"]. *)
Definition row_text (number : nat) (t : task) : string :=
  "[" +:+ pretty number +:+ "] " +:+ name t.

(** [FileCopierApp._add_task]; [task_data] is what the dialog gives when it
    is accepted with a task. *)
Definition _add_task (task_data : option task) (self : FileCopierApp)
    : FileCopierApp :=
  match task_data with
  | Some t =>
      let task_list' := task_list self ++ [t] in
      mkFileCopierApp task_list' (worker_thread self)
        (current_task_index self)
        (task_list_widget self ++ [row_text (length task_list') t])
        (start_btn self) (stop_btn self) (current_file_label self)
        (status_detail_label self) (progress_bar self)
  | None => self
  end.

(** [FileCopierApp._update_task_list_ui]. *)
Definition _update_task_list_ui (self : FileCopierApp) : FileCopierApp :=
  mkFileCopierApp (task_list self) (worker_thread self)
    (current_task_index self)
    (imap (λ i t, row_text (i + 1) t) (task_list self))
    (start_btn self) (stop_btn self) (current_file_label self)
    (status_detail_label self) (progress_bar self).

(** [FileCopierApp._remove_task]; [selected] holds the rows of the selected
    items. *)
Definition _remove_task (selected : list nat) (self : FileCopierApp)
    : FileCopierApp :=
  match selected with
  | [] => self
  | row :: _ =>
      let task_list' :=
        if bool_decide (row < length (task_list self))
        then delete row (task_list self) else task_list self in
      _update_task_list_ui
        (mkFileCopierApp task_list' (worker_thread self)
           (current_task_index self) (delete row (task_list_widget self))
           (start_btn self) (stop_btn self) (current_file_label self)
           (status_detail_label self) (progress_bar self))
  end.

(** [QProgressBar.setValue] with the default range 0..100: a value outside
    the range is ignored. *)
Definition progress_bar_setValue (value : Z) (self : FileCopierApp)
    : FileCopierApp :=
  mkFileCopierApp (task_list self) (worker_thread self)
    (current_task_index self) (task_list_widget self) (start_btn self)
    (stop_btn self) (current_file_label self) (status_detail_label self)
    (if bool_decide (0 ≤ value ≤ 100)%Z then value else progress_bar self).

(** [FileCopierApp._start_operations]; the message boxes are not
    represented. *)
Definition _start_operations (self : FileCopierApp) : FileCopierApp :=
  if bool_decide (task_list self = []) then self
  else if bool_decide (worker_thread self = Some true) then self
  else
    mkFileCopierApp (task_list self) (Some true) (-1) (task_list_widget self)
      false true "File: Starting..." "Status: Starting batch operation." 0.

(** [FileCopierApp._stop_operations] as the window sees it; [reply] is the
    answer to the confirmation, asked when the thread is running. After
    [wait()] the thread has finished. The signals that arrive while the
    confirmation is open are not represented: the fields are those of the
    window when the confirmation opens. *)
Definition _stop_operations (reply : bool) (self : FileCopierApp)
    : FileCopierApp :=
  if bool_decide (worker_thread self = Some true) then
    if reply then
      mkFileCopierApp (task_list self) (Some false) (current_task_index self)
        (task_list_widget self) (start_btn self) (stop_btn self)
        (current_file_label self) "Status: Stopping worker thread..."
        (progress_bar self)
    else self
  else self.

(** [FileCopierApp._update_progress]. *)
Definition _update_progress (percentage : Z) (self : FileCopierApp)
    : FileCopierApp :=
  progress_bar_setValue percentage self.

(** [FileCopierApp._update_status]; [None] stands for the IndexError of
    [self.task_list[task_index]]. *)
Definition _update_status (task_index : nat) (filename message : string)
    (self : FileCopierApp) : option FileCopierApp :=
  t ← task_list self !! task_index;
  Some (mkFileCopierApp (task_list self) (worker_thread self)
          (Z.of_nat task_index) (task_list_widget self) (start_btn self)
          (stop_btn self)
          ("Task [" +:+ pretty (task_index + 1) +:+ "] - " +:+ name t +:+ ": "
           +:+ filename)
          ("Status: " +:+ message) (progress_bar self)).

(** [FileCopierApp._handle_task_completion] as the window sees it (what it
    does to the worker is [Sync._handle_task_completion]); [None] stands
    for the AttributeError raised when the list widget has no such row. *)
Definition _handle_task_completion (task_index : nat) (success : bool)
    (message : string) (reply : bool) (self : FileCopierApp)
    : option FileCopierApp :=
  if bool_decide (length (task_list self) ≤ task_index) then Some self
  else
    list_item ← task_list_widget self !! task_index;
    let text :=
      if success then list_item +:+ " **[DONE: Success]**"
      else list_item +:+ " **[FAILED: " +:+ message +:+ "]**" in
    let self :=
      mkFileCopierApp (task_list self) (worker_thread self)
        (current_task_index self)
        (<[task_index := text]> (task_list_widget self))
        (start_btn self) (stop_btn self) (current_file_label self)
        (status_detail_label self) (progress_bar self) in
    Some (if success then self else _stop_operations reply self).

(** The rows of the list widget are those of the queue: row [k] begins
    with the number [k + 1] and the name of the task at position [k]. *)
Definition numbered (self : FileCopierApp) : Prop :=
  length (task_list_widget self) = length (task_list self) ∧
  ∀ k t, task_list self !! k = Some t →
         ∃ suffix, task_list_widget self !! k
                   = Some (row_text (k + 1) t +:+ suffix).

(** A window with the queue of [Sample.secure_move], started. *)
Definition started : FileCopierApp :=
  _start_operations
    (_add_task (Some Sample.secure_move)
       (mkFileCopierApp [] None (-1) [] true false "File: N/A"
          "Status: Ready" 0)).

End SyncApp.

(** * Properties *)

(** ** Weakest preconditions for [M] *)

Lemma wp_run {A} (m : M A) w Φ :
  wp m w Φ ↔ Φ (out (m w)) (world (m w)) (log (m w)).
Proof. unfold wp. by destruct (m w). Qed.

Lemma wp_mono {A} (m : M A) w (Φ Ψ : outcome A → World → list event → Prop) :
  wp m w Φ → (∀ o w' l, Φ o w' l → Ψ o w' l) → wp m w Ψ.
Proof. unfold wp. destruct (m w). auto. Qed.

Lemma wp_ret {A} (a : A) w Φ : Φ (Ok a) w [] → wp (mret a) w Φ.
Proof. done. Qed.

Lemma wp_raise {A} e w (Φ : outcome A → _) : Φ (Raise e) w [] → wp (raise e) w Φ.
Proof. done. Qed.

Lemma wp_stuck {A} w (Φ : outcome A → _) : Φ Stuck w [] → wp stuck w Φ.
Proof. done. Qed.

Lemma wp_emit e w Φ : Φ (Ok tt) w [e] → wp (emit e) w Φ.
Proof. done. Qed.

Lemma wp_gets {A} (f : World → A) w Φ : Φ (Ok (f w)) w [] → wp (gets f) w Φ.
Proof. done. Qed.

Lemma wp_modify f w Φ : Φ (Ok tt) (f w) [] → wp (modify f) w Φ.
Proof. done. Qed.

Lemma wp_bind {A B} (m : M A) (k : A → M B) w Φ :
  wp m w (λ o w1 l1,
    match o with
    | Ok a => wp (k a) w1 (λ o2 w2 l2, Φ o2 w2 (l1 ++ l2))
    | Raise e => Φ (Raise e) w1 l1
    | Stuck => Φ Stuck w1 l1
    end) →
  wp (m ≫= k) w Φ.
Proof.
  unfold wp, mbind, M_bind. destruct (m w) as [[a|e|] w1 l1]; [|done..].
  unfold after. by destruct (k a w1).
Qed.

Lemma wp_try_except {A} (m : M A) h w Φ :
  wp m w (λ o w1 l1,
    match o with
    | Raise e => wp (h e) w1 (λ o2 w2 l2, Φ o2 w2 (l1 ++ l2))
    | _ => Φ o w1 l1
    end) →
  wp (try_except m h) w Φ.
Proof.
  unfold wp, try_except. destruct (m w) as [[a|e|] w1 l1]; [done| |done].
  unfold after. by destruct (h e w1).
Qed.

Lemma wp_try_finally {A} (m : M A) f w Φ :
  wp m w (λ o w1 l1,
    wp f w1 (λ o2 w2 l2,
      match o2 with
      | Ok _ => Φ o w2 (l1 ++ l2)
      | Raise e => Φ (Raise e) w2 (l1 ++ l2)
      | Stuck => Φ Stuck w2 (l1 ++ l2)
      end)) →
  wp (try_finally m f) w Φ.
Proof.
  unfold wp, try_finally. destruct (m w) as [o w1 l1].
  by destruct (f w1) as [[[]|e|] w2 l2].
Qed.

Lemma wp_next_fault w Φ :
  (plan w = [] → Φ (Ok Pass) w []) →
  (∀ f p, plan w = f :: p → Φ (Ok f) (set_plan p w) []) →
  wp next_fault w Φ.
Proof.
  intros H1 H2. unfold wp, next_fault. destruct (plan w) as [|f p]; auto.
Qed.

(** One step of symbolic execution. *)
Ltac wp_step :=
  lazymatch goal with
  | |- wp (_ ≫= _) _ _ => apply wp_bind
  | |- wp (mret _) _ _ => apply wp_ret
  | |- wp (raise _) _ _ => apply wp_raise
  | |- wp stuck _ _ => apply wp_stuck
  | |- wp (emit _) _ _ => apply wp_emit
  | |- wp (gets _) _ _ => apply wp_gets
  | |- wp (modify _) _ _ => apply wp_modify
  | |- wp (try_except _ _) _ _ => apply wp_try_except
  | |- wp (try_finally _ _) _ _ => apply wp_try_finally
  end.

(** Field access after an update of the machine. *)
Lemma fault_pass {A} (f : fault) (a b : A) :
  f ≠ IOError → match f with IOError => a | _ => b end = b.
Proof. by destruct f. Qed.

Lemma set_plan_id w : set_plan (plan w) w = w.
Proof. by destruct w. Qed.

Lemma ceil_div_step n b :
  0 < b → 0 < n → (n + b - 1) / b = S ((n - b + b - 1) / b).
Proof.
  intros Hb Hn. destruct (decide (b ≤ n)) as [Hle|Hgt].
  - replace (n + b - 1) with ((n - b + b - 1) + 1 * b) by lia.
    rewrite Nat.div_add by lia. lia.
  - replace (n - b) with 0 by lia. simpl.
    rewrite (Nat.div_small (b - 1) b) by lia.
    symmetry. apply (Nat.div_unique _ _ _ (n - 1)); lia.
Qed.

(** Sorting the files for the walk keeps them all, once each. *)
Lemma walk_insert_Permutation p l : walk_insert p l ≡ₚ p :: l.
Proof.
  induction l as [|q l IH]; [done|]. simpl.
  destruct (walk_leb p q); [done|]. rewrite IH. apply Permutation_swap.
Qed.

Lemma walk_sort_Permutation l : walk_sort l ≡ₚ l.
Proof.
  induction l as [|p l IH]; [done|]. simpl.
  by rewrite walk_insert_Permutation, IH.
Qed.

Lemma world_eta w :
  mkWorld (files w) (dirs w) (plan w) (is_running w) (stop_after w)
          (replies w) (now w) (ticks w) = w.
Proof. by destruct w. Qed.

(** ** The batch worker *)

Section sync_facts.
Context `{HL : Hashlib}.

Lemma wp_emit_operation_finished self i ok msg w Φ :
  (∀ w', slot_effect w w' → is_running w' = is_running w →
         Φ (Ok tt) w' [operation_finished i ok msg]) →
  (ok = false → ∀ w', slot_effect w w' → is_running w' = false →
         Φ (Ok tt) w' (operation_finished i ok msg :: stop_events)) →
  wp (Sync.emit_operation_finished self i ok msg) w Φ.
Proof.
  intros H1 H2.
  unfold Sync.emit_operation_finished, Sync._handle_task_completion.
  wp_step. wp_step. case_bool_decide.
  { wp_step. by apply H1. }
  destruct ok.
  { wp_step. by apply H1. }
  unfold Sync._stop_operations, Sync.question. wp_step.
  unfold wp at 1. destruct (replies w) as [|[] rs] eqn:Hr.
  - wp_step. by apply H1.
  - unfold requester_stop. repeat wp_step. by apply H2.
  - wp_step. by apply H1.
Qed.

(** *** The digest *)

Lemma md5_loop_spec p bs : 0 < bs → ∀ fuel h X w, length X ≤ fuel →
  let c := (length X + bs - 1) / bs in
  let r := Sync.md5_loop fuel p bs h (take bs X) (drop bs X) w in
  log r = [] ∧ (∃ k, world r = set_plan (drop k (plan w)) w) ∧
  (IOError ∉ take c (plan w) →
     out r = Ok (update h X) ∧ world r = set_plan (drop c (plan w)) w) ∧
  (IOError ∈ take c (plan w) → out r = Raise (OSError p)).
Proof.
  intros Hbs. induction fuel as [|fuel IH]; intros h X w Hlen.
  - destruct X; [|simpl in Hlen; lia]. simpl.
    rewrite Nat.div_small by lia. rewrite take_nil. simpl.
    rewrite update_nil. repeat split; try done.
    + exists 0. by rewrite drop_0, set_plan_id.
    + by rewrite drop_0, set_plan_id.
    + rewrite take_0. by intros ?%elem_of_nil.
  - destruct (decide (X = [])) as [->|Hne].
    { simpl. rewrite Nat.div_small by lia. rewrite take_nil. simpl.
      rewrite update_nil. repeat split; try done.
      + exists 0. by rewrite drop_0, set_plan_id.
      + by rewrite drop_0, set_plan_id.
      + rewrite take_0. by intros ?%elem_of_nil. }
    assert (0 < length X) as HX by (destruct X; [done|simpl; lia]).
    intros c r. subst c r. rewrite (ceil_div_step _ _ Hbs HX).
    cbn [Sync.md5_loop]. rewrite bool_decide_eq_true_2
      by (rewrite length_take; lia).
    specialize (IH (update h (take bs X)) (drop bs X)).
    rewrite update_app, take_drop in IH.
    rewrite length_drop in IH.
    assert (length X - bs ≤ fuel) as Hd by lia.
    apply wp_run. wp_step. unfold read. wp_step. apply wp_next_fault.
    + intros Hp. wp_step. apply wp_run. simpl.
      destruct (IH w Hd) as (Hl & [k Hk] & Hok & Hbad). rewrite Hp in *.
      rewrite take_nil, drop_nil in *.
      destruct Hok as [Ho Hw]; [by intros ?%elem_of_nil|].
      rewrite Hl, Ho, Hw. split_and!; try done.
      * by exists 0.
      * by intros ?%elem_of_nil.
    + intros f pl Hp. rewrite Hp.
      destruct (IH (set_plan pl w) Hd) as (Hl & [k Hk] & Hok & Hbad).
      simpl in Hk, Hok, Hbad.
      destruct (decide (f = IOError)) as [->|Hf].
      { wp_step. simpl. split_and!; try done.
        - by exists 1.
        - intros []. left. }
      assert (wp (match f with
                  | IOError => raise (OSError p)
                  | _ => mret (take bs (drop bs X), drop bs (drop bs X))
                  end) (set_plan pl w)
                (λ o w' l, o = Ok (take bs (drop bs X), drop bs (drop bs X))
                           ∧ w' = set_plan pl w ∧ l = [])) as Hm
        by (by destruct f).
      eapply wp_mono; [exact Hm|]. intros o w' l (-> & -> & ->).
      apply wp_run. simpl. rewrite Hl. split_and!; try done.
      * exists (S k). by rewrite Hk.
      * intros Hn. destruct Hok as [Ho Hw].
        { intros ?. apply Hn. by right. }
        by rewrite Ho, Hw.
      * intros [?|?]%elem_of_cons; [done|by apply Hbad].
Qed.

Lemma hexdigest_not_sentinel h : hexdigest h ≠ "ERROR_HASH".
Proof.
  intros Heq. pose proof (hexdigest_lower h) as Hl. rewrite Heq in Hl.
  vm_compute in Hl. discriminate.
Qed.

(** What a call of [_calculate_md5] does, in full. *)
Lemma calculate_md5_run p bs w :
  0 < bs →
  let r := Sync._calculate_md5 p bs w in
  ∃ digest,
    out r = Ok digest ∧ log r = [Md5 p digest] ∧
    files (world r) = files w ∧ dirs (world r) = dirs w ∧
    match files w !! p with
    | Some data =>
        if decide (IOError ∈ take (Sync.md5_calls bs (length data)) (plan w))
        then digest = "ERROR_HASH"
        else digest = hexdigest (update md5 data) ∧
             forallb lower_hex (String.list_ascii_of_string digest) = true ∧
             digest ≠ "ERROR_HASH"
    | None => digest = "ERROR_HASH"
    end.
Proof.
  intros Hbs r. subst r. apply wp_run. unfold Sync._calculate_md5.
  wp_step. wp_step. wp_step. unfold open_rb. wp_step. apply wp_next_fault.
  - intros Hp. wp_step. wp_step. unfold id. rewrite Hp.
    destruct (files w !! p) as [data|] eqn:Hfile.
    + wp_step. wp_step. unfold read. wp_step. apply wp_next_fault; [|congruence].
      intros _. wp_step. wp_step. apply wp_run.
      destruct (md5_loop_spec p bs Hbs (length data) md5 data w (le_n _))
        as (Hl & [k Hk] & Hok & _).
      rewrite Hp, take_nil in Hok. destruct Hok as [Ho Hw]; [by intros ?%elem_of_nil|].
      rewrite Ho, Hl, Hw. wp_step. repeat wp_step. simpl.
      eexists. split_and!; try done;
        [apply hexdigest_lower|apply hexdigest_not_sentinel].
    + destruct (is_dir w p); repeat wp_step; simpl; eauto 10.
  - intros f0 pl Hp. rewrite Hp. destruct (decide (f0 = IOError)) as [->|Hf0].
    { repeat wp_step. eexists. split_and!; try done.
      destruct (files w !! p); [|done]. rewrite decide_True; [done|left]. }
    wp_step. wp_step. unfold id. rewrite (fault_pass f0) by done. simpl.
    destruct (files w !! p) as [data|] eqn:Hfile.
    2:{ destruct (is_dir _ p); repeat wp_step; simpl; eauto 10. }
    wp_step. wp_step. unfold read. wp_step. apply wp_next_fault; simpl.
    + intros ->. wp_step. wp_step. apply wp_run.
      destruct (md5_loop_spec p bs Hbs (length data) md5 data (set_plan [] w)
                  (le_n _)) as (Hl & [k Hk] & Hok & _).
      simpl in Hok. rewrite take_nil in Hok.
      destruct Hok as [Ho Hw]; [by intros ?%elem_of_nil|].
      rewrite Ho, Hl, Hw. repeat wp_step.
      eexists. split_and!; try done. unfold Sync.md5_calls. cbn [Nat.add take].
      rewrite ?take_nil.
      rewrite decide_False by (intros [?|?%elem_of_nil]%elem_of_cons; done).
      split_and!; [done|apply hexdigest_lower|apply hexdigest_not_sentinel].
    + intros f1 pl1 ->. destruct (decide (f1 = IOError)) as [->|Hf1].
      { repeat wp_step. eexists. split_and!; try done.
        rewrite decide_True; [done|right; left]. }
      rewrite (fault_pass f1) by done. wp_step. wp_step. apply wp_run.
      destruct (md5_loop_spec p bs Hbs (length data) md5 data
                  (set_plan pl1 (set_plan (f1 :: pl1) w)) (le_n _))
        as (Hl & [k Hk] & Hok & Hbad).
      simpl in Hok, Hbad. rewrite Hl.
      destruct (decide (IOError ∈ take ((length data + bs - 1) `div` bs) pl1))
        as [Hin|Hin].
      * rewrite (Hbad Hin). repeat wp_step.
        eexists. split_and!; try done; try (by rewrite Hk).
        rewrite decide_True; [done|by do 2 right].
      * destruct (Hok Hin) as [Ho Hw]. rewrite Ho, Hw. repeat wp_step.
        eexists. split_and!; try done. unfold Sync.md5_calls. cbn [Nat.add take].
        rewrite decide_False
          by (intros [?|[?|?]%elem_of_cons]%elem_of_cons; done).
        split_and!; [done|apply hexdigest_lower|apply hexdigest_not_sentinel].
Qed.

(** C8. [_calculate_md5] always returns a string and never raises; it
    changes neither files nor directories. On an existing file, when no
    call among [open] and the block-wise [read]s fails, the string is the
    digest of the whole content fed at once, made of lowercase hexadecimal
    digits and different from the sentinel; when one of these calls fails,
    or the file cannot be opened, it is the sentinel ["ERROR_HASH"]. *)
Theorem calculate_md5_digest_or_sentinel p bs w :
  0 < bs →
  let r := Sync._calculate_md5 p bs w in
  ∃ digest,
    out r = Ok digest ∧ log r = [Md5 p digest] ∧
    files (world r) = files w ∧ dirs (world r) = dirs w ∧
    match files w !! p with
    | Some data =>
        if decide (IOError ∈ take (Sync.md5_calls bs (length data)) (plan w))
        then digest = "ERROR_HASH"
        else digest = hexdigest (update md5 data) ∧
             forallb lower_hex (String.list_ascii_of_string digest) = true ∧
             digest ≠ "ERROR_HASH"
    | None => digest = "ERROR_HASH"
    end.
Proof. apply calculate_md5_run. Qed.

(** *** A missing source *)

(** C7, as amended. When nothing exists at the source path of a task,
    [_process_directory] reports the failure "Source directory not found"
    and returns at once: the files and the directories are as before, no
    system call has been made (the plan of faults is untouched), and the
    log holds the failure event, followed at most by the stop the slot may
    issue. *)
Theorem missing_source_fails_at_once self i src_dir dst_dir mode w :
  os_path_exists w src_dir = false →
  let r := Sync._process_directory self i src_dir dst_dir mode w in
  out r = Ok tt ∧
  files (world r) = files w ∧ dirs (world r) = dirs w ∧
  plan (world r) = plan w ∧
  ∃ l, log r = operation_finished i false
                 ("Source directory not found: " +:+ path_str src_dir) :: l
       ∧ (l = [] ∨ l = stop_events).
Proof.
  intros Hex r. subst r. apply wp_run.
  unfold Sync._process_directory. wp_step. wp_step. unfold id. rewrite Hex. simpl.
  apply wp_emit_operation_finished.
  - intros w' (Hf & Hd & Hp & _) _. eauto 10.
  - intros _ w' (Hf & Hd & Hp & _) _. eauto 10.
Qed.

End sync_facts.

Lemma calculate_md5_digest_or_sentinel_witness :
  0 < Sync.blocksize ∧
  ∃ digest,
    out (Sync._calculate_md5 ["src"; "a.txt"] Sync.blocksize Sample.machine)
      = Ok digest ∧
    digest = "68656c6c6f".
Proof.
  assert (0 < Sync.blocksize) as Hbs by (unfold Sync.blocksize; lia).
  split; [exact Hbs|].
  destruct (calculate_md5_digest_or_sentinel (HL := concat_hashlib)
              ["src"; "a.txt"] Sync.blocksize Sample.machine Hbs)
    as (digest & Hout & _ & _ & _ & Hd).
  exists digest. split; [exact Hout|].
  change (files Sample.machine !! ["src"; "a.txt"])
    with (Some (Sample.text "hello")) in Hd.
  cbv beta iota in Hd. change (plan Sample.machine) with (@nil fault) in Hd.
  rewrite take_nil in Hd.
  rewrite decide_False in Hd by (by intros ?%elem_of_nil).
  by destruct Hd as [-> _].
Defined.


Lemma missing_source_fails_at_once_witness :
  let w := Sample.machine in
  let r := Sync._process_directory [Sample.absent] 0 ["nope"] ["dst"] "copy" w in
  out r = Ok tt ∧
  files (world r) = files w ∧ dirs (world r) = dirs w ∧
  plan (world r) = plan w ∧
  ∃ l, log r = operation_finished 0 false
                 ("Source directory not found: " +:+ path_str ["nope"]) :: l
       ∧ (l = [] ∨ l = stop_events).
Proof.
  apply (missing_source_fails_at_once (HL := concat_hashlib)).
  vm_compute. reflexivity.
Defined.

(** C7 as stated fails: with the regular file /src/a.txt as source there is
    no source directory, yet the task does not fail: it creates the
    destination directory and reports success. *)
Lemma file_as_source_is_no_failure :
  let w := Sample.machine in
  let r := Sync._process_directory (HL := concat_hashlib)
             [Sample.secure_move] 0 ["src"; "a.txt"] ["dst"]
             "verify_and_delete" w in
  is_dir w ["src"; "a.txt"] = false ∧ is_dir w ["dst"] = false ∧
  out r = Ok tt ∧ is_dir (world r) ["dst"] = true ∧
  log r = [Makedirs ["dst"];
           operation_finished 0 true
             "Source directory is empty. Operation successful."].
Proof. by vm_compute. Qed.

(** ** Monitors accept programs *)

Lemma scan_app {S} (step : S → event → option S) s l1 l2 :
  scan step s (l1 ++ l2) = scan step s l1 ≫= λ s1, scan step s1 l2.
Proof.
  revert s. induction l1 as [|e l1 IH]; intros s; [done|].
  simpl. destruct (step s e); [apply IH|done].
Qed.

Section monitor.
Context {S : Type} (step : S → event → option S).

Lemma accepts_mono {A} s (m : M A) (Q Q' : outcome A → S → Prop) :
  accepts step s m Q → (∀ o s', Q o s' → Q' o s') → accepts step s m Q'.
Proof.
  intros H HQ w. eapply wp_mono; [apply H|]. intros o _ l (s' & ? & ?). eauto.
Qed.

Lemma accepts_ret {A} s (a : A) Q : Q (Ok a) s → accepts step s (mret a) Q.
Proof. intros H w. wp_step. eauto. Qed.

Lemma accepts_raise {A} s e (Q : outcome A → S → Prop) :
  Q (Raise e) s → accepts step s (raise e) Q.
Proof. intros H w. wp_step. eauto. Qed.

Lemma accepts_gets {A} s (f : World → A) Q :
  (∀ a, Q (Ok a) s) → accepts step s (gets f) Q.
Proof. intros H w. wp_step. eauto. Qed.

Lemma accepts_modify s f Q : Q (Ok tt) s → accepts step s (modify f) Q.
Proof. intros H w. wp_step. eauto. Qed.

Lemma accepts_emit s e s' Q :
  step s e = Some s' → Q (Ok tt) s' → accepts step s (emit e) Q.
Proof. intros He H w. wp_step. exists s'. simpl. by rewrite He. Qed.

Lemma accepts_next_fault s Q : (∀ f, Q (Ok f) s) → accepts step s next_fault Q.
Proof. intros H w. apply wp_next_fault; eauto. Qed.

Lemma accepts_bind {A B} s (m : M A) (k : A → M B) Q :
  accepts step s m (λ o s1,
    match o with
    | Ok a => accepts step s1 (k a) Q
    | Raise e => Q (Raise e) s1
    | Stuck => Q Stuck s1
    end) →
  accepts step s (m ≫= k) Q.
Proof.
  intros H w. wp_step. eapply wp_mono; [apply H|].
  intros [a|e|] w1 l1 (s1 & Hs1 & Hk); simpl in Hk.
  - eapply wp_mono; [apply Hk|]. intros o w2 l2 (s2 & Hs2 & HQ).
    exists s2. rewrite scan_app, Hs1. done.
  - eauto.
  - eauto.
Qed.

Lemma accepts_try_except {A} s (m : M A) h Q :
  accepts step s m (λ o s1,
    match o with
    | Raise e => accepts step s1 (h e) Q
    | _ => Q o s1
    end) →
  accepts step s (try_except m h) Q.
Proof.
  intros H w. wp_step. eapply wp_mono; [apply H|].
  intros [a|e|] w1 l1 (s1 & Hs1 & Hk); simpl in Hk; eauto.
  eapply wp_mono; [apply Hk|]. intros o w2 l2 (s2 & Hs2 & HQ).
  exists s2. rewrite scan_app, Hs1. done.
Qed.

(** System calls whose event the monitor lets through unchanged. *)
Lemma accepts_os_makedirs s p Q :
  step s (Makedirs p) = Some s →
  Q (Ok tt) s → (∀ e, Q (Raise e) s) → accepts step s (os_makedirs p) Q.
Proof.
  intros Hq Hok Hr. unfold os_makedirs.
  apply accepts_bind, accepts_next_fault. intros f.
  apply accepts_bind, accepts_gets. intros w.
  destruct f; [|by apply accepts_raise|];
    (destruct (find _ _); [by apply accepts_raise|];
     apply accepts_bind, accepts_modify; by eapply accepts_emit).
Qed.

Lemma accepts_shutil_copy2 s src dst Q :
  (∃ s', step s (Copy2 src dst) = Some s' ∧ Q (Ok tt) s') →
  (∀ e, Q (Raise e) s) → accepts step s (shutil_copy2 src dst) Q.
Proof.
  intros (s' & Hs' & Hok) Hr. unfold shutil_copy2.
  apply accepts_bind, accepts_next_fault. intros f.
  apply accepts_bind, accepts_gets. intros w.
  destruct f; [|by apply accepts_raise|];
    (destruct (_ !! _); [|destruct (is_dir _ _); by apply accepts_raise];
     cbv zeta;
     repeat (match goal with
             | |- accepts _ _ (if ?b then _ else _) _ =>
                 destruct b eqn:?; [by apply accepts_raise|]
             end);
     apply accepts_bind, accepts_modify; by eapply accepts_emit).
Qed.

Lemma accepts_os_remove s p Q :
  (∃ s', step s (Remove p) = Some s' ∧ Q (Ok tt) s') →
  (∀ e, Q (Raise e) s) → accepts step s (os_remove p) Q.
Proof.
  intros (s' & Hs' & Hok) Hr. unfold os_remove.
  apply accepts_bind, accepts_next_fault. intros f.
  apply accepts_bind, accepts_gets. intros w.
  destruct f; [|by apply accepts_raise|];
    (destruct (_ !! _); [|destruct (is_dir _ _); by apply accepts_raise];
     apply accepts_bind, accepts_modify; by eapply accepts_emit).
Qed.


Lemma accepts_serve_stop_request s (locked : bool) Q :
  scan step s (if locked then stop_events
               else [FlagWrite Requester false]) = Some s →
  Q (Ok tt) s → accepts step s (serve_stop_request locked) Q.
Proof.
  intros Hs HQ w. unfold serve_stop_request. wp_step. wp_step.
  destruct (stop_after w) as [[|n]|]; [|by repeat wp_step; eauto..].
  unfold requester_stop. destruct locked; repeat wp_step; eauto.
Qed.

Lemma accepts_mutex_lock s s' Q :
  scan step s stop_events = Some s →
  step s (Lock Worker) = Some s' →
  Q (Ok tt) s' → accepts step s mutex_lock Q.
Proof.
  intros Hs Hl HQ. unfold mutex_lock.
  apply accepts_bind, accepts_serve_stop_request; [done|].
  by eapply accepts_emit.
Qed.

Lemma accepts_read_flag s Q :
  (∀ b, step s (FlagRead Worker b) = Some s) →
  (∀ b, Q (Ok b) s) → accepts step s read_flag Q.
Proof.
  intros Hs HQ. unfold read_flag. apply accepts_bind, accepts_gets. intros b.
  apply accepts_bind. eapply accepts_emit; [apply Hs|]. by apply accepts_ret.
Qed.

Section hashlib.
Context `{HL : Hashlib}.

Lemma accepts_emit_operation_finished s self i ok msg Q :
  step s (operation_finished i ok msg) = Some s →
  scan step s stop_events = Some s →
  Q (Ok tt) s → accepts step s (Sync.emit_operation_finished self i ok msg) Q.
Proof.
  intros He Hs HQ w. apply wp_emit_operation_finished.
  - intros w' _ _. exists s. simpl. by rewrite He.
  - intros _ w' _ _. exists s. simpl. by rewrite He.
Qed.

Lemma accepts_calculate_md5 s p Q :
  (∀ d, ∃ s', step s (Md5 p d) = Some s' ∧ Q (Ok d) s') →
  accepts step s (Sync._calculate_md5 p Sync.blocksize) Q.
Proof.
  intros HQ w. apply wp_run.
  destruct (calculate_md5_run p Sync.blocksize w)
    as (d & -> & -> & _); [unfold Sync.blocksize; lia|].
  destruct (HQ d) as (s' & Hs' & ?). exists s'. simpl. by rewrite Hs'.
Qed.

End hashlib.
End monitor.

Ltac acc_step :=
  lazymatch goal with
  | |- accepts _ _ (_ ≫= _) _ => apply accepts_bind
  | |- accepts _ _ (mret _) _ => apply accepts_ret
  | |- accepts _ _ (raise _) _ => apply accepts_raise
  | |- accepts _ _ (emit _) _ => eapply accepts_emit; [reflexivity|]
  | |- accepts _ _ (gets _) _ => apply accepts_gets; intros ?
  | |- accepts _ _ (modify _) _ => apply accepts_modify
  | |- accepts _ _ mutex_lock _ =>
      eapply accepts_mutex_lock; [reflexivity|reflexivity|]
  | |- accepts _ _ mutex_unlock _ => eapply accepts_emit; [reflexivity|]
  | |- accepts _ _ read_flag _ =>
      apply accepts_read_flag; [reflexivity|intros ?]
  | |- accepts _ _ (os_makedirs _) _ =>
      apply accepts_os_makedirs; [reflexivity| |by intros ?]
  | |- accepts _ _ (shutil_copy2 _ _) _ =>
      apply accepts_shutil_copy2;
        [eexists; split; [reflexivity|]|by intros ?]
  | |- accepts _ _ (os_remove _) _ =>
      apply accepts_os_remove;
        [eexists; split; [reflexivity|]|by intros ?]
  | |- accepts _ _ (Sync._calculate_md5 _ _) _ =>
      apply accepts_calculate_md5; intros ?; eexists; split; [reflexivity|]
  | |- accepts _ _ (Sync.emit_operation_finished _ _ _ _) _ =>
      apply accepts_emit_operation_finished; [reflexivity|reflexivity|]
  | |- accepts _ _ (try_except _ _) _ => apply accepts_try_except
  end; cbv beta iota.

(** ** The flag and its mutex *)

Section discipline.
Context `{HL : Hashlib}.

Lemma for_each_file_locks self i src_dir dst_dir mode total all_files :
  ∀ file_idx,
  accepts mutex_step None
    (Sync.for_each_file self i src_dir dst_dir mode total file_idx all_files)
    (λ _ holder, holder = None).
Proof.
  induction all_files as [|f rest IH]; intros file_idx; cbn [Sync.for_each_file].
  { by acc_step. }
  do 4 acc_step. destruct b; cbn [negb]; [|by repeat acc_step].
  do 14 acc_step.
  destruct (negb _); [by repeat acc_step|].
  acc_step. destruct (String.eqb _ _); repeat acc_step; apply IH.
Qed.

Lemma process_directory_locks self i src_dir dst_dir mode :
  accepts mutex_step None
    (Sync._process_directory self i src_dir dst_dir mode)
    (λ _ holder, holder = None).
Proof.
  unfold Sync._process_directory. do 2 acc_step.
  destruct (negb _); [by repeat acc_step|].
  do 4 acc_step. case_bool_decide; [by repeat acc_step|].
  acc_step. eapply accepts_mono; [apply for_each_file_locks|].
  intros [[]| |] holder ->; cbv beta iota; try done; by repeat acc_step.
Qed.

Lemma for_each_task_locks self tasks :
  ∀ i, accepts mutex_step None (Sync.for_each_task self i tasks)
         (λ _ holder, holder = None).
Proof.
  induction tasks as [|t rest IH]; intros i; cbn [Sync.for_each_task].
  { by acc_step. }
  do 4 acc_step. destruct b; cbn [negb]; [|by repeat acc_step].
  do 5 acc_step.
  - acc_step. case_bool_decide.
    + eapply accepts_mono; [apply process_directory_locks|].
      intros [[]|e|] holder ->; cbv beta iota; [apply IH|by repeat acc_step|done].
    + acc_step. apply IH.
Qed.

Lemma run_locks self :
  accepts mutex_step None (Sync.run self) (λ _ holder, holder = None).
Proof.
  unfold Sync.run. acc_step. eapply accepts_mono; [apply for_each_task_locks|].
  intros [[]|e|] holder ->; cbv beta iota; try done. by acc_step.
Qed.

Lemma stop_locks :
  accepts mutex_step None Sync.stop (λ _ holder, holder = None).
Proof. unfold Sync.stop, requester_stop. cbv iota. by repeat acc_step. Qed.

(** C9, as amended. In the batch worker the flag is accessed under the
    mutex only: in every run of [run], and in [stop], each read or write of
    the flag happens while the accessing thread holds the mutex, and the
    mutex is free at the end. *)
Theorem batch_flag_under_mutex self w :
  lock_disciplined (log (Sync.run self w)) ∧
  lock_disciplined (log (Sync.stop w)).
Proof.
  unfold lock_disciplined. split.
  - pose proof (run_locks self w) as H. apply wp_run in H.
    by destruct H as (? & -> & ->).
  - pose proof (stop_locks w) as H. apply wp_run in H.
    by destruct H as (? & -> & ->).
Qed.
End discipline.

(** C9 as stated fails: [FileWorker.stop] writes the flag without holding
    any mutex. *)
Lemma throttle_stop_without_mutex :
  ¬ lock_disciplined (log (Throttle.stop Sample.machine)).
Proof. vm_compute. discriminate. Qed.


(** ** Deletion after verification, batch worker *)

Section guard.
Context `{HL : Hashlib}.

Lemma guard_copy2 v src dst :
  calm v = true → guard_step false v (Copy2 src dst) = Some (Copied src dst).
Proof. simpl. by intros ->. Qed.

Lemma for_each_file_guarded self i src_dir dst_dir mode total all_files :
  ∀ file_idx v, calm v = true →
  accepts (guard_step false) v
    (Sync.for_each_file self i src_dir dst_dir mode total file_idx all_files)
    (λ _ v', calm v' = true).
Proof.
  induction all_files as [|f rest IH]; intros file_idx v Hv;
    cbn [Sync.for_each_file].
  { by acc_step. }
  do 4 acc_step. destruct b; cbn [negb]; [|by repeat acc_step].
  cbv zeta. set (dst := dst_dir ++ relpath f src_dir).
  repeat (lazymatch goal with
          | |- accepts _ _ (shutil_copy2 _ _) _ => fail
          | _ => acc_step
          end).
  apply accepts_shutil_copy2; [|by intros ?].
  exists (Copied f dst). split; [by apply guard_copy2|]. cbv beta iota.
  repeat acc_step. apply accepts_calculate_md5. intros d1.
  exists (SourceHashed f dst d1). split; [simpl; by rewrite decide_True|].
  cbv beta iota. acc_step. apply accepts_calculate_md5. intros d2.
  destruct (String.eqb_spec d1 d2) as [->|Hne]; cbn [negb].
  - exists (Verified f dst). split; [simpl; by rewrite !decide_True|].
    acc_step. destruct (String.eqb _ _).
    + do 2 acc_step. apply accepts_os_remove; [|done].
      exists Unverified. split; [simpl; by rewrite decide_True|].
      cbv beta iota. do 2 acc_step. by apply IH.
    + do 3 acc_step. by apply IH.
  - exists Unverified. split.
    { simpl. rewrite decide_True by done. rewrite decide_False; [done|].
      intros ?. by apply Hne. }
    by repeat acc_step.
Qed.

Lemma process_directory_guarded self i src_dir dst_dir mode v :
  calm v = true →
  accepts (guard_step false) v
    (Sync._process_directory self i src_dir dst_dir mode)
    (λ _ v', calm v' = true).
Proof.
  intros Hv. unfold Sync._process_directory. do 2 acc_step.
  destruct (negb _); [by repeat acc_step|].
  do 4 acc_step. case_bool_decide; [by repeat acc_step|].
  acc_step. eapply accepts_mono; [by apply for_each_file_guarded|].
  intros [[]| |] v' Hv'; cbv beta iota; try done; by repeat acc_step.
Qed.

Lemma for_each_task_guarded self tasks :
  ∀ i v, calm v = true →
  accepts (guard_step false) v (Sync.for_each_task self i tasks)
    (λ _ v', calm v' = true).
Proof.
  induction tasks as [|t rest IH]; intros i v Hv; cbn [Sync.for_each_task].
  { by acc_step. }
  do 4 acc_step. destruct b; cbn [negb]; [|by repeat acc_step].
  do 5 acc_step.
  - acc_step. case_bool_decide.
    + eapply accepts_mono; [by apply process_directory_guarded|].
      intros [[]|e|] v' Hv'; cbv beta iota;
        [by apply IH|repeat acc_step; by apply IH|done].
    + acc_step. by apply IH.
Qed.

Lemma run_guarded self v :
  calm v = true →
  accepts (guard_step false) v (Sync.run self) (λ _ v', calm v' = true).
Proof.
  intros Hv. unfold Sync.run. acc_step.
  eapply accepts_mono; [by apply for_each_task_guarded|].
  intros [[]|e|] v' Hv'; cbv beta iota; try done. by acc_step.
Qed.
End guard.

Section hoare.
Context (L : event → Prop).


Lemma hoare_ret {A} (P : World → Prop) (a : A) Q :
  (∀ w, P w → Q (Ok a) w) → hoare L P (mret a) Q.
Proof. intros H w Hw. wp_step. auto. Qed.

Lemma hoare_raise {A} (P : World → Prop) e (Q : outcome A → World → Prop) :
  (∀ w, P w → Q (Raise e) w) → hoare L P (raise e) Q.
Proof. intros H w Hw. wp_step. auto. Qed.

Lemma hoare_emit (P : World → Prop) e Q :
  L e → (∀ w, P w → Q (Ok tt) w) → hoare L P (emit e) Q.
Proof. intros He H w Hw. wp_step. auto. Qed.

Lemma hoare_bind {A B} (P : World → Prop) (m : M A) (k : A → M B)
    (R : outcome A → World → Prop) Q :
  hoare L P m R →
  (∀ a, hoare L (R (Ok a)) (k a) Q) →
  (∀ e w, R (Raise e) w → Q (Raise e) w) →
  (∀ w, R Stuck w → Q Stuck w) →
  hoare L P (m ≫= k) Q.
Proof.
  intros Hm Hk He Hs w Hw. wp_step. eapply wp_mono; [apply Hm, Hw|].
  intros [a|e|] w1 l1 [Hl1 HR]; cbv beta iota; [|auto..].
  eapply wp_mono; [apply Hk, HR|]. intros o w2 l2 [Hl2 HQ].
  split; [by apply Forall_app|done].
Qed.

Lemma hoare_try_except {A} (P : World → Prop) (m : M A) h
    (R : outcome A → World → Prop) Q :
  hoare L P m R →
  (∀ e, hoare L (R (Raise e)) (h e) Q) →
  (∀ a w, R (Ok a) w → Q (Ok a) w) →
  (∀ w, R Stuck w → Q Stuck w) →
  hoare L P (try_except m h) Q.
Proof.
  intros Hm Hh Ha Hs w Hw. wp_step. eapply wp_mono; [apply Hm, Hw|].
  intros [a|e|] w1 l1 [Hl1 HR]; cbv beta iota; [auto| |auto].
  eapply wp_mono; [apply Hh, HR|]. intros o w2 l2 [Hl2 HQ].
  split; [by apply Forall_app|done].
Qed.

Lemma hoare_try_finally {A} (P : World → Prop) (m : M A) f
    (R : outcome A → World → Prop) Q :
  hoare L P m R →
  (∀ o, hoare L (R o) f (λ _ w, ∀ o', Q o' w)) →
  hoare L P (try_finally m f) Q.
Proof.
  intros Hm Hf w Hw. wp_step. eapply wp_mono; [apply Hm, Hw|].
  intros o w1 l1 [Hl1 HR]. eapply wp_mono; [exact (Hf o w1 HR)|].
  intros o2 w2 l2 [Hl2 HQ].
  destruct o2; (split; [by apply Forall_app|done]).
Qed.


End hoare.

(** ** The throttled worker *)

Import Throttle.


Lemma wp_serve_stop_request (locked : bool) w Φ :
  (stop_after w = None → Φ (Ok tt) w []) →
  (∀ n, stop_after w = Some (S n) → Φ (Ok tt) (set_stop_after (Some n) w) []) →
  (stop_after w = Some 0 →
   Φ (Ok tt) (set_is_running false (set_stop_after None w))
     (if locked then stop_events else [FlagWrite Requester false])) →
  wp (serve_stop_request locked) w Φ.
Proof.
  intros H1 H2 H3. unfold serve_stop_request. wp_step. wp_step.
  destruct (stop_after w) as [[|n]|]; [|by wp_step; auto..].
  unfold requester_stop. destruct locked; repeat wp_step; by apply H3.
Qed.

Lemma wp_poll w Φ :
  (stop_after w = None →
   Φ (Ok (is_running w)) w [FlagRead Worker (is_running w)]) →
  (∀ n, stop_after w = Some (S n) →
   Φ (Ok (is_running w)) (set_stop_after (Some n) w)
     [FlagRead Worker (is_running w)]) →
  (stop_after w = Some 0 →
   Φ (Ok false) (set_is_running false (set_stop_after None w))
     [FlagWrite Requester false; FlagRead Worker false]) →
  wp poll w Φ.
Proof.
  intros H1 H2 H3. unfold poll, read_flag. wp_step.
  apply wp_serve_stop_request; intros; repeat wp_step; auto.
Qed.

Lemma wp_time_time w Φ :
  (ticks w = [] → Φ (Ok (now w)) w [Clock (now w)]) →
  (∀ d ts, ticks w = d :: ts →
   Φ (Ok (now w + d)%Q) (set_clock (now w + d)%Q ts w) [Clock (now w + d)%Q]) →
  wp time_time w Φ.
Proof.
  intros H1 H2. unfold wp, time_time. destruct (ticks w); auto.
Qed.

Lemma wp_time_sleep d w Φ :
  Φ (Ok tt) (set_clock (now w + d)%Q (ticks w) w) [Sleep d] →
  wp (time_sleep d) w Φ.
Proof. done. Qed.

Lemma wp_fsrc_read p pos n w Φ :
  (∀ w', (w' = w ∧ plan w = [] ∨ ∃ f, f ≠ IOError ∧ plan w = f :: plan w' ∧
                                     w' = set_plan (plan w') w) →
         Φ (Ok (take n (drop pos (default [] (files w !! p))))) w' []) →
  (∀ pl, plan w = IOError :: pl → Φ (Raise (OSError p)) (set_plan pl w) []) →
  wp (fsrc_read p pos n) w Φ.
Proof.
  intros H1 H2. unfold fsrc_read. wp_step. apply wp_next_fault.
  - intros Hp. repeat wp_step. apply H1. auto.
  - intros f pl Hp. wp_step. wp_step. unfold id.
    destruct (decide (f = IOError)) as [->|Hf]; [wp_step; by apply H2|].
    rewrite fault_pass by done. wp_step. apply H1. right. exists f. by simpl.
Qed.

Lemma wp_fdst_write p chunk w Φ :
  (∀ w', now w' = now w → ticks w' = ticks w → is_running w' = is_running w →
         stop_after w' = stop_after w → dirs w' = dirs w →
         (plan w = [] → plan w' = []) →
         (∃ stored, files w' = <[p := default [] (files w !! p) ++ stored]> (files w)
                    ∧ (plan w = [] → stored = chunk)) →
         Φ (Ok tt) w' [FileWrite p (length chunk)]) →
  (∀ pl, plan w = IOError :: pl → Φ (Raise (OSError p)) (set_plan pl w) []) →
  wp (fdst_write p chunk) w Φ.
Proof.
  intros H1 H2. unfold fdst_write. wp_step. apply wp_next_fault.
  - intros Hp. repeat wp_step. apply H1; try done. by exists chunk.
  - intros f pl Hp. wp_step. wp_step. unfold id.
    destruct (decide (f = IOError)) as [->|Hf]; [wp_step; by apply H2|].
    rewrite fault_pass by done. repeat wp_step. apply H1; try done.
    + by rewrite Hp.
    + eexists. split; [done|]. by rewrite Hp.
Qed.

Section clock_only.
Context (L : event → Prop).
Context (HL : ∀ e, plain e → L e).
(** An invariant that only looks at the clock survives every call that
    leaves the clock alone. *)
Context (Inv : World → Prop).
Context (HI : ∀ w w', now w' = now w → ticks w' = ticks w → Inv w → Inv w').

Lemma hoare_poll : hoare L Inv poll (λ _ w, Inv w).
Proof.
  intros w Hw.
  apply wp_poll; intros; (split; [by repeat (constructor; [by apply HL|])|by apply (HI w)]).
Qed.

Lemma hoare_fsrc_read p pos n : hoare L Inv (fsrc_read p pos n) (λ _ w, Inv w).
Proof.
  intros w Hw. apply wp_fsrc_read.
  - intros w' [[-> _]|(f & _ & _ & ->)];
      (split; [by repeat (constructor; [by apply HL|])|by apply (HI w)]).
  - intros pl _. split; [by repeat (constructor; [by apply HL|])|by apply (HI w)].
Qed.

Lemma hoare_fdst_write p chunk : hoare L Inv (fdst_write p chunk) (λ _ w, Inv w).
Proof.
  intros w Hw. apply wp_fdst_write.
  - intros w' Hn Hti _ _ _ _ _. split; [by repeat (constructor; [by apply HL|])|by apply (HI w)].
  - intros pl _. split; [by repeat (constructor; [by apply HL|])|by apply (HI w)].
Qed.

Lemma hoare_next_fault : hoare L Inv next_fault (λ _ w, Inv w).
Proof.
  intros w Hw.
  apply wp_next_fault; intros; (split; [constructor|by apply (HI w)]).
Qed.

Lemma hoare_gets {A} (f : World → A) : hoare L Inv (gets f) (λ _ w, Inv w).
Proof. intros w Hw. wp_step. by split; [constructor|]. Qed.

Lemma hoare_modify_files g : hoare L Inv (modify (set_files g)) (λ _ w, Inv w).
Proof. intros w Hw. wp_step. split; [constructor|by apply (HI w)]. Qed.

End clock_only.

Ltac still_step :=
  lazymatch goal with
  | |- hoare _ ?Inv (_ ≫= _) _ =>
      eapply (hoare_bind _ _ _ _ (λ _ w, Inv w)); [|intros ?|done..]
  | |- hoare _ _ next_fault _ => by apply hoare_next_fault
  | |- hoare _ _ (gets _) _ => by apply hoare_gets
  | |- hoare _ _ (modify (set_files _)) _ => by apply hoare_modify_files
  | |- hoare _ _ (raise _) _ => by apply hoare_raise
  | |- hoare _ _ (mret _) _ => by apply hoare_ret
  | |- hoare _ _ (emit _) _ =>
      apply hoare_emit;
        [match goal with H : ∀ e, plain e → _ |- _ => by apply H end|done]
  | |- hoare _ _ (match ?x with _ => _ end) _ => destruct x
  end.

Section clock_only_calls.
Context (L : event → Prop).
Context (HL : ∀ e, plain e → L e).
Context (Inv : World → Prop).
Context (HI : ∀ w w', now w' = now w → ticks w' = ticks w → Inv w → Inv w').

Lemma hoare_os_path_getsize p : hoare L Inv (os_path_getsize p) (λ _ w, Inv w).
Proof. unfold os_path_getsize. repeat still_step. Qed.

Lemma hoare_open_rb p : hoare L Inv (open_rb p) (λ _ w, Inv w).
Proof. unfold open_rb. repeat still_step. Qed.

Lemma hoare_open_wb p : hoare L Inv (open_wb p) (λ _ w, Inv w).
Proof. unfold open_wb. repeat still_step. Qed.

Lemma hoare_os_remove p : hoare L Inv (os_remove p) (λ _ w, Inv w).
Proof. unfold os_remove. repeat still_step. Qed.

End clock_only_calls.


(** ** The rate limiter *)

Section monitor_throttle.
Context {S : Type} (step : S → event → option S).

Lemma accepts_time_time s Q :
  (∀ t, ∃ s', step s (Clock t) = Some s' ∧ Q (Ok t) s') →
  accepts step s time_time Q.
Proof.
  intros H w. apply wp_time_time.
  - intros _. destruct (H (now w)) as (s' & Hs & HQ). exists s'. simpl.
    by rewrite Hs.
  - intros d ts _. destruct (H (now w + d)%Q) as (s' & Hs & HQ). exists s'.
    simpl. by rewrite Hs.
Qed.

Lemma accepts_time_sleep s d s' Q :
  step s (Sleep d) = Some s' → Q (Ok tt) s' → accepts step s (time_sleep d) Q.
Proof. intros Hs HQ w. apply wp_time_sleep. exists s'. simpl. by rewrite Hs. Qed.

Lemma accepts_poll s Q :
  step s (FlagWrite Requester false) = Some s →
  (∀ b, step s (FlagRead Worker b) = Some s) →
  (∀ b, Q (Ok b) s) → accepts step s poll Q.
Proof.
  intros Hw Hr HQ w.
  apply wp_poll; intros; exists s; simpl; by rewrite ?Hw, Hr.
Qed.

Lemma accepts_fsrc_read s p pos n Q :
  (∀ c, Q (Ok c) s) → (∀ e, Q (Raise e) s) →
  accepts step s (fsrc_read p pos n) Q.
Proof.
  intros HQ He w. apply wp_fsrc_read; intros; exists s; by simpl.
Qed.

Lemma accepts_fdst_write s p chunk Q :
  (∃ s', step s (FileWrite p (length chunk)) = Some s' ∧ Q (Ok tt) s') →
  (∀ e, Q (Raise e) s) →
  accepts step s (fdst_write p chunk) Q.
Proof.
  intros (s' & Hs & HQ) He w. apply wp_fdst_write.
  - intros. exists s'. simpl. by rewrite Hs.
  - intros. exists s. by simpl.
Qed.

Lemma accepts_os_path_getsize s p Q :
  (∀ n, Q (Ok n) s) → (∀ e, Q (Raise e) s) →
  accepts step s (os_path_getsize p) Q.
Proof.
  intros HQ He. unfold os_path_getsize.
  apply accepts_bind, accepts_next_fault. intros f.
  apply accepts_bind, accepts_gets. intros w.
  destruct f; [|by apply accepts_raise|];
    (destruct (_ !! _); [by apply accepts_ret|];
     destruct (is_dir _ _); [by apply accepts_ret|by apply accepts_raise]).
Qed.

Lemma accepts_open_rb s p Q :
  (∀ d, Q (Ok d) s) → (∀ e, Q (Raise e) s) → accepts step s (open_rb p) Q.
Proof.
  intros HQ He. unfold open_rb.
  apply accepts_bind, accepts_next_fault. intros f.
  apply accepts_bind, accepts_gets. intros w.
  destruct f; [|by apply accepts_raise|];
    (destruct (_ !! _); [by apply accepts_ret|];
     destruct (is_dir _ _); by apply accepts_raise).
Qed.

Lemma accepts_open_wb s p Q :
  (∃ s', step s (Truncate p) = Some s' ∧ Q (Ok tt) s') →
  (∀ e, Q (Raise e) s) → accepts step s (open_wb p) Q.
Proof.
  intros (s' & Hs & HQ) He. unfold open_wb.
  apply accepts_bind, accepts_next_fault. intros f.
  apply accepts_bind, accepts_gets. intros w.
  destruct f; [|by apply accepts_raise|];
    (destruct (is_dir _ p); [by apply accepts_raise|];
     destruct (negb _); [by apply accepts_raise|];
     apply accepts_bind, accepts_modify; by eapply accepts_emit).
Qed.

End monitor_throttle.

(** The sample of the program is the one specified. *)
Lemma sample_as_specified bytes elapsed :
  Qeq_bool (current_speed_mbps bytes elapsed) (mib_per_second bytes elapsed)
  = true.
Proof.
  apply Qeq_bool_iff. unfold current_speed_mbps, mib_per_second.
  destruct (Qlt_le_dec 0 elapsed); [reflexivity|]. by vm_compute.
Qed.

(** The limit of the program is the one specified. *)
Lemma limit_as_specified mbps : speed_limit_bps mbps = effective_limit mbps.
Proof.
  unfold speed_limit_bps, effective_limit, MAX_SPEED_BPS, MAX_SPEED_MBPS.
  destruct (Z.leb_spec (mbps * 1024 * 1024) 0); case_decide; lia.
Qed.

Lemma Qeq_bool_refl q : Qeq_bool q q = true.
Proof. by apply Qeq_bool_iff. Qed.

Section pacing.
Context (limit : Z) (self : FileWorker) (chunk_size : nat) (file_size : Z).
Abbreviation pstep := (pacing_step limit mib_per_second).

(** The limiter paces every chunk of the loop, and the bytes it has paced
    are the bytes the loop has copied. *)
Lemma copy_loop_paced start fuel :
  ∀ bytes pos,
  accepts pstep (Between start bytes)
    (copy_loop fuel self chunk_size file_size limit start bytes pos)
    (λ o s, match o with Ok n => paced s = Some n | _ => True end).
Proof.
  induction fuel as [|fuel IH]; intros bytes pos; cbn [copy_loop].
  { intros w. wp_step. by eexists. }
  apply accepts_bind, accepts_poll; [done..|]. intros r.
  destruct r; cbn [negb]; [|by apply accepts_ret].
  apply accepts_bind, accepts_time_time. intros cs.
  eexists; split; [reflexivity|]. cbv beta iota.
  apply accepts_bind, accepts_fsrc_read; [|done]. intros chunk.
  case_bool_decide; [by apply accepts_ret|].
  apply accepts_bind, accepts_fdst_write; [|done].
  eexists; split; [reflexivity|]. cbv beta iota zeta.
  apply accepts_bind. case_bool_decide; [by apply accepts_raise|].
  apply accepts_ret. cbv beta iota.
  apply accepts_bind. eapply accepts_emit; [reflexivity|]. cbv beta iota.
  apply accepts_bind, accepts_time_time. intros ce.
  set (target := (inject_Z (Z.of_nat (length chunk)) / inject_Z limit)%Q).
  cbn [pacing_step]. fold target.
  destruct (Qlt_le_dec 0 (target - (ce - cs))) as [Hd|Hd];
    destruct (Qlt_le_dec (ce - cs) target) as [Hd'|Hd']; try lra.
  - eexists; split; [reflexivity|]. cbv beta iota.
    apply accepts_bind. eapply accepts_time_sleep.
    { cbn [pacing_step]. by rewrite Qeq_bool_refl. }
    cbv beta iota. apply accepts_bind, accepts_time_time. intros t.
    eexists; split; [reflexivity|]. cbv beta iota.
    apply accepts_bind. eapply accepts_emit.
    { cbn [pacing_step]. by rewrite sample_as_specified. }
    apply IH.
  - eexists; split; [reflexivity|]. cbv beta iota.
    apply accepts_bind, accepts_ret. cbv beta iota.
    apply accepts_bind, accepts_time_time. intros t.
    eexists; split; [reflexivity|]. cbv beta iota.
    apply accepts_bind. eapply accepts_emit.
    { cbn [pacing_step]. by rewrite sample_as_specified. }
    apply IH.
Qed.
End pacing.

Lemma settled_quiet limit sample s e :
  settled s → plain e →
  (∀ t, e ≠ Clock t) → (∀ d, e ≠ Sleep d) → (∀ p n, e ≠ FileWrite p n) →
  pacing_step limit sample s e = Some s.
Proof.
  intros Hs He Hc Hsl Hw. destruct s; try done; destruct e; try done;
    by first [destruct (Hc t)|destruct (Hsl d)|destruct (Hw p n)].
Qed.

Lemma execute_paced self :
  accepts (pacing_step (speed_limit_bps (speed_limit_mbps self))
             mib_per_second) Idle
    (_execute_file_operation self) settled_if_ok.
Proof.
  set (limit := speed_limit_bps (speed_limit_mbps self)).
  unfold _execute_file_operation. cbv zeta. fold limit.
  apply accepts_bind, accepts_os_path_getsize; [|done]. intros file_size.
  apply accepts_bind, accepts_time_time. intros start.
  eexists; split; [reflexivity|]. cbv beta iota.
  apply accepts_bind, accepts_open_rb; [|done]. intros fsrc.
  apply accepts_bind, accepts_open_wb; [|done].
  eexists; split; [reflexivity|]. cbv beta iota.
  apply accepts_bind. eapply accepts_mono; [apply copy_loop_paced|].
  intros [n|e|] s Hs; [|done..].
  assert (settled s) as Hset by (by destruct s).
  assert (∀ e, plain e → (∀ t, e ≠ Clock t) → (∀ d, e ≠ Sleep d) →
               (∀ p n, e ≠ FileWrite p n) →
               pacing_step limit mib_per_second s e = Some s) as Hq
    by (intros; by apply settled_quiet).
  apply accepts_bind, accepts_poll; [by apply Hq|by intros; apply Hq|].
  intros r.
  destruct (negb r).
  - apply accepts_bind, accepts_os_remove; [|done].
    exists s. split; [by apply Hq|].
    eapply accepts_emit; [by apply Hq|done].
  - destruct (String.eqb _ _); [|by apply accepts_ret].
    apply accepts_bind, accepts_os_remove; [|done].
    exists s. split; [by apply Hq|].
    eapply accepts_emit; [by apply Hq|done].
Qed.

(** ** No digest in the throttled worker *)

Lemma no_digest_plain e : plain e → no_digest e.
Proof. by destruct e. Qed.

Lemma hoare_time_time_any L :
  (∀ t, L (Clock t)) → hoare L any time_time (λ _ _, True).
Proof.
  intros HL w _. apply wp_time_time; intros; by repeat constructor.
Qed.

Lemma hoare_time_sleep_any L d :
  L (Sleep d) → hoare L any (time_sleep d) (λ _ _, True).
Proof. intros HL w _. apply wp_time_sleep. by repeat constructor. Qed.

Ltac nd_step :=
  lazymatch goal with
  | |- hoare _ _ (_ ≫= _) _ =>
      eapply (hoare_bind _ _ _ _ (λ _ _, True)); [|intros ?|done..]
  | |- hoare _ _ poll _ => by apply (hoare_poll _ no_digest_plain any)
  | |- hoare _ _ time_time _ => by apply hoare_time_time_any
  | |- hoare _ _ (time_sleep _) _ => by apply hoare_time_sleep_any
  | |- hoare _ _ (fsrc_read _ _ _) _ => by apply (hoare_fsrc_read _ any)
  | |- hoare _ _ (fdst_write _ _) _ =>
      by apply (hoare_fdst_write _ no_digest_plain any)
  | |- hoare _ _ (os_path_getsize _) _ => by apply (hoare_os_path_getsize _ any)
  | |- hoare _ _ (open_rb _) _ => by apply (hoare_open_rb _ any)
  | |- hoare _ _ (open_wb _) _ =>
      by apply (hoare_open_wb _ no_digest_plain any)
  | |- hoare _ _ (os_remove _) _ =>
      by apply (hoare_os_remove _ no_digest_plain any)
  | |- hoare _ _ (raise _) _ => by apply hoare_raise
  | |- hoare _ _ (mret _) _ => by apply hoare_ret
  | |- hoare _ _ (emit _) _ => by apply hoare_emit
  | |- hoare _ _ (match ?b with _ => _ end) _ => destruct b
  end.

Lemma copy_loop_no_digest self chunk_size file_size limit start fuel :
  ∀ bytes pos,
  hoare no_digest any
    (copy_loop fuel self chunk_size file_size limit start bytes pos)
    (λ _ _, True).
Proof.
  induction fuel as [|fuel IH]; intros bytes pos; cbn [copy_loop].
  { by intros w _. }
  repeat nd_step; apply IH.
Qed.

Lemma run_no_digest self : hoare no_digest any (run self) (λ _ _, True).
Proof.
  unfold run. nd_step; [nd_step|]. nd_step; [by nd_step|].
  eapply hoare_try_finally with (R := λ _ _, True);
    [|by intros ?; apply hoare_emit].
  eapply hoare_try_except with (R := λ _ _, True);
    [|by intros ?; apply hoare_emit|done..].
  nd_step; [nd_step|]. nd_step; [|nd_step].
  unfold _execute_file_operation. cbv zeta.
  do 4 (nd_step; [nd_step|]). nd_step; [apply copy_loop_no_digest|].
  repeat nd_step.
Qed.


(** ** Deletion after verification *)

(** An event is in a log that can be computed. *)
Ltac in_log :=
  apply list_elem_of_In; vm_compute;
  repeat first [left; reflexivity | right].

(** Unless the two digests of some file are both the failure sentinel,
    what the guard accepts it accepts with digests that are digests. *)
Lemma strict_unless_both_fail l : ∀ v v',
  scan (guard_step false) v l = Some v' →
  both_fail (pending v ++ digests l) = false →
  scan (guard_step true) v l = Some v'.
Proof.
  induction l as [|e l IH]; intros v v' Hscan Hfail; [done|].
  simpl in Hscan.
  destruct (guard_step false v e) as [v1|] eqn:Hstep; [|done].
  assert (guard_step true v e = Some v1 ∧
          both_fail (pending v1 ++ digests l) = false) as [Hstrict Hfail'].
  { destruct e;
      try (by injection Hstep as <-; split; [done|exact Hfail]);
      try (destruct v; simpl in Hstep; repeat case_decide; simplify_eq;
           (split; [simpl; by rewrite ?decide_True|exact Hfail])).
    match type of Hstep with
    | guard_step _ _ (Md5 ?p ?g) = _ =>
        change (digests (Md5 p g :: l)) with ((p, g) :: digests l) in Hfail
    end.
    destruct v as [|src dst|src dst d|src dst]; simpl in Hstep; try done.
    - case_decide; [|done]. simplify_eq.
      split; [simpl; by rewrite decide_True|exact Hfail].
    - case_decide; [|done]. simpl in Hfail.
      apply orb_false_iff in Hfail as [Hpair Hfail].
      simpl. rewrite decide_True by done.
      case_decide as Hd; simplify_eq; [|done].
      by case_bool_decide. }
  simpl. rewrite Hstrict. by apply IH.
Qed.

(** C1, as amended. In every run of the batch worker in which no file has
    both its digest computations fail, a file is removed only after it was
    copied and [_calculate_md5], called on it and then on its copy, returned
    two digests, neither the failure sentinel, that are equal. *)
Theorem batch_deletes_after_match `{HL : Hashlib} (self : list task)
    (w : World) :
  both_fail (digests (log (Sync.run self w))) = false →
  deletes_after_match (log (Sync.run self w)).
Proof.
  intros Hfail. pose proof (run_guarded self Unverified eq_refl w) as H.
  apply wp_run in H. destruct H as (v & Hv & _). exists v.
  by apply strict_unless_both_fail.
Qed.

Lemma batch_deletes_after_match_witness :
  let l := log (Sync.run (HL := concat_hashlib) [Sample.secure_move]
                  Sample.machine) in
  both_fail (digests l) = false ∧ deletes_after_match l ∧
  Remove ["src"; "a.txt"] ∈ l ∧ Remove ["src"; "sub"; "b.txt"] ∈ l.
Proof.
  intros l. split; [by vm_compute|]. split.
  - apply (batch_deletes_after_match (HL := concat_hashlib)). by vm_compute.
  - split; in_log.
Defined.

(** C1 as stated fails: the throttled worker in move mode removes
    /src/a.txt although no digest was computed. *)
Lemma move_deletes_without_digest :
  ¬ deletes_after_match (log (run Sample.move_a Sample.machine)) ∧
  Remove ["src"; "a.txt"] ∈ log (run Sample.move_a Sample.machine) ∧
  digests (log (run Sample.move_a Sample.machine)) = [].
Proof.
  split_and!.
  - unfold deletes_after_match. vm_compute. by intros [? ?].
  - vm_compute. repeat constructor.
  - by vm_compute.
Qed.

(** ** A digest mismatch *)

Lemma wp_any {A} (m : M A) w : wp m w (λ _ _ _, True).
Proof. unfold wp. by destruct (m w). Qed.

Lemma digests_app l1 l2 : digests (l1 ++ l2) = digests l1 ++ digests l2.
Proof. apply omap_app. Qed.

Lemma wp_keeps_files {A} (m : M A) w Φ :
  keeps_files m →
  (∀ o w' l, files w' = files w → digests l = [] → Φ o w' l) →
  wp m w Φ.
Proof.
  intros Hm HΦ. eapply wp_mono; [apply Hm|]. intros o w' l [? ?]. auto.
Qed.

Lemma keeps_files_mutex_lock : keeps_files mutex_lock.
Proof.
  intros w. unfold mutex_lock. wp_step.
  apply wp_serve_stop_request; intros; by wp_step.
Qed.

Lemma keeps_files_read_flag : keeps_files read_flag.
Proof. intros w. unfold read_flag. by repeat wp_step. Qed.

Lemma keeps_files_os_makedirs p : keeps_files (os_makedirs p).
Proof.
  intros w. unfold os_makedirs. wp_step.
  apply wp_next_fault; intros; repeat wp_step; unfold id;
    repeat case_match; by repeat wp_step.
Qed.

Lemma wp_shutil_copy2 src dst w Φ :
  (∀ w' target stored,
     files w' = <[target := stored]> (files w) →
     target = dst ∨ target = dst ++ [basename src] →
     Φ (Ok tt) w' [Copy2 src dst]) →
  (∀ e w', files w' = files w → Φ (Raise e) w' []) →
  wp (shutil_copy2 src dst) w Φ.
Proof.
  intros Hok Hr.
  assert (∀ f w1, files w1 = files w → f ≠ IOError →
            wp (match files w1 !! src with
                | Some data =>
                    let target :=
                      if is_dir w1 dst then dst ++ [basename src] else dst in
                    if bool_decide (target = src)
                    then raise (SameFileError src target)
                    else if is_dir w1 target
                    then raise (IsADirectoryError target)
                    else if negb (is_dir w1 (dirname target))
                    then raise (FileNotFoundError target)
                    else
                      let stored :=
                        match f with Garble junk => junk | _ => data end in
                      modify (set_files (<[target := stored]> (files w1)));;
                      emit (Copy2 src dst)
                | None =>
                    if is_dir w1 src then raise (IsADirectoryError src)
                    else raise (FileNotFoundError src)
                end) w1 Φ) as Hbody.
  { intros f w1 Hw1 Hf.
    destruct (files w1 !! src) as [data|];
      [|destruct (is_dir w1 src); wp_step; by apply Hr].
    cbv zeta.
    repeat (match goal with
            | |- wp (if ?b then _ else _) _ _ =>
                destruct b eqn:?; [wp_step; by apply Hr|]
            end).
    repeat wp_step. eapply Hok; [simpl; by rewrite Hw1|].
    destruct (is_dir w1 dst); auto. }
  unfold shutil_copy2. wp_step. apply wp_next_fault.
  - intros _. wp_step. wp_step. unfold id.
    exact (Hbody Pass w eq_refl ltac:(done)).
  - intros f p _. wp_step. wp_step. unfold id.
    destruct (decide (f = IOError)) as [->|Hf]; [wp_step; by apply Hr|].
    rewrite fault_pass by done. exact (Hbody f (set_plan p w) eq_refl Hf).
Qed.

Section mismatch.
Context `{HL : Hashlib}.

Lemma wp_calculate_md5 p w Φ :
  (∀ d w', files w' = files w → Φ (Ok d) w' [Md5 p d]) →
  wp (Sync._calculate_md5 p Sync.blocksize) w Φ.
Proof.
  intros H. apply wp_run.
  destruct (calculate_md5_run p Sync.blocksize w)
    as (d & -> & -> & Hf & _); [unfold Sync.blocksize; lia|].
  by apply H.
Qed.

(** C10. When the verification of a file finds two different digests, the
    worker emits the failure event naming the file and returns: nothing is
    logged after the failure event but the stop the slot may issue, and the
    files at the end are the files at the start with the one file written
    by the copy; the destination is neither removed nor written again. *)
Theorem mismatch_leaves_destination self i src_dir dst_dir mode total k
    f rest w h1 h2 :
  let r := Sync.for_each_file self i src_dir dst_dir mode total k (f :: rest) w in
  let dst := dst_dir ++ relpath f src_dir in
  take 2 (digests (log r)) = [(f, h1); (dst, h2)] →
  h1 ≠ h2 →
  out r = Ok Sync.Return ∧
  (∃ pre post,
     log r = pre ++ [Md5 f h1; Md5 dst h2;
                     operation_finished i false (Sync.mismatch_message f)] ++ post
     ∧ digests pre = [] ∧ (post = [] ∨ post = stop_events)) ∧
  (∃ target stored,
     files (world r) = <[target := stored]> (files w)
     ∧ (target = dst ∨ target = dst ++ [basename f])).
Proof.
  intros r dst. subst r. apply wp_run. cbn [Sync.for_each_file]. fold dst.
  wp_step. apply wp_keeps_files; [apply keeps_files_mutex_lock|].
  intros [[]| |] w1 l1 Hf1 Hd1; [|by rewrite Hd1..].
  wp_step. apply wp_keeps_files; [apply keeps_files_read_flag|].
  intros [running| |] w2 l2 Hf2 Hd2;
    [|by rewrite digests_app, Hd1, Hd2..].
  destruct running; cbn [negb].
  2:{ unfold mutex_unlock. repeat wp_step. by rewrite !digests_app, Hd1, Hd2. }
  wp_step. unfold mutex_unlock. wp_step.
  wp_step. apply wp_keeps_files; [apply keeps_files_os_makedirs|].
  intros [[]| |] w3 l3 Hf3 Hd3;
    [|by rewrite !digests_app, Hd1, Hd2, Hd3..].
  wp_step. wp_step. wp_step. apply wp_shutil_copy2.
  2:{ intros e w4 Hf4. by rewrite !digests_app, Hd1, Hd2, Hd3. }
  intros w4 target stored Hf4 Htarget.
  wp_step. wp_step. wp_step. apply wp_calculate_md5. intros d1 w5 Hf5.
  wp_step. apply wp_calculate_md5. intros d2 w6 Hf6.
  assert (∀ l, take 2 (digests
              (l1 ++ l2 ++ [Unlock Worker] ++ l3 ++
               [operation_progress i (basename f) "Copying..."] ++
               [Copy2 f dst] ++
               [operation_progress i (basename f) "Verifying MD5..."] ++
               [Md5 f d1] ++ [Md5 dst d2] ++ l)) = [(f, d1); (dst, d2)])
    as Htake.
  { intros l. by rewrite !digests_app, Hd1, Hd2, Hd3. }
  destruct (String.eqb_spec d1 d2) as [->|Hne]; cbn [negb].
  { eapply wp_mono; [apply wp_any|]. intros o w7 l7 _.
    rewrite Htake. by intros [= -> ->]. }
  wp_step. apply wp_emit_operation_finished.
  - intros w7 (Hf7 & _) _. wp_step. rewrite Htake.
    intros [= -> ->] _. split; [done|]. split.
    + exists (l1 ++ l2 ++ [Unlock Worker] ++ l3 ++
                 [operation_progress i (basename f) "Copying...";
                  Copy2 f dst;
                  operation_progress i (basename f) "Verifying MD5..."]), [].
      split; [by rewrite <- !app_assoc|].
      split; [|by left].
      by rewrite !digests_app, Hd1, Hd2, Hd3.
    + exists target, stored. split; [|done]. congruence.
  - intros _ w7 (Hf7 & _) _. wp_step. rewrite Htake.
    intros [= -> ->] _. split; [done|]. split.
    + exists (l1 ++ l2 ++ [Unlock Worker] ++ l3 ++
                 [operation_progress i (basename f) "Copying...";
                  Copy2 f dst;
                  operation_progress i (basename f) "Verifying MD5..."]), stop_events.
      split; [by rewrite <- !app_assoc|].
      split; [|by right].
      by rewrite !digests_app, Hd1, Hd2, Hd3.
    + exists target, stored. split; [|done]. congruence.
Qed.
End mismatch.

Lemma mismatch_leaves_destination_witness :
  let w := Sample.garbled_copy in
  let f := ["src"; "a.txt"] in
  let r := Sync.for_each_file [Sample.secure_move] 0 ["src"] ["dst"]
             "verify_and_delete" 1 0 [f] w in
  let dst := ["dst"] ++ relpath f ["src"] in
  (take 2 (digests (log r)) = [(f, "68656c6c6f"); (dst, "6a756e6b")] ∧
   "68656c6c6f" ≠ "6a756e6b") ∧
  out r = Ok Sync.Return ∧
  (∃ pre post,
     log r = pre ++ [Md5 f "68656c6c6f"; Md5 dst "6a756e6b";
                     operation_finished 0 false (Sync.mismatch_message f)]
                 ++ post
     ∧ digests pre = [] ∧ (post = [] ∨ post = stop_events)) ∧
  (∃ target stored,
     files (world r) = <[target := stored]> (files w)
     ∧ (target = dst ∨ target = dst ++ [basename f])).
Proof.
  intros w f r dst.
  assert (take 2 (digests (log r)) = [(f, "68656c6c6f"); (dst, "6a756e6b")])
    as Hd by (by vm_compute).
  assert ("68656c6c6f" ≠ "6a756e6b") as Hne by done.
  split; [by split|].
  exact (mismatch_leaves_destination (HL := concat_hashlib)
           [Sample.secure_move] 0 ["src"] ["dst"] "verify_and_delete" 1 0
           f [] w "68656c6c6f" "6a756e6b" Hd Hne).
Defined.

(** ** Cancellation *)

Section disk_only.
(** An invariant that only looks at the files and at the plan of faults
    survives the flag being polled and the clock being read. *)
Context (Inv : World → Prop).
Context (HI : ∀ w w', files w' = files w → plan w' = plan w →
                     dirs w' = dirs w → Inv w → Inv w').





End disk_only.


Lemma wp_os_path_getsize_ok p data w Φ :
  plan w = [] → files w !! p = Some data →
  Φ (Ok (Z.of_nat (length data))) w [] → wp (os_path_getsize p) w Φ.
Proof.
  intros Hp Hf H. unfold os_path_getsize. wp_step.
  apply wp_next_fault; [|by rewrite Hp]. intros _.
  wp_step. wp_step. unfold id. rewrite Hf. by wp_step.
Qed.

Lemma wp_open_rb_ok p data w Φ :
  plan w = [] → files w !! p = Some data →
  Φ (Ok data) w [] → wp (open_rb p) w Φ.
Proof.
  intros Hp Hf H. unfold open_rb. wp_step.
  apply wp_next_fault; [|by rewrite Hp]. intros _.
  wp_step. wp_step. unfold id. rewrite Hf. by wp_step.
Qed.

Lemma wp_open_wb_ok p w Φ :
  plan w = [] → is_dir w p = false → is_dir w (dirname p) = true →
  Φ (Ok tt) (set_files (<[p := []]> (files w)) w) [Truncate p] →
  wp (open_wb p) w Φ.
Proof.
  intros Hp Hd Hparent H. unfold open_wb. wp_step.
  apply wp_next_fault; [|by rewrite Hp]. intros _.
  wp_step. wp_step. unfold id. rewrite Hd, Hparent. cbn [negb].
  by repeat wp_step.
Qed.

Lemma wp_os_remove_ok p w Φ :
  plan w = [] → is_Some (files w !! p) →
  Φ (Ok tt) (set_files (delete p (files w)) w) [Remove p] →
  wp (os_remove p) w Φ.
Proof.
  intros Hp [data Hf] H. unfold os_remove. wp_step.
  apply wp_next_fault; [|by rewrite Hp]. intros _.
  wp_step. wp_step. unfold id. rewrite Hf. by repeat wp_step.
Qed.

Section cancel.
Context (self : FileWorker) (data : bytes).
Abbreviation src := (src_path self).
Abbreviation dst := (dest_path self).



Lemma CHUNK_SIZE_pos : 0 < CHUNK_SIZE.
Proof. unfold CHUNK_SIZE. lia. Qed.

End cancel.

Section cancel_batch.
Context `{HL : Hashlib}.

(** The poll before a file that reads [False]: the loop returns. *)
Lemma cancelled_between_files self i src_dir dst_dir mode total k f rest w :
  stop_after w = Some 0 ∨ is_running w = false →
  let r := Sync.for_each_file self i src_dir dst_dir mode total k (f :: rest) w in
  out r = Ok Sync.Return ∧
  files (world r) = files w ∧ dirs (world r) = dirs w ∧
  plan (world r) = plan w ∧
  (log r = [Lock Worker; FlagRead Worker false; Unlock Worker] ∨
   log r = stop_events ++ [Lock Worker; FlagRead Worker false; Unlock Worker]).
Proof.
  intros Hstop r. subst r. apply wp_run. cbn [Sync.for_each_file].
  wp_step. unfold mutex_lock. wp_step.
  apply wp_serve_stop_request.
  - intros Hnone. destruct Hstop as [Hs|Hrun]; [by rewrite Hs in Hnone|].
    wp_step. wp_step. unfold read_flag. repeat wp_step. rewrite Hrun.
    cbn [negb]. unfold mutex_unlock. repeat wp_step.
    split_and!; [done..|by left].
  - intros n Hn. destruct Hstop as [Hs|Hrun]; [by rewrite Hs in Hn|].
    wp_step. wp_step. unfold read_flag. repeat wp_step.
    change (is_running (set_stop_after (Some n) w)) with (is_running w).
    rewrite Hrun. cbn [negb]. unfold mutex_unlock. repeat wp_step.
    split_and!; [done..|by left].
  - intros _. wp_step. wp_step. unfold read_flag. repeat wp_step.
    change (is_running (set_is_running false (set_stop_after None w)))
      with false.
    cbn [negb]. unfold mutex_unlock. repeat wp_step.
    split_and!; [done..|by right].
Qed.

End cancel_batch.


(** ** Two defects of the batch worker *)

(** C2. The code at the failing input: after the copy of /src/a.txt both
    digest computations fail; the two sentinels compare equal, the source is
    removed and the task is reported successful. *)
Lemma sentinels_compare_equal :
  let r := Sync.run [Sample.secure_move] Sample.unreadable_after_copy in
  digests (log r) = [(["src"; "a.txt"], "ERROR_HASH");
                     (["dst"; "a.txt"], "ERROR_HASH")] ∧
  Remove ["src"; "a.txt"] ∈ log r ∧
  files (world r) !! ["src"; "a.txt"] = None ∧
  operation_finished 0 true "Operation **verify_and_delete** successful."
    ∈ log r.
Proof. vm_compute. split_and!; [done| |done|]; repeat constructor. Qed.

(** C6. The code at the failing input: the first task fails for a missing
    source, the confirmation dialog of the slot is not answered by Yes, and
    the worker goes on with the second task, which copies, verifies and
    removes /src/a.txt and is reported successful. *)
Lemma queue_continues_after_failure :
  let r := Sync.run [Sample.absent; Sample.secure_move] Sample.one_file in
  log r !! 4 = Some (operation_finished 0 false
                       "Source directory not found: /nope") ∧
  log r !! 15 = Some (Copy2 ["src"; "a.txt"] ["dst"; "a.txt"]) ∧
  log r !! 20 = Some (Remove ["src"; "a.txt"]) ∧
  log r !! 22 = Some (operation_finished 1 true
                        "Operation **verify_and_delete** successful.") ∧
  files (world r) !! ["src"; "a.txt"] = None.
Proof. by vm_compute. Qed.

(** * Further properties of the workers *)

(** ** The throttled worker, undisturbed *)

Lemma wp_time_time_frame w Φ :
  (∀ t w', only_clock w w' → Φ (Ok t) w' [Clock t]) → wp time_time w Φ.
Proof. intros H. apply wp_time_time; intros; by apply H. Qed.

Lemma wp_time_sleep_frame d w Φ :
  (∀ w', only_clock w w' → Φ (Ok tt) w' [Sleep d]) → wp (time_sleep d) w Φ.
Proof. intros H. apply wp_time_sleep. by apply H. Qed.

Lemma int_full n : (0 < n)%Z → int (inject_Z n / inject_Z n * 100) = 100%Z.
Proof.
  intros Hn.
  assert (0 < inject_Z n)%Q as Hq
    by (change (inject_Z 0 < inject_Z n)%Q; by rewrite <- Zlt_Qlt).
  assert (inject_Z n / inject_Z n * 100 == 100)%Q as Heq by (field; lra).
  unfold int. destruct (Qlt_le_dec _ 0) as [Hlt|_]; [lra|].
  by rewrite Heq.
Qed.

Lemma take_chunk {A} (l : list A) pos cs :
  pos ≤ length l →
  take pos l ++ take cs (drop pos l)
  = take (pos + length (take cs (drop pos l))) l.
Proof.
  intros Hpos. set (k := drop pos l).
  trans (take (pos + length (take cs k)) (take pos l ++ k));
    [|unfold k; by rewrite take_drop].
  rewrite take_app_add' by (rewrite length_take; lia). f_equal.
  rewrite length_take. destruct (decide (cs ≤ length k)).
  - by rewrite Nat.min_l.
  - rewrite Nat.min_r by lia. rewrite !take_ge; [done|lia..].
Qed.

Section exact.
Context (self : FileWorker) (data : bytes) (files0 : gmap path bytes).
Context (Hne : src_path self ≠ dest_path self).
Context (Hsrc : files0 !! src_path self = Some data).

Lemma midcopy_only_clock pos w w' :
  only_clock w w' → midcopy self data files0 pos w →
  midcopy self data files0 pos w'.
Proof. unfold midcopy. by intros (-> & _ & -> & -> & -> & _). Qed.

Lemma copy_loop_exact cs limit start : 0 < cs → ∀ fuel pos w,
  pos ≤ length data → length data - pos < fuel →
  midcopy self data files0 pos w →
  wp (copy_loop fuel self cs (Z.of_nat (length data)) limit start
        (Z.of_nat pos) pos) w
    (λ o w' l, o = Ok (Z.of_nat (length data)) ∧
       midcopy self data files0 (length data) w' ∧ dirs w' = dirs w ∧
       (pos < length data → progress_update 100 ∈ l) ∧
       (pos = length data → Forall silent l)).
Proof.
  intros Hcs.
  induction fuel as [|fuel IH]; intros pos w Hpos Hfuel Hmid; [lia|].
  cbn [copy_loop]. pose proof Hmid as (Hp & Hrun & Hstop & Hf).
  wp_step. apply wp_poll; [|congruence..]. intros _. rewrite Hrun. cbn [negb].
  wp_step. apply wp_time_time_frame. intros cst w1 Hw1.
  pose proof (midcopy_only_clock _ _ _ Hw1 Hmid) as Hmid1.
  pose proof Hmid1 as (Hp1 & Hrun1 & Hstop1 & Hf1).
  wp_step. apply wp_fsrc_read; [|intros pl Hpl; congruence].
  intros w2 [[-> _]|(f & _ & Hpl & _)]; [|congruence].
  rewrite Hf1, lookup_insert_ne, Hsrc by done.
  change (default [] (Some data)) with data.
  set (chunk := take cs (drop pos data)).
  assert (length chunk = cs `min` (length data - pos)) as Hlen
    by (unfold chunk; by rewrite length_take, length_drop).
  case_bool_decide as Hchunk.
  { wp_step. assert (pos = length data) as ->.
    { assert (length chunk = 0) as H0 by (by rewrite Hchunk). lia. }
    split; [done|]. split; [done|]. split; [by destruct Hw1 as (_ & -> & _)|].
    split; [lia|]. intros _. by repeat constructor. }
  assert (0 < length chunk) as Hpos' by (destruct chunk; [done|simpl; lia]).
  wp_step. apply wp_fdst_write; [|intros pl Hpl; congruence].
  intros w3 _ _ Hrun3 Hstop3 Hdirs3 Hp3 (stored & Hf3 & Hstored).
  rewrite (Hstored Hp1) in Hf3. clear stored Hstored.
  rewrite Hf1, lookup_insert_eq, insert_insert_eq in Hf3.
  change (default [] (Some (take pos data))) with (take pos data) in Hf3.
  assert (take pos data ++ chunk = take (pos + length chunk) data) as Happ
    by (by apply take_chunk).
  rewrite Happ in Hf3.
  assert (midcopy self data files0 (pos + length chunk) w3) as Hmid3.
  { split_and!; [by apply Hp3|congruence|congruence|done]. }
  cbv zeta. wp_step. rewrite bool_decide_eq_false_2 by lia. wp_step.
  wp_step. wp_step.
  wp_step. apply wp_time_time_frame. intros cet w4 Hw4.
  pose proof (midcopy_only_clock _ _ _ Hw4 Hmid3) as Hmid4.
  wp_step.
  assert (∀ Ψ, (∀ l5 w5, only_clock w4 w5 → Forall silent l5 → Ψ (Ok tt) w5 l5) →
    wp (if Qlt_le_dec 0
             (inject_Z (Z.of_nat (length chunk)) / inject_Z limit - (cet - cst))
        then time_sleep
               (inject_Z (Z.of_nat (length chunk)) / inject_Z limit - (cet - cst))
        else mret tt) w4 Ψ) as Hsleep.
  { intros Ψ HΨ. destruct (Qlt_le_dec _ _).
    - apply wp_time_sleep_frame. intros w5 Hw5. apply HΨ; [done|].
      by repeat constructor.
    - wp_step. apply HΨ; [done|constructor]. }
  apply Hsleep. intros l5 w5 Hw5 Hl5.
  pose proof (midcopy_only_clock _ _ _ Hw5 Hmid4) as Hmid5.
  wp_step. apply wp_time_time_frame. intros t w6 Hw6.
  pose proof (midcopy_only_clock _ _ _ Hw6 Hmid5) as Hmid6.
  wp_step. wp_step.
  rewrite <- Nat2Z.inj_add.
  eapply wp_mono; [apply (IH (pos + length chunk) w6); [lia|lia|done]|].
  intros o w7 l7 (-> & Hmid7 & Hd7 & Hin7 & _).
  split; [done|]. split; [done|]. split.
  { rewrite Hd7. destruct Hw6 as (_ & -> & _). destruct Hw5 as (_ & -> & _).
    destruct Hw4 as (_ & -> & _). rewrite Hdirs3.
    by destruct Hw1 as (_ & -> & _). }
  split; [|lia]. intros _.
  destruct (decide (pos + length chunk = length data)) as [Hend|Hmore].
  - rewrite Hend, int_full by lia.
    rewrite !elem_of_app, !elem_of_cons. auto 10.
  - rewrite !elem_of_app. repeat right. apply Hin7. lia.
Qed.

End exact.

(** What an undisturbed run of the throttled worker does, in full. *)
Lemma run_undisturbed self data w :
  plan w = [] → is_running w = true → stop_after w = None →
  files w !! src_path self = Some data →
  src_path self ≠ dest_path self →
  is_dir w (dest_path self) = false →
  is_dir w (dirname (dest_path self)) = true →
  let r := run self w in
  out r = Ok tt ∧
  files (world r)
    = (if String.eqb (operation self) "move" then delete (src_path self)
       else id) (<[dest_path self := data]> (files w)) ∧
  dirs (world r) = dirs w ∧
  (data ≠ [] → progress_update 100 ∈ log r) ∧
  (data = [] → Forall silent (log r)) ∧
  ∃ pre, log r = pre ++ [status_message
                           ("Operation complete: "
                            +:+ capitalize (operation self) +:+ " successful.");
                         finished].
Proof.
  intros Hp Hrun Hstop Hsrc Hne Hdst Hparent r. subst r. apply wp_run.
  unfold run. wp_step. apply wp_poll; [|congruence..]. intros _.
  rewrite Hrun. cbn [negb].
  wp_step. wp_step. wp_step. wp_step. wp_step.
  unfold _execute_file_operation. cbv zeta.
  wp_step. apply (wp_os_path_getsize_ok _ data); [done..|].
  wp_step. apply wp_time_time_frame.
  intros start w1 (Hf1 & Hd1 & Hp1 & Hrun1 & Hstop1 & _).
  wp_step. apply (wp_open_rb_ok _ data); [congruence..|].
  wp_step. apply wp_open_wb_ok;
    [congruence|unfold is_dir in *; by rewrite Hd1..|].
  wp_step. eapply wp_mono.
  { apply (copy_loop_exact self data (files w) Hne Hsrc CHUNK_SIZE _ start
             CHUNK_SIZE_pos (S (length data)) 0); [lia|lia|].
    split_and!; simpl; [congruence..|]. by rewrite take_0, Hf1. }
  intros o w2 l2 (-> & (Hp2 & Hrun2 & Hstop2 & Hf2) & Hd2 & Hin2 & Hsil2).
  rewrite firstn_all in Hf2.
  wp_step. apply wp_poll; [|congruence..]. intros _. rewrite Hrun2. cbn [negb].
  assert (data ≠ [] → 0 < length data) as Hlen
    by (destruct data; [done|simpl; lia]).
  destruct (String.eqb (operation self) "move") eqn:Hop.
  - wp_step. apply wp_os_remove_ok; [done| |].
    { rewrite Hf2, lookup_insert_ne by done. by rewrite Hsrc. }
    repeat wp_step.
    split; [done|]. split; [simpl; by rewrite Hf2|].
    split; [simpl; rewrite Hd2; exact Hd1|].
    split; [|split].
    + intros Hdata. specialize (Hin2 (Hlen Hdata)).
      rewrite !elem_of_app. tauto.
    + intros ->. rewrite !Forall_app. split_and!; try by repeat constructor.
      by apply Hsil2.
    + eexists ([FlagRead Worker true;
                status_message ("Starting " +:+ operation self +:+ " operation...");
                Clock start; Truncate (dest_path self)] ++ l2 ++
               [FlagRead Worker true; Remove (src_path self);
                status_message "Source file deleted (Move operation complete)."]).
      by rewrite <- !app_assoc.
  - repeat wp_step.
    split; [done|]. split; [simpl; by rewrite Hf2|].
    split; [simpl; rewrite Hd2; exact Hd1|].
    split; [|split].
    + intros Hdata. specialize (Hin2 (Hlen Hdata)).
      rewrite !elem_of_app. tauto.
    + intros ->. rewrite !Forall_app. split_and!; try by repeat constructor.
      by apply Hsil2.
    + eexists ([FlagRead Worker true;
                status_message ("Starting " +:+ operation self +:+ " operation...");
                Clock start; Truncate (dest_path self)] ++ l2 ++
               [FlagRead Worker true]).
      by rewrite <- !app_assoc.
Qed.

(** ** The rate limiter on a whole file *)

Lemma wp_conj {A} (m : M A) w
    (Φ Ψ : outcome A → World → list event → Prop) :
  wp m w Φ → wp m w Ψ → wp m w (λ o w' l, Φ o w' l ∧ Ψ o w' l).
Proof. unfold wp. by destruct (m w). Qed.

(** Without fault or stop request the whole file goes through the limiter:
    the copy ends normally, the destination holds the content of the source,
    and the limiter has paced as many bytes as the file has. *)
Lemma execute_paces_whole_file self data w :
  undisturbed w →
  files w !! src_path self = Some data →
  src_path self ≠ dest_path self →
  is_dir w (dest_path self) = false →
  is_dir w (dirname (dest_path self)) = true →
  wp (_execute_file_operation self) w
    (λ o w' l, o = Ok tt ∧ files w' !! dest_path self = Some data ∧
       ∃ s, scan (pacing_step (speed_limit_bps (speed_limit_mbps self))
                    mib_per_second) Idle l = Some s ∧
            paced s = Some (Z.of_nat (length data))).
Proof.
  intros (Hp & Hrun & Hstop) Hsrc Hne Hdst Hparent.
  unfold _execute_file_operation. cbv zeta.
  set (limit := speed_limit_bps (speed_limit_mbps self)).
  wp_step. apply (wp_os_path_getsize_ok _ data); [done..|].
  wp_step. apply wp_time_time_frame.
  intros start w1 (Hf1 & Hd1 & Hp1 & Hrun1 & Hstop1 & _).
  wp_step. apply (wp_open_rb_ok _ data); [congruence..|].
  wp_step. apply wp_open_wb_ok;
    [congruence|unfold is_dir in *; by rewrite Hd1..|].
  wp_step. eapply wp_mono.
  { apply wp_conj.
    - apply (copy_loop_exact self data (files w) Hne Hsrc CHUNK_SIZE limit
               start CHUNK_SIZE_pos (S (length data)) 0); [lia|lia|].
      split_and!; simpl; [congruence..|]. by rewrite take_0, Hf1.
    - apply (copy_loop_paced limit self CHUNK_SIZE (Z.of_nat (length data))
               start (S (length data)) 0%Z 0). }
  intros o w2 l2 [(-> & (Hp2 & Hrun2 & Hstop2 & Hf2) & _) (s & Hs & Hpaced)].
  rewrite firstn_all in Hf2.
  assert (∀ l, Forall (λ e, match e with
                            | Clock _ | Sleep _ | FileWrite _ _
                            | speed_update _ => False
                            | _ => True
                            end) l →
               scan (pacing_step limit mib_per_second) s l = Some s) as Hquiet.
  { intros l Hl. induction Hl as [|e l He _ IH]; [done|]. simpl.
    replace (pacing_step limit mib_per_second s e) with (Some s); [done|].
    destruct s; try done; by destruct e. }
  wp_step. apply wp_poll; [|congruence..]. intros _. rewrite Hrun2. cbn [negb].
  destruct (String.eqb (operation self) "move") eqn:Hop.
  - wp_step. apply wp_os_remove_ok; [done| |].
    { rewrite Hf2, lookup_insert_ne by done. by rewrite Hsrc. }
    wp_step. split; [done|]. split.
    { simpl. rewrite Hf2, lookup_delete_ne by done.
      by rewrite lookup_insert_eq. }
    exists s. split; [|done].
    simpl. rewrite scan_app, Hs. apply Hquiet. by repeat constructor.
  - wp_step. split; [done|]. split.
    { by rewrite Hf2, lookup_insert_eq. }
    exists s. split; [|done].
    simpl. rewrite scan_app, Hs. apply Hquiet. by repeat constructor.
Qed.

(** C5, as amended. In every run of [_execute_file_operation], whatever the
    faults and the stop requests, for every chunk written: with [actual] the
    time between the readings of the clock around the read and the write,
    and [target] the size of the chunk over the effective limit, the limiter
    sleeps [target - actual] when [target > actual] and does not sleep
    otherwise; it then reads the clock and emits the sample: the bytes
    written since the start over the time since the start, divided by
    1024 * 1024, and 0 when that time is not positive. A run that returns
    normally leaves no chunk half way; and a run without fault or stop
    request returns normally, with every byte of the file written in such a
    chunk. *)
Theorem limiter_paces_every_chunk self w :
  let limit := effective_limit (speed_limit_mbps self) in
  let r := _execute_file_operation self w in
  (∃ s, scan (pacing_step limit mib_per_second) Idle (log r) = Some s ∧
        (out r = Ok tt → settled s)) ∧
  ∀ data,
    undisturbed w → files w !! src_path self = Some data →
    src_path self ≠ dest_path self →
    is_dir w (dest_path self) = false →
    is_dir w (dirname (dest_path self)) = true →
    out r = Ok tt ∧ files (world r) !! dest_path self = Some data ∧
    ∃ s, scan (pacing_step limit mib_per_second) Idle (log r) = Some s ∧
         paced s = Some (Z.of_nat (length data)).
Proof.
  intros limit r. subst limit r. rewrite <- limit_as_specified. split.
  - pose proof (execute_paced self w) as H.
    apply wp_run in H as (s & Hs & HQ). exists s. split; [done|].
    intros Ho. by rewrite Ho in HQ.
  - intros data H1 H2 H3 H4 H5.
    pose proof (execute_paces_whole_file self data w H1 H2 H3 H4 H5) as H.
    by apply wp_run in H.
Qed.

Lemma limiter_paces_every_chunk_witness :
  let self := Sample.move_a in
  let w := Sample.slow_clock in
  let r := _execute_file_operation self w in
  (∃ s, scan (pacing_step 1048576000 mib_per_second) Idle (log r) = Some s ∧
        (out r = Ok tt → settled s)) ∧
  out r = Ok tt ∧ files (world r) !! ["a.bak"] = Some (Sample.text "hello") ∧
  ∃ s, scan (pacing_step 1048576000 mib_per_second) Idle (log r) = Some s ∧
       paced s = Some 5%Z.
Proof.
  destruct (limiter_paces_every_chunk Sample.move_a Sample.slow_clock)
    as [Hall Hwhole].
  split; [exact Hall|].
  apply (Hwhole (Sample.text "hello"));
    [by split_and!|done|discriminate|done|done].
Defined.

(** C5 as stated fails. Moving the 5 bytes of /src/a.txt in 9 seconds emits
    the sample 5 / 9437184, the bytes per second divided by 1024 * 1024, not
    5 / 9. And when the clock has been set back, so that the time since the
    start is negative, the sample is 0 although 5 bytes have been written:
    it is not the bytes over the elapsed time, in bytes per second or in
    MiB per second. *)
Lemma sample_is_not_bytes_over_elapsed :
  let slow := log (_execute_file_operation Sample.move_a Sample.slow_clock) in
  let back :=
    log (_execute_file_operation Sample.move_a Corner.clock_set_far_back) in
  (speed_update (5 # 9437184) ∈ slow ∧
   scan (pacing_step 1048576000 bytes_per_second) Idle slow = None) ∧
  (FileWrite ["a.bak"] 5 ∈ back ∧ speed_update (0 # 1048576) ∈ back ∧
   scan (pacing_step 1048576000 bytes_per_second) Idle back = None ∧
   scan (pacing_step 1048576000 (per_second_in (inject_Z (1024 * 1024)))) Idle
        back = None).
Proof.
  intros slow back. split_and!; try (by vm_compute); in_log.
Qed.

(** C4, as amended. With the ceiling at 0 the limiter works against the
    constant 1048576000 bytes per second: pacing is not switched off. In
    every run, whatever the faults and the stop requests, every chunk
    written is paced against that constant (the sleep is the size of the
    chunk over the constant, less the time the chunk took, when that is
    positive) and followed by its sample; and a run without fault or stop
    request returns normally, the destination holds the content of the
    source, and every byte of the file has been written in a chunk paced in
    this way. *)
Theorem zero_ceiling_is_paced self w :
  speed_limit_mbps self = 0%Z →
  let r := _execute_file_operation self w in
  (∃ s, scan (pacing_step 1048576000 mib_per_second) Idle (log r) = Some s ∧
        (out r = Ok tt → settled s)) ∧
  ∀ data,
    undisturbed w → files w !! src_path self = Some data →
    src_path self ≠ dest_path self →
    is_dir w (dest_path self) = false →
    is_dir w (dirname (dest_path self)) = true →
    out r = Ok tt ∧ files (world r) !! dest_path self = Some data ∧
    ∃ s, scan (pacing_step 1048576000 mib_per_second) Idle (log r) = Some s ∧
         paced s = Some (Z.of_nat (length data)).
Proof.
  intros H0 r. subst r.
  assert (speed_limit_bps (speed_limit_mbps self) = 1048576000%Z) as Hlimit
    by (by rewrite H0).
  rewrite <- Hlimit. split.
  - pose proof (execute_paced self w) as H.
    apply wp_run in H as (s & Hs & HQ). exists s. split; [done|].
    intros Ho. by rewrite Ho in HQ.
  - intros data H1 H2 H3 H4 H5.
    pose proof (execute_paces_whole_file self data w H1 H2 H3 H4 H5) as H.
    by apply wp_run in H.
Qed.

Lemma zero_ceiling_is_paced_witness :
  let self := Sample.move_a in
  let w := Sample.machine in
  let r := _execute_file_operation self w in
  speed_limit_mbps self = 0%Z ∧
  (∃ s, scan (pacing_step 1048576000 mib_per_second) Idle (log r) = Some s ∧
        (out r = Ok tt → settled s)) ∧
  out r = Ok tt ∧ files (world r) !! ["a.bak"] = Some (Sample.text "hello") ∧
  Sleep (5 # 1048576000) ∈ log r ∧
  ∃ s, scan (pacing_step 1048576000 mib_per_second) Idle (log r) = Some s ∧
       paced s = Some 5%Z.
Proof.
  destruct (zero_ceiling_is_paced Sample.move_a Sample.machine eq_refl)
    as [Hall Hwhole].
  split; [reflexivity|]. split; [exact Hall|].
  destruct (Hwhole (Sample.text "hello")) as (Ho & Hf & Hs);
    [by split_and!|done|discriminate|done|done|].
  split; [exact Ho|]. split; [exact Hf|]. split; [|exact Hs].
  in_log.
Defined.

(** C4 as stated fails: the constant does not bound the throughput the
    worker observes. With the ceiling at 0, when the wall clock is set back
    while the 5 bytes of /src/a.txt are copied, the sample emitted is
    5000000000 / 1048576 MiB per second, over four times the constant of
    1000 MiB per second. *)
Lemma zero_ceiling_does_not_bound_the_sample :
  let self := Sample.move_a in
  let r := _execute_file_operation self Corner.clock_set_back in
  speed_limit_mbps self = 0%Z ∧
  speed_update (5000000000 # 1048576) ∈ log r ∧
  (inject_Z 1048576000 < (5000000000 # 1048576) * inject_Z (1024 * 1024))%Q.
Proof.
  split; [reflexivity|]. split; [|by vm_compute].
  in_log.
Qed.

(** ** The throttled worker under faults and stop requests *)

Lemma flag_event_body_event e : flag_event e → body_event e.
Proof. by destruct e. Qed.

Lemma wp_poll_any w Φ :
  (∀ b w' l, files w' = files w → dirs w' = dirs w → Forall flag_event l →
             Φ (Ok b) w' l) →
  wp poll w Φ.
Proof.
  intros H. apply wp_poll; intros; apply H; try done; by repeat constructor.
Qed.

Lemma wp_time_time_any w Φ :
  (∀ t w', files w' = files w → dirs w' = dirs w → Φ (Ok t) w' [Clock t]) →
  wp time_time w Φ.
Proof. intros H. apply wp_time_time; intros; by apply H. Qed.

Lemma wp_time_sleep_any d w Φ :
  (∀ w', files w' = files w → dirs w' = dirs w → Φ (Ok tt) w' [Sleep d]) →
  wp (time_sleep d) w Φ.
Proof. intros H. apply wp_time_sleep. by apply H. Qed.

Lemma wp_os_path_getsize_any p w Φ :
  (∀ n w', files w' = files w → dirs w' = dirs w →
     (∀ d, files w !! p = Some d → n = Z.of_nat (length d)) →
     Φ (Ok n) w' []) →
  (∀ e w', files w' = files w → dirs w' = dirs w → Φ (Raise e) w' []) →
  wp (os_path_getsize p) w Φ.
Proof.
  intros Hok Hr. unfold os_path_getsize. wp_step. apply wp_next_fault.
  - intros _. wp_step. wp_step. unfold id.
    destruct (files w !! p) as [d|] eqn:Hd.
    + wp_step. apply Hok; [done..|]. by intros ? [= <-].
    + destruct (is_dir w p); wp_step; [apply Hok|apply Hr]; done.
  - intros f pl _. wp_step. wp_step. unfold id.
    destruct (decide (f = IOError)) as [->|Hf]; [wp_step; by apply Hr|].
    rewrite fault_pass by done. simpl.
    destruct (files w !! p) as [d|] eqn:Hd.
    + wp_step. apply Hok; [done..|]. by intros ? [= <-].
    + destruct (is_dir _ p); wp_step; [apply Hok|apply Hr]; done.
Qed.

Lemma wp_open_rb_any p w Φ :
  (∀ d w', files w' = files w → dirs w' = dirs w → files w !! p = Some d →
           Φ (Ok d) w' []) →
  (∀ e w', files w' = files w → dirs w' = dirs w → Φ (Raise e) w' []) →
  wp (open_rb p) w Φ.
Proof.
  intros Hok Hr. unfold open_rb. wp_step. apply wp_next_fault.
  - intros _. wp_step. wp_step. unfold id.
    destruct (files w !! p) as [d|] eqn:Hd.
    + wp_step. by apply Hok.
    + destruct (is_dir w p); wp_step; by apply Hr.
  - intros f pl _. wp_step. wp_step. unfold id.
    destruct (decide (f = IOError)) as [->|Hf]; [wp_step; by apply Hr|].
    rewrite fault_pass by done. simpl.
    destruct (files w !! p) as [d|] eqn:Hd.
    + wp_step. by apply Hok.
    + destruct (is_dir _ p); wp_step; by apply Hr.
Qed.

Lemma wp_open_wb_any p w Φ :
  (∀ w', files w' = <[p := []]> (files w) → dirs w' = dirs w →
         Φ (Ok tt) w' [Truncate p]) →
  (∀ e w', files w' = files w → dirs w' = dirs w → Φ (Raise e) w' []) →
  wp (open_wb p) w Φ.
Proof.
  intros Hok Hr. unfold open_wb. wp_step. apply wp_next_fault.
  - intros _. wp_step. wp_step. unfold id.
    destruct (is_dir w p); [wp_step; by apply Hr|].
    destruct (negb _); [wp_step; by apply Hr|].
    repeat wp_step. by apply Hok.
  - intros f pl _. wp_step. wp_step. unfold id.
    destruct (decide (f = IOError)) as [->|Hf]; [wp_step; by apply Hr|].
    rewrite fault_pass by done.
    destruct (is_dir _ p); [wp_step; by apply Hr|].
    destruct (negb _); [wp_step; by apply Hr|].
    repeat wp_step. by apply Hok.
Qed.

Lemma wp_os_remove_any p w Φ :
  (∀ w', files w' = delete p (files w) → dirs w' = dirs w →
         is_Some (files w !! p) → Φ (Ok tt) w' [Remove p]) →
  (∀ e w', files w' = files w → dirs w' = dirs w → Φ (Raise e) w' []) →
  wp (os_remove p) w Φ.
Proof.
  intros Hok Hr. unfold os_remove. wp_step. apply wp_next_fault.
  - intros _. wp_step. wp_step. unfold id.
    destruct (files w !! p) as [d|] eqn:Hd.
    + repeat wp_step. by apply Hok.
    + destruct (is_dir w p); wp_step; by apply Hr.
  - intros f pl _. wp_step. wp_step. unfold id.
    destruct (decide (f = IOError)) as [->|Hf]; [wp_step; by apply Hr|].
    rewrite fault_pass by done. simpl.
    destruct (files w !! p) as [d|] eqn:Hd.
    + repeat wp_step. apply Hok; try done; by rewrite Hd.
    + destruct (is_dir _ p); wp_step; by apply Hr.
Qed.

Lemma wp_fsrc_read_any p pos n w Φ :
  (∀ w', files w' = files w → dirs w' = dirs w →
         Φ (Ok (take n (drop pos (default [] (files w !! p))))) w' []) →
  (∀ e w', files w' = files w → dirs w' = dirs w → Φ (Raise e) w' []) →
  wp (fsrc_read p pos n) w Φ.
Proof.
  intros Hok Hr. apply wp_fsrc_read.
  - intros w' [[-> _]|(f & _ & _ & ->)]; by apply Hok.
  - intros pl _. by apply Hr.
Qed.

Lemma wp_fdst_write_any p chunk w Φ :
  (∀ w' stored,
     files w' = <[p := default [] (files w !! p) ++ stored]> (files w) →
     dirs w' = dirs w → Φ (Ok tt) w' [FileWrite p (length chunk)]) →
  (∀ e w', files w' = files w → dirs w' = dirs w → Φ (Raise e) w' []) →
  wp (fdst_write p chunk) w Φ.
Proof.
  intros Hok Hr. apply wp_fdst_write.
  - intros w' _ _ _ _ Hd _ (stored & Hf & _). by eapply Hok.
  - intros pl _. by apply Hr.
Qed.

Lemma int_percent b n :
  (0 ≤ b ≤ n)%Z → (0 < n)%Z →
  (0 ≤ int (inject_Z b / inject_Z n * 100) ≤ 100)%Z.
Proof.
  intros [Hb Hbn] Hn.
  assert (0 < inject_Z n)%Q as Hq
    by (change (inject_Z 0 < inject_Z n)%Q; by rewrite <- Zlt_Qlt).
  assert (0 <= inject_Z b)%Q as Hb'
    by (change (inject_Z 0 <= inject_Z b)%Q; by rewrite <- Zle_Qle).
  assert (inject_Z b <= inject_Z n)%Q as Hbn' by (by rewrite <- Zle_Qle).
  set (x := (inject_Z b / inject_Z n * 100)%Q).
  assert (0 <= inject_Z b / inject_Z n)%Q as H0.
  { apply Qle_shift_div_l; [done|]. lra. }
  assert (inject_Z b / inject_Z n <= 1)%Q as H1.
  { apply Qle_shift_div_r; [done|]. lra. }
  assert (0 <= x ∧ x <= 100)%Q as [Hx0 Hx1] by (unfold x; split; lra).
  unfold int. destruct (Qlt_le_dec x 0) as [Hlt|_]; [lra|].
  split.
  - change 0%Z with (Qfloor 0). by apply Qfloor_resp_le.
  - change 100%Z with (Qfloor 100). by apply Qfloor_resp_le.
Qed.

(** A log built from pieces that satisfy a predicate. *)
Ltac log_ok :=
  repeat first
    [ assumption | apply Forall_nil_2 | apply Forall_cons_2
    | (apply Forall_app; split) | exact I | done ].

Section footprint.
Context (self : FileWorker).

Lemma copy_loop_footprint files0 cs file_size limit start fuel :
  ∀ bytes pos w,
  only_at (dest_path self) files0 (files w) →
  (if decide (src_path self = dest_path self)
   then default [] (files w !! src_path self) = [] ∧ 0 < fuel
   else bytes = Z.of_nat pos ∧
        (Z.of_nat (length (default [] (files0 !! src_path self)))
         ≤ file_size)%Z ∧
        length (default [] (files0 !! src_path self)) - pos < fuel) →
  wp (copy_loop fuel self cs file_size limit start bytes pos) w
    (λ o w' l, o ≠ Stuck ∧ only_at (dest_path self) files0 (files w') ∧
               dirs w' = dirs w ∧ Forall body_event l).
Proof.
  induction fuel as [|fuel IH]; intros bytes pos w Hat Hcase.
  { destruct (decide _); lia. }
  cbn [copy_loop].
  wp_step. apply wp_poll_any. intros b w1 l1 Hf1 Hd1 Hl1.
  assert (Forall body_event l1) as Hl1'
    by (eapply Forall_impl; [done|apply flag_event_body_event]).
  destruct b; cbn [negb].
  2:{ wp_step. rewrite app_nil_r. split_and!; [done| |done..].
      by rewrite Hf1. }
  wp_step. apply wp_time_time_any. intros cst w2 Hf2 Hd2.
  wp_step. apply wp_fsrc_read_any.
  2:{ intros e w3 Hf3 Hd3. split_and!; [done| |congruence|].
      - by rewrite Hf3, Hf2, Hf1.
      - rewrite !Forall_app. split_and!; by repeat constructor. }
  intros w3 Hf3 Hd3. rewrite Hf2, Hf1.
  assert (Forall body_event (l1 ++ [Clock cst] ++ [] ++ [])) as Hquiet.
  { rewrite !Forall_app. split_and!; by repeat constructor. }
  destruct (decide (src_path self = dest_path self)) as [Heq|Hne].
  { destruct Hcase as [Hnil _]. rewrite Hnil, drop_nil, take_nil.
    rewrite bool_decide_eq_true_2 by done. wp_step.
    split_and!; [done| |congruence|done]. by rewrite Hf3, Hf2, Hf1. }
  destruct Hcase as (-> & Hsize & Hfuel).
  rewrite (Hat _ Hne).
  set (data := default [] (files0 !! src_path self)) in *.
  set (chunk := take cs (drop pos data)).
  case_bool_decide as Hchunk.
  { wp_step. split_and!; [done| |congruence|done].
    by rewrite Hf3, Hf2, Hf1. }
  assert (length chunk = cs `min` (length data - pos)) as Hlen
    by (unfold chunk; by rewrite length_take, length_drop).
  assert (0 < length chunk) as Hpos' by (destruct chunk; [done|simpl; lia]).
  wp_step. apply wp_fdst_write_any.
  2:{ intros e w4 Hf4 Hd4. split_and!; [done| |congruence|].
      - by rewrite Hf4, Hf3, Hf2, Hf1.
      - rewrite !Forall_app. split_and!; by repeat constructor. }
  intros w4 stored Hf4 Hd4.
  assert (only_at (dest_path self) files0 (files w4)) as Hat4.
  { intros p Hp. rewrite Hf4, lookup_insert_ne by done.
    rewrite Hf3, Hf2, Hf1. by apply Hat. }
  cbv zeta. wp_step. case_bool_decide as Hzero.
  { wp_step. split_and!; [done|done|congruence|].
    rewrite !Forall_app. split_and!; by repeat constructor. }
  wp_step. wp_step. wp_step.
  wp_step. apply wp_time_time_any. intros cet w5 Hf5 Hd5.
  wp_step.
  assert (∀ Ψ, (∀ l6 w6, files w6 = files w5 → dirs w6 = dirs w5 →
                          Forall body_event l6 → Ψ (Ok tt) w6 l6) →
    wp (if Qlt_le_dec 0
             (inject_Z (Z.of_nat (length chunk)) / inject_Z limit - (cet - cst))
        then time_sleep
               (inject_Z (Z.of_nat (length chunk)) / inject_Z limit - (cet - cst))
        else mret tt) w5 Ψ) as Hsleep.
  { intros Ψ HΨ. destruct (Qlt_le_dec _ _).
    - apply wp_time_sleep_any. intros w6 Hf6 Hd6. apply HΨ; [done..|].
      by repeat constructor.
    - wp_step. apply HΨ; [done..|constructor]. }
  apply Hsleep. intros l6 w6 Hf6 Hd6 Hl6.
  wp_step. apply wp_time_time_any. intros t w7 Hf7 Hd7.
  wp_step. wp_step.
  eapply wp_mono.
  { apply (IH _ (pos + length chunk) w7).
    - by rewrite Hf7, Hf6, Hf5.
    - split_and!; [lia|done|lia]. }
  intros o w8 l8 (Ho & Hat8 & Hd8 & Hl8).
  split_and!; [done|done|congruence|].
  rewrite !Forall_app. split_and!; try done; try by repeat constructor.
  constructor; [|constructor]. simpl. apply int_percent; lia.
Qed.

(** Every run of [_execute_file_operation]: it changes no directory and no
    file but the destination, unless it is a move that ends by removing the
    source. *)
Lemma execute_footprint w :
  wp (_execute_file_operation self) w (λ o w' l,
    o ≠ Stuck ∧ dirs w' = dirs w ∧ Forall body_event l ∧
    (only_at (dest_path self) (files w) (files w') ∨
     (o = Ok tt ∧ operation self = "move" ∧
      is_Some (files w !! src_path self) ∧
      only_at (dest_path self) (delete (src_path self) (files w)) (files w') ∧
      ∃ pre, l = pre ++ [Remove (src_path self);
                         status_message
                           "Source file deleted (Move operation complete)."]))).
Proof.
  assert (∀ w', files w' = files w →
                only_at (dest_path self) (files w) (files w')) as Hsame
    by (by intros w' -> p _).
  unfold _execute_file_operation. cbv zeta.
  wp_step. apply wp_os_path_getsize_any.
  2:{ intros e w1 Hf1 Hd1. split_and!; [done|done|log_ok|]. left. auto. }
  intros n w1 Hf1 Hd1 Hn.
  wp_step. apply wp_time_time_any. intros start w2 Hf2 Hd2.
  wp_step. apply wp_open_rb_any.
  2:{ intros e w3 Hf3 Hd3. split_and!; [done|congruence|log_ok|].
      left. apply Hsame. congruence. }
  intros fsrc w3 Hf3 Hd3 Hfsrc. rewrite Hf2, Hf1 in Hfsrc.
  specialize (Hn _ Hfsrc). subst n.
  wp_step. apply wp_open_wb_any.
  2:{ intros e w4 Hf4 Hd4. split_and!; [done|congruence|log_ok|].
      left. apply Hsame. congruence. }
  intros w4 Hf4 Hd4. rewrite Hf3, Hf2, Hf1 in Hf4.
  wp_step. eapply wp_mono.
  { apply (copy_loop_footprint (files w) CHUNK_SIZE _ _ start
             (S (length fsrc)) 0%Z 0 w4).
    - intros p Hp. by rewrite Hf4, lookup_insert_ne.
    - destruct (decide _) as [Heq|Hne].
      + rewrite Hf4, Heq, lookup_insert_eq. split; [done|lia].
      + rewrite Hfsrc. simpl. split_and!; lia. }
  intros o w5 l5 (Ho & Hat5 & Hd5 & Hl5).
  destruct o as [n'| |]; [|split_and!; [done|congruence|log_ok|by left]|done].
  wp_step. apply wp_poll_any. intros b w6 l6 Hf6 Hd6 Hl6.
  assert (Forall body_event l6) as Hl6'
    by (eapply Forall_impl; [done|apply flag_event_body_event]).
  destruct b; cbn [negb].
  - destruct (String.eqb_spec (operation self) "move") as [Hop|Hop].
    + wp_step. apply wp_os_remove_any.
      2:{ intros e w7 Hf7 Hd7. split_and!; [done|congruence| |].
          - log_ok.
          - left. intros p Hp. rewrite Hf7, Hf6. by apply Hat5. }
      intros w7 Hf7 Hd7 Hsome. wp_step.
      split_and!; [done|congruence| |].
      * log_ok.
      * right. split_and!; [done|done|by rewrite Hfsrc| |].
        -- intros p Hp. rewrite Hf7, Hf6.
           destruct (decide (p = src_path self)) as [->|Hp'];
             [by rewrite !lookup_delete_eq|].
           rewrite !lookup_delete_ne by done. by apply Hat5.
        -- eexists ([Clock start; Truncate (dest_path self)] ++ l5 ++ l6).
           by rewrite <- !app_assoc.
    + wp_step. split_and!; [done|congruence| |].
      * log_ok.
      * left. intros p Hp. rewrite Hf6. by apply Hat5.
  - wp_step. apply wp_os_remove_any.
    2:{ intros e w7 Hf7 Hd7. split_and!; [done|congruence| |].
        - log_ok.
        - left. intros p Hp. rewrite Hf7, Hf6. by apply Hat5. }
    intros w7 Hf7 Hd7 Hsome. wp_step.
    split_and!; [done|congruence| |].
    * log_ok.
    * left. intros p Hp. rewrite Hf7, lookup_delete_ne, Hf6 by done.
      by apply Hat5.
Qed.

End footprint.

Lemma flag_event_progress_in_range e : flag_event e → progress_in_range e.
Proof. by destruct e. Qed.

Lemma body_event_progress_in_range e : body_event e → progress_in_range e.
Proof. by destruct e. Qed.

Lemma flag_event_not_finished e : flag_event e → e ≠ finished.
Proof. by destruct e. Qed.

Lemma body_event_not_finished e : body_event e → e ≠ finished.
Proof. by destruct e. Qed.

(** Every run of [run]. *)
Lemma run_footprint self w :
  wp (run self) w (λ o w' l,
    o = Ok tt ∧ dirs w' = dirs w ∧
    (∃ pre, l = pre ++ [finished] ∧ Forall (λ e, e ≠ finished) pre) ∧
    Forall progress_in_range l ∧
    (only_at (dest_path self) (files w) (files w') ∨
     (operation self = "move" ∧ is_Some (files w !! src_path self) ∧
      only_at (dest_path self) (delete (src_path self) (files w)) (files w') ∧
      ∃ pre, l = pre ++ [Remove (src_path self);
                         status_message
                           "Source file deleted (Move operation complete).";
                         status_message "Operation complete: Move successful.";
                         finished]))).
Proof.
  unfold run. wp_step. apply wp_poll_any. intros b w1 l1 Hf1 Hd1 Hl1.
  assert (Forall progress_in_range l1) as Hl1p
    by (eapply Forall_impl; [exact Hl1|apply flag_event_progress_in_range]).
  assert (Forall (λ e, e ≠ finished) l1) as Hl1f
    by (eapply Forall_impl; [exact Hl1|apply flag_event_not_finished]).
  destruct b; cbn [negb].
  2:{ wp_step. split_and!; [done|done| |log_ok|].
      - by exists l1.
      - left. by intros p _; rewrite Hf1. }
  do 5 wp_step. eapply wp_mono; [apply execute_footprint|].
  intros o w2 l2 (Ho & Hd2 & Hl2 & Hcase).
  assert (Forall progress_in_range l2) as Hl2p
    by (eapply Forall_impl; [exact Hl2|apply body_event_progress_in_range]).
  assert (Forall (λ e, e ≠ finished) l2) as Hl2f
    by (eapply Forall_impl; [exact Hl2|apply body_event_not_finished]).
  rewrite Hf1 in Hcase.
  destruct o as [[]|e|]; [| |done].
  - repeat wp_step. split_and!; [done|congruence| |log_ok|].
    + eexists (l1 ++ [status_message
                        ("Starting " +:+ operation self +:+ " operation...")]
               ++ l2 ++ [status_message
                           ("Operation complete: "
                            +:+ capitalize (operation self)
                            +:+ " successful.")]).
      split; [by rewrite <- !app_assoc|log_ok].
    + destruct Hcase as [Hat|(_ & Hop & Hsome & Hat & pre & ->)]; [by left|].
      right. split_and!; [done..|].
      exists (l1 ++ [status_message
                       ("Starting " +:+ operation self +:+ " operation...")]
              ++ pre).
      rewrite Hop. by rewrite <- !app_assoc.
  - repeat wp_step. split_and!; [done|congruence| |log_ok|].
    + eexists (l1 ++ [status_message
                        ("Starting " +:+ operation self +:+ " operation...")]
               ++ l2 ++ [error_occurred
                           ("Error during " +:+ operation self +:+ ": "
                            +:+ exn_str e)]).
      split; [by rewrite <- !app_assoc|log_ok].
    + destruct Hcase as [Hat|(? & _)]; [by left|done].
Qed.

(** X3. The throttled worker always comes to its end: [run] returns whatever
    the faults and the stop requests, and [finished] is emitted exactly
    once, as the last event. *)
Theorem run_always_finishes self w :
  let r := run self w in
  out r = Ok tt ∧
  ∃ pre, log r = pre ++ [finished] ∧ Forall (λ e, e ≠ finished) pre.
Proof.
  intros r. subst r. pose proof (run_footprint self w) as H.
  apply wp_run in H. by destruct H as (? & _ & ? & _).
Qed.

(** X4. Every progress signal of the throttled worker carries a percentage
    between 0 and 100. *)
Theorem progress_stays_in_range self w :
  Forall progress_in_range (log (run self w)).
Proof.
  pose proof (run_footprint self w) as H.
  apply wp_run in H. by destruct H as (_ & _ & _ & ? & _).
Qed.

(** X5. The throttled worker creates no directory and changes no file other
    than its source and its destination. *)
Theorem throttled_worker_footprint self w :
  let r := run self w in
  dirs (world r) = dirs w ∧
  ∀ p, p ≠ src_path self → p ≠ dest_path self →
       files (world r) !! p = files w !! p.
Proof.
  intros r. subst r. pose proof (run_footprint self w) as H.
  apply wp_run in H. destruct H as (_ & Hd & _ & _ & Hcase).
  split; [done|]. intros p Hsrc Hdst.
  destruct Hcase as [Hat|(_ & _ & Hat & _)].
  - by apply Hat.
  - rewrite (Hat _ Hdst). by rewrite lookup_delete_ne.
Qed.

(** X6. The source is lost only by a move that succeeds: when source and
    destination differ, the source file has its content at the end of every
    run, unless the operation is a move and the run ends by removing the
    source and reporting success. *)
Theorem source_survives_unless_moved self data w :
  files w !! src_path self = Some data →
  src_path self ≠ dest_path self →
  let r := run self w in
  files (world r) !! src_path self = Some data ∨
  (operation self = "move" ∧ files (world r) !! src_path self = None ∧
   ∃ pre, log r = pre ++ [Remove (src_path self);
                          status_message
                            "Source file deleted (Move operation complete).";
                          status_message "Operation complete: Move successful.";
                          finished]).
Proof.
  intros Hsrc Hne r. subst r. pose proof (run_footprint self w) as H.
  apply wp_run in H. destruct H as (_ & _ & _ & _ & Hcase).
  destruct Hcase as [Hat|(Hop & _ & Hat & Hlog)].
  - left. by rewrite (Hat _ Hne).
  - right. split_and!; [done| |done].
    by rewrite (Hat _ Hne), lookup_delete_eq.
Qed.

(** X7. A source that is not a regular file: nothing is written, created or
    removed, and, unless the run is cancelled before it starts, the error is
    reported. *)
Theorem missing_source_touches_nothing self w :
  files w !! src_path self = None →
  let r := run self w in
  out r = Ok tt ∧ files (world r) = files w ∧ dirs (world r) = dirs w ∧
  (is_running w = true → stop_after w ≠ Some 0 →
   ∃ pre e, log r = pre ++ [error_occurred
                              ("Error during " +:+ operation self +:+ ": "
                               +:+ exn_str e);
                            finished]).
Proof.
  intros Hsrc r. subst r. apply wp_run. unfold run.
  wp_step. apply wp_poll.
  - intros Hstop. destruct (is_running w) eqn:Hrun; cbn [negb].
    2:{ wp_step. by split_and!. }
    do 5 wp_step. unfold _execute_file_operation. cbv zeta.
    wp_step. apply wp_os_path_getsize_any.
    2:{ intros e w1 Hf1 Hd1. repeat wp_step. split_and!; [done..|].
        intros _ _. by eexists [_; _], e. }
    intros n w1 Hf1 Hd1 _.
    wp_step. apply wp_time_time_any. intros start w2 Hf2 Hd2.
    wp_step. apply wp_open_rb_any.
    { intros d w3 _ _ Hd. rewrite Hf2, Hf1 in Hd. congruence. }
    intros e w3 Hf3 Hd3. repeat wp_step.
    split_and!; [done|congruence|congruence|].
    intros _ _. by eexists [_; _; _], e.
  - intros k Hstop. change (is_running (set_stop_after (Some k) w))
      with (is_running w). destruct (is_running w) eqn:Hrun; cbn [negb].
    2:{ wp_step. by split_and!. }
    do 5 wp_step. unfold _execute_file_operation. cbv zeta.
    wp_step. apply wp_os_path_getsize_any.
    2:{ intros e w1 Hf1 Hd1. repeat wp_step.
        split_and!; [done|simpl in *; congruence..|].
        intros _ _. by eexists [_; _], e. }
    intros n w1 Hf1 Hd1 _.
    wp_step. apply wp_time_time_any. intros start w2 Hf2 Hd2.
    wp_step. apply wp_open_rb_any.
    { intros d w3 _ _ Hd. rewrite Hf2, Hf1 in Hd. simpl in Hd. congruence. }
    intros e w3 Hf3 Hd3. repeat wp_step.
    split_and!; [done|simpl in *; congruence|simpl in *; congruence|].
    intros _ _. by eexists [_; _; _], e.
  - intros Hstop. cbn [negb]. wp_step. by split_and!.
Qed.

(** X8. Source and destination are one file: the file is emptied by a copy and
    removed by a move, no chunk is copied, and the run reports success. *)
Theorem same_file_is_destroyed self data w :
  plan w = [] → is_running w = true → stop_after w = None →
  src_path self = dest_path self →
  files w !! src_path self = Some data →
  is_dir w (src_path self) = false →
  is_dir w (dirname (src_path self)) = true →
  let r := run self w in
  out r = Ok tt ∧
  files (world r)
    = (if String.eqb (operation self) "move"
       then delete (src_path self) (files w)
       else <[src_path self := []]> (files w)) ∧
  Forall silent (log r) ∧
  ∃ pre, log r = pre ++ [status_message
                           ("Operation complete: "
                            +:+ capitalize (operation self) +:+ " successful.");
                         finished].
Proof.
  intros Hp Hrun Hstop Heq Hsrc Hdir Hparent r. subst r. apply wp_run.
  unfold run. wp_step. apply wp_poll; [|congruence..]. intros _.
  rewrite Hrun. cbn [negb].
  do 5 wp_step. unfold _execute_file_operation. cbv zeta. rewrite <- Heq.
  wp_step. apply (wp_os_path_getsize_ok _ data); [done..|].
  wp_step. apply wp_time_time_frame.
  intros start w1 (Hf1 & Hd1 & Hp1 & Hrun1 & Hstop1 & _).
  wp_step. apply (wp_open_rb_ok _ data); [congruence..|].
  wp_step. apply wp_open_wb_ok;
    [congruence|unfold is_dir in *; by rewrite Hd1..|].
  wp_step. cbn [copy_loop].
  wp_step. apply wp_poll; [|simpl; congruence..]. intros _.
  simpl is_running. rewrite Hrun1, Hrun. cbn [negb].
  wp_step. apply wp_time_time_frame.
  intros cst w2 (Hf2 & Hd2 & Hp2 & Hrun2 & Hstop2 & _).
  wp_step. apply wp_fsrc_read; [|intros pl Hpl; simpl in *; congruence].
  intros w3 [[-> _]|(f & _ & Hpl & _)]; [|simpl in *; congruence].
  rewrite Hf2. simpl files. rewrite lookup_insert_eq.
  change (default [] (Some [])) with (@nil byte).
  rewrite drop_nil, take_nil, bool_decide_eq_true_2 by done.
  wp_step.
  wp_step. apply wp_poll; [|simpl in *; congruence..]. intros _.
  rewrite Hrun2. simpl is_running. rewrite Hrun1, Hrun. cbn [negb].
  destruct (String.eqb (operation self) "move") eqn:Hop.
  - wp_step. apply wp_os_remove_ok;
      [simpl in *; congruence|rewrite Hf2; simpl; by rewrite lookup_insert_eq|].
    repeat wp_step. split_and!; [done| |log_ok|].
    + simpl. by rewrite Hf2, Hf1; simpl; rewrite delete_insert_eq.
    + by eexists [_; _; _; _; _; _; _; _; _].
  - repeat wp_step. split_and!; [done| |log_ok|].
    + by rewrite Hf2; simpl; rewrite Hf1.
    + by eexists [_; _; _; _; _; _; _].
Qed.

(** ** The batch worker under faults and stop requests *)

Lemma wp_mutex_lock_any w Φ :
  (∀ w' l, files w' = files w → dirs w' = dirs w → Forall flag_event l →
           Φ (Ok tt) w' l) →
  wp mutex_lock w Φ.
Proof.
  intros H. unfold mutex_lock. wp_step.
  apply wp_serve_stop_request; intros; wp_step; apply H; try done;
    by repeat constructor.
Qed.

Lemma wp_read_flag_any w Φ :
  (∀ b, Φ (Ok b) w [FlagRead Worker b]) → wp read_flag w Φ.
Proof. intros H. unfold read_flag. repeat wp_step. apply H. Qed.

Lemma wp_os_makedirs_any p w Φ :
  (∀ w', files w' = files w →
         dirs w' = list_to_set (ancestors p) ∪ dirs w →
         Φ (Ok tt) w' [Makedirs p]) →
  (∀ e w', files w' = files w → dirs w' = dirs w → Φ (Raise e) w' []) →
  wp (os_makedirs p) w Φ.
Proof.
  intros Hok Hr. unfold os_makedirs. wp_step. apply wp_next_fault.
  - intros _. wp_step. wp_step. unfold id.
    destruct (find _ _); [wp_step; by apply Hr|].
    repeat wp_step. by apply Hok.
  - intros f pl _. wp_step. wp_step. unfold id.
    destruct (decide (f = IOError)) as [->|Hf]; [wp_step; by apply Hr|].
    rewrite fault_pass by done.
    destruct (find _ _); [wp_step; by apply Hr|].
    repeat wp_step. by apply Hok.
Qed.

Lemma wp_shutil_copy2_any src dst w Φ :
  (∀ w' target stored,
     files w' = <[target := stored]> (files w) → dirs w' = dirs w →
     target = dst ∨ target = dst ++ [basename src] →
     Φ (Ok tt) w' [Copy2 src dst]) →
  (∀ e w', files w' = files w → dirs w' = dirs w → Φ (Raise e) w' []) →
  wp (shutil_copy2 src dst) w Φ.
Proof.
  intros Hok Hr.
  assert (∀ f w1, files w1 = files w → dirs w1 = dirs w → f ≠ IOError →
            wp (match files w1 !! src with
                | Some data =>
                    let target :=
                      if is_dir w1 dst then dst ++ [basename src] else dst in
                    if bool_decide (target = src)
                    then raise (SameFileError src target)
                    else if is_dir w1 target
                    then raise (IsADirectoryError target)
                    else if negb (is_dir w1 (dirname target))
                    then raise (FileNotFoundError target)
                    else
                      let stored :=
                        match f with Garble junk => junk | _ => data end in
                      modify (set_files (<[target := stored]> (files w1)));;
                      emit (Copy2 src dst)
                | None =>
                    if is_dir w1 src then raise (IsADirectoryError src)
                    else raise (FileNotFoundError src)
                end) w1 Φ) as Hbody.
  { intros f w1 Hw1 Hd1 Hf.
    destruct (files w1 !! src) as [data|];
      [|destruct (is_dir w1 src); wp_step; by apply Hr].
    cbv zeta.
    repeat (match goal with
            | |- wp (if ?b then _ else _) _ _ =>
                destruct b eqn:?; [wp_step; by apply Hr|]
            end).
    repeat wp_step. eapply Hok; [simpl; by rewrite Hw1|done|].
    destruct (is_dir w1 dst); auto. }
  unfold shutil_copy2. wp_step. apply wp_next_fault.
  - intros _. wp_step. wp_step. unfold id.
    exact (Hbody Pass w eq_refl eq_refl ltac:(done)).
  - intros f p _. wp_step. wp_step. unfold id.
    destruct (decide (f = IOError)) as [->|Hf]; [wp_step; by apply Hr|].
    rewrite fault_pass by done.
    exact (Hbody f (set_plan p w) eq_refl eq_refl Hf).
Qed.

Section batch.
Context `{HL : Hashlib}.

Lemma wp_calculate_md5_any p w Φ :
  (∀ d w', files w' = files w → dirs w' = dirs w → Φ (Ok d) w' [Md5 p d]) →
  wp (Sync._calculate_md5 p Sync.blocksize) w Φ.
Proof.
  intros H. apply wp_run.
  destruct (calculate_md5_run p Sync.blocksize w)
    as (d & -> & -> & Hf & Hd & _); [unfold Sync.blocksize; lia|].
  by apply H.
Qed.

Lemma wp_emit_operation_finished_any self i ok msg w Φ :
  (∀ w' l, files w' = files w → dirs w' = dirs w → Forall flag_event l →
           Φ (Ok tt) w' (operation_finished i ok msg :: l)) →
  wp (Sync.emit_operation_finished self i ok msg) w Φ.
Proof.
  intros H. apply wp_emit_operation_finished.
  - intros w' (Hf & Hd & _) _. by apply H.
  - intros _ w' (Hf & Hd & _) _. apply H; [done..|]. by repeat constructor.
Qed.

End batch.

Lemma percent_of_in_range done total :
  done ≤ total → 0 < total → (0 ≤ Sync.percent_of done total ≤ 100)%Z.
Proof.
  intros Hle Hpos. unfold Sync.percent_of. split.
  - apply Z.div_pos; lia.
  - apply Z.div_le_upper_bound; lia.
Qed.

Section touched.
Context (src_dir dst_dir : path) (mode : string).
Abbreviation touched' := (touched src_dir dst_dir mode).

Lemma touched_refl m : touched' m m.
Proof. intros p. by left. Qed.

Lemma touched_trans m1 m2 m3 : touched' m1 m2 → touched' m2 m3 → touched' m1 m3.
Proof.
  intros H12 H23 p.
  destruct (H23 p) as [H|[H|H]]; [|by right; left|by right; right].
  destruct (H12 p) as [H'|[H'|(? & ? & H')]]; [|by right; left|].
  - left. congruence.
  - right. right. split_and!; [done..|congruence].
Qed.

Lemma touched_insert m q x :
  dst_dir `prefix_of` q → touched' m (<[q := x]> m).
Proof.
  intros Hq p. destruct (decide (p = q)) as [->|Hp]; [by right; left|].
  left. by rewrite lookup_insert_ne.
Qed.

Lemma touched_delete m rel :
  mode = "verify_and_delete" → rel ≠ [] →
  touched' m (delete (src_dir ++ rel) m).
Proof.
  intros Hm Hrel p. destruct (decide (p = src_dir ++ rel)) as [->|Hp].
  - right. right. split_and!; [done|by exists rel|by rewrite lookup_delete_eq].
  - left. by rewrite lookup_delete_ne.
Qed.

End touched.

Lemma relpath_app d rel : relpath (d ++ rel) d = rel.
Proof.
  induction d as [|a d IH]; simpl.
  - by destruct rel.
  - by rewrite decide_True.
Qed.

Lemma dirname_app_prefix d rel : rel ≠ [] → d `prefix_of` dirname (d ++ rel).
Proof.
  intros Hrel. unfold dirname.
  destruct (exists_last Hrel) as (rel' & a & ->).
  rewrite app_assoc, removelast_last. by apply prefix_app_r.
Qed.

Lemma flag_event_task_event i src_dir dst_dir mode e :
  flag_event e → task_event i src_dir dst_dir mode e.
Proof. by destruct e. Qed.

Lemma os_walk_below w top :
  Forall (λ f, ∃ rel, rel ≠ [] ∧ f = top ++ rel) (os_walk w top).
Proof.
  unfold os_walk. destruct (is_dir w top); [|constructor].
  rewrite walk_sort_Permutation. apply List.Forall_forall. intros f [_ Hf%bool_decide_eq_true]%filter_In.
  destruct Hf as [[rel ->] Hne]. exists rel. split; [|done].
  intros ->. by rewrite app_nil_r in Hne.
Qed.

Section batch_footprint.
Context `{HL : Hashlib}.
Context (self : list task) (i : nat) (src_dir dst_dir : path) (mode : string).
Abbreviation L := (task_event i src_dir dst_dir mode).
Abbreviation T := (touched src_dir dst_dir mode).

Lemma flags_task_events l : Forall flag_event l → Forall L l.
Proof. intros H. eapply Forall_impl; [exact H|apply flag_event_task_event]. Qed.

(** The removal of a verified source file, when the mode asks for it. *)
Lemma wp_delete_source filename rel w Φ :
  rel ≠ [] →
  (∀ o w' l, (o ≠ Stuck) → (∀ a, o = Ok a → a = tt) →
             Forall L l → T (files w) (files w') → dirs w' = dirs w →
             Φ o w' l) →
  wp (if String.eqb mode "verify_and_delete" then
        emit (operation_progress i filename "Deleting Source...");;
        os_remove (src_dir ++ rel)
      else mret tt) w Φ.
Proof.
  intros Hrel H. destruct (String.eqb_spec mode "verify_and_delete") as [Hm|Hm].
  - wp_step. wp_step. apply wp_os_remove_any.
    + intros w' Hf Hd _. apply H; [done|by intros []|..|done].
      * repeat constructor; [done|by exists rel].
      * rewrite Hf. by apply touched_delete.
    + intros e w' Hf Hd. apply H; [done|done|by repeat constructor| |done].
      rewrite Hf. apply touched_refl.
  - wp_step. apply H; [done|by intros []|constructor|apply touched_refl|done].
Qed.

Lemma for_each_file_footprint total all_files : ∀ file_idx w,
  Forall (λ f, ∃ rel, rel ≠ [] ∧ f = src_dir ++ rel) all_files →
  file_idx + length all_files = total →
  wp (Sync.for_each_file self i src_dir dst_dir mode total file_idx all_files)
     w
     (λ o w' l, o ≠ Stuck ∧ Forall L l ∧ T (files w) (files w') ∧
                dirs w ⊆ dirs w').
Proof.
  induction all_files as [|f rest IH]; intros file_idx w Hall Hlen;
    cbn [Sync.for_each_file].
  { wp_step. split_and!; [done|constructor|apply touched_refl|done]. }
  apply Forall_cons in Hall as [(rel & Hrel & ->) Hall].
  cbv zeta. rewrite relpath_app.
  assert (L (Makedirs (dirname (dst_dir ++ rel)))) as Hmk
    by (by apply dirname_app_prefix).
  assert (L (Copy2 (src_dir ++ rel) (dst_dir ++ rel))) as Hcp
    by (by exists rel).
  assert (L (overall_progress (Sync.percent_of (S file_idx) total))) as Hpc
    by (apply percent_of_in_range; simpl in Hlen; lia).
  wp_step. apply wp_mutex_lock_any. intros w1 l1 Hf1 Hd1 Hl1%flags_task_events.
  wp_step. apply wp_read_flag_any. intros b.
  destruct b; cbn [negb].
  2:{ unfold mutex_unlock. repeat wp_step.
      split_and!; [done|log_ok| |by rewrite Hd1].
      rewrite Hf1. apply touched_refl. }
  wp_step. unfold mutex_unlock. wp_step.
  wp_step. apply wp_os_makedirs_any.
  2:{ intros e w2 Hf2 Hd2. split_and!; [done|log_ok| |by rewrite Hd2, Hd1].
      rewrite Hf2, Hf1. apply touched_refl. }
  intros w2 Hf2 Hd2.
  do 3 wp_step. apply wp_shutil_copy2_any.
  2:{ intros e w3 Hf3 Hd3. split_and!; [done|log_ok| |].
      - rewrite Hf3, Hf2, Hf1. apply touched_refl.
      - rewrite Hd3, Hd2, Hd1. apply union_subseteq_r. }
  intros w3 target stored Hf3 Hd3 Htarget.
  assert (T (files w) (files w3)) as Ht3.
  { rewrite Hf3, Hf2, Hf1. apply touched_insert.
    destruct Htarget as [->| ->]; [by exists rel|].
    rewrite <- app_assoc. by eexists. }
  assert (dirs w ⊆ dirs w3) as Hsub3
    by (rewrite Hd3, Hd2, Hd1; apply union_subseteq_r).
  do 3 wp_step. apply wp_calculate_md5_any. intros d1 w4 Hf4 Hd4.
  wp_step. apply wp_calculate_md5_any. intros d2 w5 Hf5 Hd5.
  destruct (negb (String.eqb d1 d2)).
  { wp_step. apply wp_emit_operation_finished_any.
    intros w6 l6 Hf6 Hd6 Hl6%flags_task_events. wp_step.
    split_and!; [done|log_ok| |].
    - by rewrite Hf6, Hf5, Hf4.
    - by rewrite Hd6, Hd5, Hd4. }
  wp_step. apply wp_delete_source; [done|].
  intros o w6 l6 Ho Hunit Hl6 Ht6 Hd6.
  destruct o as [a| |]; [|split_and!|done].
  - wp_step. wp_step.
    eapply wp_mono; [by apply (IH (S file_idx) w6); [|simpl in *; lia]|].
    intros o w7 l7 (Ho7 & Hl7 & Ht7 & Hd7).
    split_and!; [done|log_ok| |].
    + eapply touched_trans; [|exact Ht7]. eapply touched_trans; [|exact Ht6].
      by rewrite Hf5, Hf4.
    + rewrite <- Hd7, Hd6, Hd5, Hd4. done.
  - done.
  - log_ok.
  - eapply touched_trans; [|exact Ht6]. by rewrite Hf5, Hf4.
  - by rewrite Hd6, Hd5, Hd4.
Qed.

(** Every run of [_process_directory]. *)
Lemma process_directory_footprint w :
  wp (Sync._process_directory self i src_dir dst_dir mode) w
     (λ o w' l, o ≠ Stuck ∧ Forall L l ∧ T (files w) (files w') ∧
                dirs w ⊆ dirs w').
Proof.
  unfold Sync._process_directory. wp_step. wp_step. unfold id.
  destruct (negb _).
  { apply wp_emit_operation_finished_any.
    intros w1 l1 Hf1 Hd1 Hl1%flags_task_events.
    split_and!; [done|log_ok| |by rewrite Hd1].
    rewrite Hf1. apply touched_refl. }
  wp_step. apply wp_os_makedirs_any.
  2:{ intros e w1 Hf1 Hd1. split_and!; [done|log_ok| |by rewrite Hd1].
      rewrite Hf1. apply touched_refl. }
  intros w1 Hf1 Hd1.
  assert (L (Makedirs dst_dir)) as Hmk
    by (exists []; by rewrite app_nil_r).
  assert (dirs w ⊆ dirs w1) as Hsub1 by (rewrite Hd1; apply union_subseteq_r).
  wp_step. wp_step. unfold id. cbv zeta.
  case_bool_decide as Hempty.
  { apply wp_emit_operation_finished_any.
    intros w2 l2 Hf2 Hd2 Hl2%flags_task_events.
    split_and!; [done|log_ok| |by rewrite Hd2].
    rewrite Hf2, Hf1. apply touched_refl. }
  wp_step. eapply wp_mono;
    [apply for_each_file_footprint; [apply os_walk_below|done]|].
  intros o w2 l2 (Ho & Hl2 & Ht2 & Hd2). rewrite Hf1 in Ht2.
  assert (dirs w ⊆ dirs w2) as Hsub2 by (by etrans).
  destruct o as [[]|e|]; [| | |done].
  - apply wp_emit_operation_finished_any.
    intros w3 l3 Hf3 Hd3 Hl3%flags_task_events.
    split_and!; [done|log_ok|by rewrite Hf3|by rewrite Hd3].
  - wp_step. split_and!; [done|log_ok|done|done].
  - split_and!; [done|log_ok|done|done].
Qed.

End batch_footprint.

Lemma task_event_queue_event n i src_dir dst_dir mode e :
  i < n → task_event i src_dir dst_dir mode e → queue_event n e.
Proof. intros Hi. destruct e; simpl; try done; by intros ->. Qed.

Lemma flag_event_queue_event n e : flag_event e → queue_event n e.
Proof. by destruct e. Qed.

Section batch_run.
Context `{HL : Hashlib}.

Lemma for_each_task_completes self tasks : ∀ i w,
  i + length tasks ≤ length self →
  wp (Sync.for_each_task self i tasks) w
     (λ o _ l, o = Ok tt ∧ Forall (queue_event (length self)) l).
Proof.
  induction tasks as [|t rest IH]; intros i w Hlen; cbn [Sync.for_each_task].
  { by wp_step. }
  simpl in Hlen.
  assert (∀ l, Forall flag_event l → Forall (queue_event (length self)) l)
    as Hflags.
  { intros l H. eapply Forall_impl; [exact H|apply flag_event_queue_event]. }
  wp_step. apply wp_mutex_lock_any. intros w1 l1 _ _ Hl1%Hflags.
  wp_step. apply wp_read_flag_any. intros b.
  destruct b; cbn [negb].
  2:{ unfold mutex_unlock. wp_step. split; [done|log_ok]. }
  wp_step. unfold mutex_unlock. wp_step. wp_step. wp_step. wp_step.
  assert (∀ w2, wp (Sync.for_each_task self (S i) rest) w2
            (λ o _ l, o = Ok tt ∧ Forall (queue_event (length self)) l))
    as Hrest by (intros w2; apply IH; lia).
  assert (∀ ok msg, queue_event (length self) (operation_finished i ok msg))
    as Hfin by (intros ??; simpl; lia).
  wp_step. case_bool_decide.
  - eapply wp_mono; [apply process_directory_footprint|].
    intros o w2 l2 (Ho & Hl2 & _).
    assert (Forall (queue_event (length self)) l2) as Hl2'.
    { eapply Forall_impl; [exact Hl2|].
      intros e. apply task_event_queue_event. lia. }
    destruct o as [[]|e|]; [| |done].
    + eapply wp_mono; [apply Hrest|]. intros o w3 l3 [-> Hl3].
      split; [done|log_ok].
    + apply wp_emit_operation_finished_any. intros w3 l3 _ _ Hl3%Hflags.
      eapply wp_mono; [apply Hrest|]. intros o w4 l4 [-> Hl4].
      split; [done|log_ok].
  - apply wp_emit_operation_finished_any. intros w3 l3 _ _ Hl3%Hflags.
    eapply wp_mono; [apply Hrest|]. intros o w4 l4 [-> Hl4].
    split; [done|log_ok].
Qed.

(** X9. The batch worker always comes to its end: [run] returns whatever
    the tasks, the faults and the stop requests; what a task raises is
    reported and does not leave the loop; every overall progress emitted is
    a percentage, every other signal carries the index of a task of the
    queue, and the last event is the overall progress 100. *)
Theorem batch_run_always_completes self w :
  let r := Sync.run self w in
  out r = Ok tt ∧ Forall (queue_event (length self)) (log r) ∧
  ∃ pre, log r = pre ++ [overall_progress 100].
Proof.
  intros r. subst r.
  apply (wp_run (Sync.run self) w
           (λ o _ l, o = Ok tt ∧ Forall (queue_event (length self)) l ∧
                     ∃ pre, l = pre ++ [overall_progress 100])).
  unfold Sync.run. wp_step.
  eapply wp_mono; [by apply for_each_task_completes|].
  intros o w1 l1 [-> Hl1]. wp_step. split; [done|]. split; [log_ok|].
  by exists l1.
Qed.

(** X10. Every task of the batch worker mirrors the tree: each copy takes a file
    below the source directory to the same relative path below the
    destination directory, a file is removed only in mode
    verify_and_delete and only below the source directory, and directories
    are made only at or below the destination directory. *)
Theorem batch_task_mirrors_the_tree self i src_dir dst_dir mode w :
  Forall (task_event i src_dir dst_dir mode)
    (log (Sync._process_directory self i src_dir dst_dir mode w)).
Proof.
  pose proof (process_directory_footprint self i src_dir dst_dir mode w) as H.
  apply wp_run in H. by destruct H as (_ & ? & _).
Qed.

(** X11. The footprint of a task of the batch worker: whatever the faults, a
    file outside the destination directory keeps its content, unless the
    mode is verify_and_delete and it is a file below the source directory
    that has been removed; no directory is removed. *)
Theorem batch_task_footprint self i src_dir dst_dir mode w :
  let r := Sync._process_directory self i src_dir dst_dir mode w in
  touched src_dir dst_dir mode (files w) (files (world r)) ∧
  dirs w ⊆ dirs (world r).
Proof.
  intros r. subst r.
  pose proof (process_directory_footprint self i src_dir dst_dir mode w) as H.
  apply wp_run in H. by destruct H as (_ & _ & ? & ?).
Qed.

End batch_run.

(** ** The completion reports of the batch worker *)

Lemma order_step_sorted l : ∀ s n,
  scan order_step s l = Some n →
  s ≤ n ∧ Forall (λ i, s ≤ i < n) (reported l) ∧
  StronglySorted lt (reported l).
Proof.
  induction l as [|e l IH]; intros s n Hscan; simpl in Hscan.
  { injection Hscan as <-. by repeat constructor. }
  destruct (order_step s e) as [s1|] eqn:Hstep; [|done].
  destruct (IH _ _ Hscan) as (Hle & Hall & Hsorted).
  destruct e; simpl in Hstep; try (injection Hstep as <-; done).
  case_decide; [|done]. injection Hstep as <-.
  change (reported (operation_finished task_index success message :: l))
    with (task_index :: reported l).
  split; [lia|]. split.
  - constructor; [lia|]. eapply Forall_impl; [exact Hall|]. simpl. lia.
  - constructor; [done|]. eapply Forall_impl; [exact Hall|]. simpl. lia.
Qed.

Section reports.
Context `{HL : Hashlib}.

Lemma accepts_report s self i ok msg Q :
  s ≤ i → Q (Ok tt) (S i) →
  accepts order_step s (Sync.emit_operation_finished self i ok msg) Q.
Proof.
  intros Hs HQ w. apply wp_emit_operation_finished.
  - intros w' _ _. exists (S i). simpl. by rewrite decide_True.
  - intros _ w' _ _. exists (S i). simpl. by rewrite decide_True.
Qed.

Lemma for_each_file_reports self i src_dir dst_dir mode total all_files :
  ∀ file_idx s, s ≤ i →
  accepts order_step s
    (Sync.for_each_file self i src_dir dst_dir mode total file_idx all_files)
    (λ o s', match o with
             | Ok Sync.Return => s' = s ∨ s' = S i
             | _ => s' = s
             end).
Proof.
  induction all_files as [|f rest IH]; intros file_idx s Hs;
    cbn [Sync.for_each_file].
  { by acc_step. }
  do 4 acc_step. destruct b; cbn [negb]; [|repeat acc_step; by left].
  do 14 acc_step.
  destruct (negb _).
  { acc_step. apply accepts_report; [done|]. acc_step. by right. }
  acc_step.
  destruct (String.eqb _ _); repeat acc_step; by apply IH.
Qed.

Lemma process_directory_reports self i src_dir dst_dir mode s :
  s ≤ i →
  accepts order_step s (Sync._process_directory self i src_dir dst_dir mode)
    (λ o s', match o with Ok _ => s' = s ∨ s' = S i | _ => s' = s end).
Proof.
  intros Hs. unfold Sync._process_directory. do 2 acc_step.
  destruct (negb _); [apply accepts_report; [done|by right]|].
  do 4 acc_step.
  case_bool_decide; [apply accepts_report; [done|by right]|].
  acc_step. eapply accepts_mono; [by apply for_each_file_reports|].
  intros [[]|e|] s' Hs'; cbv beta iota; try done.
  - subst s'. apply accepts_report; [done|by right].
  - by acc_step.
Qed.

Lemma for_each_task_reports self tasks : ∀ i s, s ≤ i →
  accepts order_step s (Sync.for_each_task self i tasks) (λ _ _, True).
Proof.
  induction tasks as [|t rest IH]; intros i s Hs; cbn [Sync.for_each_task].
  { by acc_step. }
  do 4 acc_step. destruct b; cbn [negb]; [|by repeat acc_step].
  do 5 acc_step.
  - acc_step. case_bool_decide.
    + eapply accepts_mono; [by apply process_directory_reports|].
      intros [[]|e|] s' Hs'; cbv beta iota; try done.
      * apply IH. lia.
      * subst s'. apply accepts_report; [done|]. apply IH. lia.
    + apply accepts_report; [done|]. apply IH. lia.
Qed.

(** X15. Every task is reported at most once, and the reports come in the
    order of the queue: the task indices of the [operation_finished]
    signals of a run increase strictly. *)
Theorem reports_follow_the_queue self w :
  StronglySorted lt (reported (log (Sync.run self w))).
Proof.
  assert (accepts order_step 0 (Sync.run self) (λ _ _, True)) as H.
  { unfold Sync.run. acc_step.
    eapply accepts_mono; [apply for_each_task_reports; lia|].
    intros [[]|e|] s' _; cbv beta iota; [|done..]. by acc_step. }
  specialize (H w). apply wp_run in H as (n & Hscan & _).
  by apply order_step_sorted in Hscan as (_ & _ & ?).
Qed.

End reports.

(** ** The batch worker, undisturbed *)

Lemma find_is_file_none w p :
  (∀ q, q `prefix_of` p → files w !! q = None) →
  find (is_file w) (ancestors p) = None.
Proof.
  intros H. unfold ancestors.
  induction (seq 1 (length p)) as [|n l IH]; [done|].
  cbn [fmap list_fmap find]. unfold is_file at 1.
  rewrite bool_decide_eq_false_2; [exact IH|].
  rewrite (H (take n p)); [by intros [? ?]|apply prefix_take].
Qed.

Lemma elem_of_ancestors q p : q ∈ ancestors p → q `prefix_of` p ∧ q ≠ [].
Proof.
  unfold ancestors. intros (n & -> & Hn%elem_of_seq)%list_elem_of_fmap.
  split; [apply prefix_take|]. intros Hnil.
  apply (f_equal length) in Hnil. rewrite length_take in Hnil. simpl in Hnil.
  lia.
Qed.

Lemma ancestors_self p : p ≠ [] → p ∈ ancestors p.
Proof.
  intros Hp. unfold ancestors. apply list_elem_of_fmap.
  exists (length p). split; [by rewrite firstn_all|].
  apply elem_of_seq. destruct p; [done|simpl; lia].
Qed.

Lemma is_dir_makedirs w p :
  is_dir (set_dirs (list_to_set (ancestors p) ∪ dirs w) w) p = true.
Proof.
  unfold is_dir. apply bool_decide_eq_true. simpl.
  destruct (decide (p = [])) as [->|Hp]; [by left|]. right.
  apply elem_of_union_l, elem_of_list_to_set. by apply ancestors_self.
Qed.

Lemma dirname_prefix p : dirname p `prefix_of` p.
Proof.
  unfold dirname. rewrite removelast_firstn_len. apply prefix_take.
Qed.

Lemma dirname_shorter p : p ≠ [] → length (dirname p) < length p.
Proof.
  intros Hp. unfold dirname. rewrite removelast_firstn_len, length_take.
  destruct p; [done|simpl; lia].
Qed.

Lemma wp_mutex_lock_quiet w Φ :
  stop_after w = None → Φ (Ok tt) w [Lock Worker] → wp mutex_lock w Φ.
Proof.
  intros Hs H. unfold mutex_lock. wp_step.
  apply wp_serve_stop_request; [|congruence..]. intros _. by wp_step.
Qed.

Lemma wp_read_flag w Φ :
  Φ (Ok (is_running w)) w [FlagRead Worker (is_running w)] → wp read_flag w Φ.
Proof. intros H. unfold read_flag. by repeat wp_step. Qed.

Lemma wp_os_makedirs_ok p w Φ :
  plan w = [] → find (is_file w) (ancestors p) = None →
  Φ (Ok tt) (set_dirs (list_to_set (ancestors p) ∪ dirs w) w) [Makedirs p] →
  wp (os_makedirs p) w Φ.
Proof.
  intros Hp Hfind H. unfold os_makedirs. wp_step.
  apply wp_next_fault; [|by rewrite Hp]. intros _.
  wp_step. wp_step. unfold id. rewrite Hfind. by repeat wp_step.
Qed.

Lemma wp_shutil_copy2_ok src dst data w Φ :
  plan w = [] → files w !! src = Some data → is_dir w dst = false →
  dst ≠ src → is_dir w (dirname dst) = true →
  Φ (Ok tt) (set_files (<[dst := data]> (files w)) w) [Copy2 src dst] →
  wp (shutil_copy2 src dst) w Φ.
Proof.
  intros Hp Hsrc Hdst Hne Hparent H. unfold shutil_copy2. wp_step.
  apply wp_next_fault; [|by rewrite Hp]. intros _.
  wp_step. wp_step. unfold id. rewrite Hsrc. cbv zeta. rewrite Hdst.
  cbv iota. rewrite bool_decide_eq_false_2 by done.
  rewrite Hdst, Hparent. cbn [negb]. by repeat wp_step.
Qed.

Section digest.
Context `{HL : Hashlib}.

Lemma wp_calculate_md5_ok p data w Φ :
  plan w = [] → files w !! p = Some data →
  Φ (Ok (hexdigest (update md5 data))) w
    [Md5 p (hexdigest (update md5 data))] →
  wp (Sync._calculate_md5 p Sync.blocksize) w Φ.
Proof.
  intros Hp Hfile H. unfold Sync._calculate_md5. cbv zeta.
  assert (0 < Sync.blocksize) as Hbs by (unfold Sync.blocksize; lia).
  wp_step. wp_step. wp_step. apply (wp_open_rb_ok _ data); [done..|].
  wp_step. unfold read. wp_step. apply wp_next_fault; [|by rewrite Hp].
  intros _. wp_step. wp_step. apply wp_run.
  destruct (md5_loop_spec p Sync.blocksize Hbs (length data) md5 data w
              (le_n _)) as (Hl & _ & Hok & _).
  rewrite Hp, take_nil in Hok.
  destruct Hok as [Ho Hw]; [by intros ?%elem_of_nil|].
  rewrite drop_nil, <- Hp, set_plan_id in Hw.
  rewrite Ho, Hl, Hw. by repeat wp_step.
Qed.

End digest.

Lemma os_walk_rels w top :
  is_dir w top = true →
  ∃ rels, os_walk w top = (top ++.) <$> rels ∧ NoDup rels ∧
          Forall (λ rel, rel ≠ []) rels ∧
          ∀ rel, rel ∈ rels ↔ rel ≠ [] ∧ is_Some (files w !! (top ++ rel)).
Proof.
  intros Hdir.
  assert (∀ f, f ∈ os_walk w top ↔
               is_Some (files w !! f) ∧ top `prefix_of` f ∧ f ≠ top) as Hin.
  { intros f. unfold os_walk.
    rewrite Hdir, walk_sort_Permutation, list_elem_of_In, filter_In.
    rewrite <- list_elem_of_In, bool_decide_eq_true, list_elem_of_fmap.
    split.
    - intros [([q x] & -> & Hx%elem_of_map_to_list) ?]. split; [|done].
      by exists x.
    - intros [[x Hx] ?]. split; [|done]. exists (f, x). split; [done|].
      by apply elem_of_map_to_list. }
  assert (NoDup (os_walk w top)) as Hnd.
  { unfold os_walk. rewrite Hdir, walk_sort_Permutation.
    apply NoDup_ListNoDup, List.NoDup_filter, NoDup_ListNoDup.
    apply NoDup_fst_map_to_list. }
  assert (∀ f, f ∈ os_walk w top → top ++ drop (length top) f = f) as Hdrop.
  { intros f (_ & [rel ->] & _)%Hin. by rewrite drop_app_length. }
  exists (drop (length top) <$> os_walk w top). split_and!.
  - rewrite <- list_fmap_compose.
    rewrite <- (list_fmap_id (os_walk w top)) at 1.
    apply Forall_fmap_ext_1, Forall_forall. intros f Hf. symmetry.
    by apply Hdrop.
  - apply NoDup_fmap_2_strong; [|done]. intros x y Hx Hy Heq.
    rewrite <- (Hdrop x Hx), <- (Hdrop y Hy). by rewrite Heq.
  - apply Forall_fmap, Forall_forall. intros f Hf. simpl.
    pose proof (Hdrop f Hf) as Hd. apply Hin in Hf as (_ & _ & Hne).
    intros Hnil. rewrite Hnil, app_nil_r in Hd. by rewrite Hd in Hne.
  - intros rel. rewrite list_elem_of_fmap. split.
    + intros (f & -> & Hf). pose proof (Hdrop f Hf) as Hd.
      apply Hin in Hf as (Hsome & _ & Hne). rewrite Hd. split; [|done].
      intros Hnil. rewrite Hnil, app_nil_r in Hd. by rewrite Hd in Hne.
    + intros [Hne Hsome]. exists (top ++ rel). split.
      * by rewrite drop_app_length.
      * apply Hin. split_and!; [done|by eexists|].
        intros Heq. apply Hne.
        apply (app_inv_head top). by rewrite app_nil_r.
Qed.

Section exact_transfer.
Context `{HL : Hashlib}.
Context (self : list task) (i : nat) (src_dir dst_dir : path) (mode : string).
Context (Hapart1 : ¬ src_dir `prefix_of` dst_dir).
Context (Hapart2 : ¬ dst_dir `prefix_of` src_dir).

Lemma apart_ne a b : dst_dir ++ a ≠ src_dir ++ b.
Proof.
  intros Heq.
  destruct (prefix_weak_total src_dir dst_dir (dst_dir ++ a)) as [?|?];
    [rewrite Heq; by eexists|by eexists|done..].
Qed.

Lemma for_each_file_exact total : ∀ rels file_idx w,
  undisturbed w → NoDup rels → Forall (λ rel, rel ≠ []) rels →
  (∀ r1 r2, r1 ∈ rels → r2 ∈ rels → r1 `prefix_of` r2 → r1 = r2) →
  (∀ rel, rel ∈ rels →
     is_Some (files w !! (src_dir ++ rel)) ∧ (dst_dir ++ rel ∉ dirs w) ∧
     no_file_above (files w) (dst_dir ++ rel)) →
  wp (Sync.for_each_file self i src_dir dst_dir mode total file_idx
        ((src_dir ++.) <$> rels)) w
    (λ o w' _, o = Ok Sync.Next ∧ undisturbed w' ∧
       (∀ rel data, rel ∈ rels → files w !! (src_dir ++ rel) = Some data →
          files w' !! (dst_dir ++ rel) = Some data ∧
          files w' !! (src_dir ++ rel)
            = (if String.eqb mode "verify_and_delete" then None
               else Some data)) ∧
       (∀ p, (∀ rel, rel ∈ rels → p ≠ dst_dir ++ rel ∧ p ≠ src_dir ++ rel) →
             files w' !! p = files w !! p)).
Proof.
  induction rels as [|rel rest IH]; intros file_idx w Hw Hnd Hne Hpf Hrels;
    cbn [fmap list_fmap Sync.for_each_file].
  { wp_step. split_and!; [done|done| |done]. by intros ?? ?%elem_of_nil. }
  pose proof Hw as (Hp & Hrun & Hstop).
  apply NoDup_cons in Hnd as [Hnotin Hnd].
  apply Forall_cons in Hne as [Hrel Hne].
  destruct (Hrels rel) as ([data Hdata] & Hnodir & Hnofile); [left|].
  cbv zeta. rewrite relpath_app.
  set (f := src_dir ++ rel) in *. set (d := dst_dir ++ rel) in *.
  assert (d ≠ f) as Hdf by apply apart_ne.
  assert (d ≠ []) as Hd0.
  { unfold d. intros [_ ?]%app_eq_nil. done. }
  set (D1 := list_to_set (ancestors (dirname d)) ∪ dirs w : gset path).
  set (m1 := (if String.eqb mode "verify_and_delete" then delete f else id)
               (<[d := data]> (files w))).
  assert (∀ p, p ≠ d → p ≠ f → m1 !! p = files w !! p) as Hm1.
  { intros p Hpd Hpf'. unfold m1. destruct (String.eqb _ _); simpl;
      rewrite ?lookup_delete_ne, lookup_insert_ne; done. }
  assert (m1 !! d = Some data) as Hm1d.
  { unfold m1. destruct (String.eqb _ _); simpl;
      rewrite ?lookup_delete_ne, lookup_insert_eq; done. }
  assert (m1 !! f = (if String.eqb mode "verify_and_delete" then None
                     else Some data)) as Hm1f.
  { unfold m1. destruct (String.eqb _ _); simpl;
      [by rewrite lookup_delete_eq|by rewrite lookup_insert_ne]. }
  assert (∀ rel', rel' ∈ rest → rel' ≠ rel) as Hother.
  { intros rel' Hin ->. done. }
  (* the rest of the loop, from the machine the first file leaves *)
  assert (∀ w4, undisturbed w4 → files w4 = m1 → dirs w4 = D1 →
            wp (Sync.for_each_file self i src_dir dst_dir mode total
                  (S file_idx) ((src_dir ++.) <$> rest)) w4
              (λ o w' _, o = Ok Sync.Next ∧ undisturbed w' ∧
                 (∀ rel0 data0, rel0 ∈ rel :: rest →
                    files w !! (src_dir ++ rel0) = Some data0 →
                    files w' !! (dst_dir ++ rel0) = Some data0 ∧
                    files w' !! (src_dir ++ rel0)
                      = (if String.eqb mode "verify_and_delete" then None
                         else Some data0)) ∧
                 (∀ p, (∀ rel0, rel0 ∈ rel :: rest →
                          p ≠ dst_dir ++ rel0 ∧ p ≠ src_dir ++ rel0) →
                       files w' !! p = files w !! p))) as Htail.
  { intros w4 Hw4 Hf4 Hd4.
    assert (∀ rel', rel' ∈ rest →
              files w4 !! (src_dir ++ rel') = files w !! (src_dir ++ rel'))
      as Hsrc4.
    { intros rel' Hin. rewrite Hf4. apply Hm1.
      - intros Heq. by apply (apart_ne rel rel').
      - intros Heq%app_inv_head. by apply (Hother rel'). }
    eapply wp_mono.
    { apply (IH (S file_idx) w4); [done|done|done| |].
      - intros r1 r2 H1 H2. apply Hpf; by right.
      - intros rel' Hin.
        destruct (Hrels rel') as (Hsome' & Hnodir' & Hnofile'); [by right|].
        split_and!.
        + by rewrite Hsrc4.
        + rewrite Hd4. unfold D1. intros [Hanc|Hold]%elem_of_union; [|done].
          apply elem_of_list_to_set, elem_of_ancestors in Hanc as [Hanc _].
          apply (Hother rel' Hin). apply Hpf; [by right|left|].
          apply (prefix_app_inv dst_dir). etrans; [exact Hanc|].
          apply dirname_prefix.
        + intros q Hq Hqne. rewrite Hf4.
          destruct (decide (q = d)) as [->|Hqd].
          { exfalso. apply (Hother rel' Hin). symmetry.
            apply Hpf; [left|by right|]. by apply (prefix_app_inv dst_dir). }
          destruct (decide (q = f)) as [->|Hqf].
          { pose proof (Hnofile' f Hq Hqne) as Hnone. congruence. }
          rewrite Hm1 by done. by apply Hnofile'. }
    intros o w' _ (-> & Hw' & Ha & Hc).
    assert (files w' !! d = Some data) as Hd'.
    { rewrite Hc, Hf4; [done|]. intros rel' Hin. split.
      - intros Heq%app_inv_head. by apply (Hother rel').
      - apply apart_ne. }
    assert (files w' !! f = (if String.eqb mode "verify_and_delete" then None
                             else Some data)) as Hf'.
    { rewrite Hc, Hf4; [done|]. intros rel' Hin. split.
      - intros Heq. by apply (apart_ne rel' rel).
      - intros Heq%app_inv_head. by apply (Hother rel'). }
    split_and!; [done|done| |].
    - intros rel0 data0 [->|Hin]%elem_of_cons Hdata0.
      + fold f in Hdata0. fold f d. by simplify_eq.
      + apply Ha; [done|]. by rewrite Hsrc4.
    - intros p Hpall.
      destruct (Hpall rel) as [Hpd Hpf']; [left|].
      rewrite Hc; [rewrite Hf4; by apply Hm1|].
      intros rel' Hin. apply Hpall. by right. }
  wp_step. apply wp_mutex_lock_quiet; [done|].
  wp_step. apply wp_read_flag. rewrite Hrun. cbn [negb].
  wp_step. unfold mutex_unlock. wp_step.
  wp_step. apply wp_os_makedirs_ok; [done| |].
  { apply find_is_file_none. intros q Hq. apply Hnofile.
    - etrans; [exact Hq|apply dirname_prefix].
    - intros ->. apply prefix_length in Hq.
      pose proof (dirname_shorter d Hd0). lia. }
  fold D1. set (w2 := set_dirs D1 w).
  do 3 wp_step. apply (wp_shutil_copy2_ok _ _ data); [done|done| |done| |].
  { unfold is_dir. apply bool_decide_eq_false. intros [?|Hin]; [done|].
    simpl in Hin. unfold D1 in Hin.
    apply elem_of_union in Hin as [Hanc|Hold]; [|done].
    apply elem_of_list_to_set, elem_of_ancestors in Hanc as [Hanc _].
    apply prefix_length in Hanc. pose proof (dirname_shorter d Hd0). lia. }
  { apply is_dir_makedirs. }
  set (w3 := set_files (<[d := data]> (files w2)) w2).
  do 3 wp_step. apply (wp_calculate_md5_ok _ data);
    [done|simpl; by rewrite lookup_insert_ne|].
  wp_step. apply (wp_calculate_md5_ok _ data);
    [done|simpl; by rewrite lookup_insert_eq|].
  rewrite String.eqb_refl. cbn [negb].
  wp_step. destruct (String.eqb mode "verify_and_delete") eqn:Hmode.
  - wp_step. wp_step. apply wp_os_remove_ok;
      [done|simpl; rewrite lookup_insert_ne by done; by rewrite Hdata|].
    wp_step. wp_step. by apply Htail.
  - wp_step. wp_step. wp_step. by apply Htail.
Qed.

End exact_transfer.

Lemma ends_with_app (l1 l2 : list event) e :
  (∃ pre, l2 = pre ++ [e]) → ∃ pre, l1 ++ l2 = pre ++ [e].
Proof. intros [pre ->]. exists (l1 ++ pre). by rewrite app_assoc. Qed.

(** The last event of a log built by appending. *)
Ltac log_end := repeat apply ends_with_app; by exists [].

Section exact_task.
Context `{HL : Hashlib}.

(** X12. An undisturbed task of the batch worker transfers the tree: when
    source and destination directory do not contain one another, no
    regular file lies where a directory of the destination is needed and no
    directory where a file is to be written, then every file below the
    source is at the same relative path below the destination with its
    content, the source files are removed in mode verify_and_delete and
    kept otherwise, every other path is as before, and the task reports
    success. *)
Theorem batch_transfer_is_exact self i src_dir dst_dir mode w :
  undisturbed w →
  is_dir w src_dir = true →
  ¬ src_dir `prefix_of` dst_dir → ¬ dst_dir `prefix_of` src_dir →
  tree_like (files w) →
  (∀ q, q `prefix_of` dst_dir → files w !! q = None) →
  (∀ rel, rel ≠ [] → is_Some (files w !! (src_dir ++ rel)) →
          (dst_dir ++ rel ∉ dirs w) ∧
          no_file_above (files w) (dst_dir ++ rel)) →
  let r := Sync._process_directory self i src_dir dst_dir mode w in
  out r = Ok tt ∧
  (∀ rel data, rel ≠ [] → files w !! (src_dir ++ rel) = Some data →
     files (world r) !! (dst_dir ++ rel) = Some data ∧
     files (world r) !! (src_dir ++ rel)
       = (if String.eqb mode "verify_and_delete" then None else Some data)) ∧
  (∀ p, (∀ rel, rel ≠ [] → is_Some (files w !! (src_dir ++ rel)) →
                p ≠ dst_dir ++ rel ∧ p ≠ src_dir ++ rel) →
        files (world r) !! p = files w !! p) ∧
  ∃ pre msg, log r = pre ++ [operation_finished i true msg].
Proof.
  intros Hw Hdir Hapart1 Hapart2 Htree Hdst Hland r. subst r. apply wp_run.
  pose proof Hw as (Hp & Hrun & Hstop).
  unfold Sync._process_directory. wp_step. wp_step. unfold id.
  unfold os_path_exists. rewrite Hdir, orb_true_r. cbn [negb].
  wp_step. apply wp_os_makedirs_ok; [done|by apply find_is_file_none|].
  set (w1 := set_dirs (list_to_set (ancestors dst_dir) ∪ dirs w) w).
  assert (is_dir w1 src_dir = true) as Hdir1.
  { unfold is_dir in *. apply bool_decide_eq_true.
    apply bool_decide_eq_true in Hdir as [?|?]; [by left|right].
    simpl. by apply elem_of_union_r. }
  destruct (os_walk_rels w1 src_dir Hdir1)
    as (rels & Hwalk & Hnd & Hne & Hin).
  change (files w1) with (files w) in Hin.
  wp_step. wp_step. unfold id. cbv zeta. rewrite Hwalk.
  case_bool_decide as Hempty.
  { apply wp_emit_operation_finished; [|done].
    intros w2 (Hf2 & _) _. rewrite length_fmap in Hempty.
    apply nil_length_inv in Hempty. subst rels.
    split_and!; [done| |by simpl; rewrite Hf2|].
    2:{ match goal with
        | |- ∃ pre msg, ?l = _ =>
            enough (∃ pre, l = pre ++ [operation_finished i true
                      "Source directory is empty. Operation successful."])
              as [pre Hpre] by (eexists pre, _; exact Hpre)
        end.
        log_end. }
    intros rel data Hrel Hdata.
    assert (rel ∈ []) as ?%elem_of_nil; [|done].
    apply Hin. by rewrite Hdata. }
  wp_step. eapply wp_mono.
  { apply (for_each_file_exact self i src_dir dst_dir mode Hapart1 Hapart2);
      [done|done|done| |].
    - intros r1 r2 [_ H1]%Hin [_ H2]%Hin Hpre.
      apply (app_inv_head src_dir). apply Htree; [done..|].
      by apply prefix_app.
    - intros rel [Hrel Hsome]%Hin.
      destruct (Hland rel Hrel Hsome) as [Hnodir Hnofile].
      split_and!; [done| |done].
      simpl. intros [Hanc|Hold]%elem_of_union; [|done].
      apply elem_of_list_to_set, elem_of_ancestors in Hanc as [Hanc _].
      apply prefix_length in Hanc. rewrite length_app in Hanc.
      destruct rel; [done|simpl in Hanc; lia]. }
  intros o w2 l2 (-> & Hw2 & Ha & Hc).
  apply wp_emit_operation_finished; [|done].
  intros w3 (Hf3 & _) _.
  split_and!; [done| | |].
  - intros rel data Hrel Hdata. rewrite Hf3. apply Ha; [|done].
    apply Hin. by rewrite Hdata.
  - intros p Hpall. rewrite Hf3, Hc; [done|].
    intros rel [Hrel Hsome]%Hin. by apply Hpall.
  - match goal with
    | |- ∃ pre msg, ?l = _ =>
        enough (∃ pre, l = pre ++ [operation_finished i true
                  ("Operation **" +:+ mode +:+ "** successful.")])
          as [pre Hpre] by (eexists pre, _; exact Hpre)
    end.
    log_end.
Qed.

End exact_task.

(** ** Cancellation while a file is in flight *)

Section in_flight.
Context `{HL : Hashlib}.


End in_flight.



(** ** Corner cases of a batch task *)

Lemma os_walk_more_dirs (w : World) (top : path) (new : gset path) :
  (is_dir w top = false → top ∉ new) →
  os_walk (set_dirs (new ∪ dirs w) w) top = os_walk w top.
Proof.
  intros Htop. unfold os_walk. simpl files.
  destruct (is_dir w top) eqn:Hdir.
  - replace (is_dir (set_dirs (new ∪ dirs w) w) top) with true; [done|].
    symmetry. unfold is_dir in *. apply bool_decide_eq_true.
    apply bool_decide_eq_true in Hdir as [?|?]; [by left|right].
    simpl. by apply elem_of_union_r.
  - replace (is_dir (set_dirs (new ∪ dirs w) w) top) with false; [done|].
    symmetry. unfold is_dir in *. apply bool_decide_eq_false.
    apply bool_decide_eq_false in Hdir. simpl.
    intros [?|[?|?]%elem_of_union]; [tauto|by apply Htop|tauto].
Qed.

Section edges.
Context `{HL : Hashlib}.

(** X13. A source without files: the task makes the destination directory and
    reports success; this is also what happens when the source path is a
    regular file. *)
Theorem empty_source_is_a_success self i src_dir dst_dir mode w :
  plan w = [] →
  os_path_exists w src_dir = true → os_walk w src_dir = [] →
  (∀ q, q `prefix_of` dst_dir → files w !! q = None) →
  let r := Sync._process_directory self i src_dir dst_dir mode w in
  out r = Ok tt ∧ files (world r) = files w ∧
  dirs (world r) = list_to_set (ancestors dst_dir) ∪ dirs w ∧
  log r = [Makedirs dst_dir;
           operation_finished i true
             "Source directory is empty. Operation successful."].
Proof.
  intros Hp Hex Hwalk Hdst r. subst r. apply wp_run.
  unfold Sync._process_directory. wp_step. wp_step. unfold id.
  rewrite Hex. cbn [negb].
  wp_step. apply wp_os_makedirs_ok; [done|by apply find_is_file_none|].
  wp_step. wp_step. unfold id. cbv zeta.
  rewrite os_walk_more_dirs, Hwalk.
  2:{ intros Hnodir Hanc.
      apply elem_of_list_to_set, elem_of_ancestors in Hanc as [Hanc _].
      unfold os_path_exists in Hex. rewrite Hnodir, orb_false_r in Hex.
      unfold is_file in Hex. apply bool_decide_eq_true in Hex as [x Hx].
      rewrite (Hdst _ Hanc) in Hx. done. }
  rewrite bool_decide_eq_true_2 by done.
  apply wp_emit_operation_finished; [|done].
  intros w2 (Hf2 & Hd2 & _) _. by split_and!.
Qed.

(** X14. Source and destination are one directory: the copy of the first
    file raises SameFileError, which leaves [_process_directory] (for [run]
    to report); no file is changed, none is copied and none is removed. *)
Theorem same_directory_is_an_error self i d mode w f :
  plan w = [] → is_running w = true → stop_after w = None →
  head (os_walk w d) = Some f → f ∉ dirs w → no_file_above (files w) f →
  let r := Sync._process_directory self i d d mode w in
  out r = Raise (SameFileError f f) ∧ files (world r) = files w ∧
  Forall (λ e, match e with Copy2 _ _ | Remove _ => False | _ => True end)
    (log r).
Proof.
  intros Hp Hrun Hstop Hhead Hnodir Hnofile r. subst r. apply wp_run.
  destruct (os_walk w d) as [|f' rest] eqn:Hwalk; [done|].
  injection Hhead as ->.
  assert (is_dir w d = true) as Hdir.
  { unfold os_walk in Hwalk. by destruct (is_dir w d). }
  destruct (os_walk_rels w d Hdir) as (rels & Hrels & _ & _ & Hin).
  rewrite Hwalk in Hrels. destruct rels as [|rel rels]; [done|].
  injection Hrels as -> _.
  destruct (Hin rel) as [[Hrel [data Hdata]] _]; [left|].
  assert (length d < length (d ++ rel)) as Hlen.
  { rewrite length_app. destruct rel; [done|simpl; lia]. }
  assert (d ++ rel ≠ []) as Hf0 by (intros [_ ?]%app_eq_nil; done).
  unfold Sync._process_directory. wp_step. wp_step. unfold id.
  unfold os_path_exists. rewrite Hdir, orb_true_r. cbn [negb].
  wp_step. apply wp_os_makedirs_ok; [done| |].
  { apply find_is_file_none. intros q Hq. apply Hnofile.
    - etrans; [exact Hq|by eexists].
    - intros ->. apply prefix_length in Hq. lia. }
  wp_step. wp_step. unfold id. cbv zeta.
  rewrite os_walk_more_dirs, Hwalk by congruence.
  rewrite bool_decide_eq_false_2 by done.
  wp_step. cbn [Sync.for_each_file]. cbv zeta. rewrite relpath_app.
  wp_step. apply wp_mutex_lock_quiet; [done|].
  wp_step. apply wp_read_flag. simpl is_running. rewrite Hrun. cbn [negb].
  wp_step. unfold mutex_unlock. wp_step.
  wp_step. apply wp_os_makedirs_ok; [done| |].
  { apply find_is_file_none. intros q Hq. simpl files. apply Hnofile.
    - etrans; [exact Hq|apply dirname_prefix].
    - intros ->. apply prefix_length in Hq.
      pose proof (dirname_shorter (d ++ rel) Hf0). lia. }
  do 3 wp_step. unfold shutil_copy2. wp_step.
  apply wp_next_fault; [|simpl; by rewrite Hp]. intros _.
  wp_step. wp_step. unfold id. simpl files. rewrite Hdata. cbv zeta.
  assert (is_dir (set_dirs
                    (list_to_set (ancestors (dirname (d ++ rel)))
                     ∪ dirs (set_dirs (list_to_set (ancestors d) ∪ dirs w) w))
                    (set_dirs (list_to_set (ancestors d) ∪ dirs w) w))
            (d ++ rel) = false) as Hnotdir.
  { unfold is_dir. apply bool_decide_eq_false. simpl.
    intros [?|[Hanc|[Hanc|?]%elem_of_union]%elem_of_union]; [done| | |done].
    - apply elem_of_list_to_set, elem_of_ancestors in Hanc as [Hanc _].
      apply prefix_length in Hanc.
      pose proof (dirname_shorter (d ++ rel) Hf0). lia.
    - apply elem_of_list_to_set, elem_of_ancestors in Hanc as [Hanc _].
      apply prefix_length in Hanc. lia. }
  rewrite Hnotdir. cbv iota. rewrite bool_decide_eq_true_2 by done.
  wp_step. split_and!; [done|done|by repeat constructor].
Qed.

End edges.

(** ** What an undisturbed throttled copy leaves *)

(** X1. An undisturbed run of the throttled worker copies exactly: with no
    fault and no stop request, a source that is a regular file, a different
    destination that is no directory and whose parent is one, [run] returns,
    the destination holds the content of the source, the source is removed
    by a move and kept by a copy, every other file and the directories are
    as before, and the log ends with the success message and [finished]. *)
Theorem throttled_copy_is_exact self data w :
  plan w = [] → is_running w = true → stop_after w = None →
  files w !! src_path self = Some data →
  src_path self ≠ dest_path self →
  is_dir w (dest_path self) = false →
  is_dir w (dirname (dest_path self)) = true →
  let r := run self w in
  out r = Ok tt ∧
  files (world r)
    = (if String.eqb (operation self) "move" then delete (src_path self)
       else id) (<[dest_path self := data]> (files w)) ∧
  dirs (world r) = dirs w ∧
  ∃ pre, log r = pre ++ [status_message
                           ("Operation complete: "
                            +:+ capitalize (operation self) +:+ " successful.");
                         finished].
Proof.
  intros H1 H2 H3 H4 H5 H6 H7 r.
  destruct (run_undisturbed self data w H1 H2 H3 H4 H5 H6 H7)
    as (? & ? & ? & _ & _ & ?).
  done.
Qed.

(** X2. In an undisturbed run the progress reaches 100 when the source is
    not empty; for an empty source neither a progress nor a throughput
    signal is emitted at all. *)
Theorem progress_reaches_the_end self data w :
  plan w = [] → is_running w = true → stop_after w = None →
  files w !! src_path self = Some data →
  src_path self ≠ dest_path self →
  is_dir w (dest_path self) = false →
  is_dir w (dirname (dest_path self)) = true →
  let r := run self w in
  (data ≠ [] → progress_update 100 ∈ log r) ∧
  (data = [] → Forall silent (log r)).
Proof.
  intros H1 H2 H3 H4 H5 H6 H7 r.
  destruct (run_undisturbed self data w H1 H2 H3 H4 H5 H6 H7)
    as (_ & _ & _ & ? & ? & _).
  done.
Qed.

Lemma throttled_copy_is_exact_witness :
  let r := run Sample.move_a Sample.machine in
  out r = Ok tt ∧
  files (world r)
    = delete ["src"; "a.txt"]
        (<[["a.bak"] := Sample.text "hello"]> (files Sample.machine)) ∧
  dirs (world r) = dirs Sample.machine ∧
  ∃ pre, log r = pre ++ [status_message "Operation complete: Move successful.";
                         finished].
Proof.
  exact (throttled_copy_is_exact Sample.move_a (Sample.text "hello")
           Sample.machine eq_refl eq_refl eq_refl eq_refl
           ltac:(discriminate) eq_refl eq_refl).
Defined.

Lemma progress_reaches_the_end_witness :
  let r := run Sample.move_a Sample.machine in
  (Sample.text "hello" ≠ [] → progress_update 100 ∈ log r) ∧
  (Sample.text "hello" = [] → Forall silent (log r)).
Proof.
  exact (progress_reaches_the_end Sample.move_a (Sample.text "hello")
           Sample.machine eq_refl eq_refl eq_refl eq_refl
           ltac:(discriminate) eq_refl eq_refl).
Defined.

(** ** The properties at the sample inputs *)

Lemma source_survives_unless_moved_witness :
  let self := Sample.move_a in
  let r := run self Corner.write_fails in
  files (world r) !! src_path self = Some (Sample.text "hello") ∨
  (operation self = "move" ∧ files (world r) !! src_path self = None ∧
   ∃ pre, log r = pre ++ [Remove (src_path self);
                          status_message
                            "Source file deleted (Move operation complete).";
                          status_message "Operation complete: Move successful.";
                          finished]).
Proof.
  exact (source_survives_unless_moved Sample.move_a (Sample.text "hello")
           Corner.write_fails eq_refl ltac:(discriminate)).
Defined.

Lemma missing_source_touches_nothing_witness :
  let self := Corner.copy_nothing in
  let r := run self Sample.machine in
  out r = Ok tt ∧ files (world r) = files Sample.machine ∧
  dirs (world r) = dirs Sample.machine ∧
  (is_running Sample.machine = true → stop_after Sample.machine ≠ Some 0 →
   ∃ pre e, log r = pre ++ [error_occurred
                              ("Error during " +:+ operation self +:+ ": "
                               +:+ exn_str e);
                            finished]).
Proof.
  exact (missing_source_touches_nothing Corner.copy_nothing Sample.machine
           eq_refl).
Defined.

Lemma same_file_is_destroyed_witness :
  let self := Corner.copy_onto_itself in
  let r := run self Sample.machine in
  out r = Ok tt ∧
  files (world r) = <[["src"; "a.txt"] := []]> (files Sample.machine) ∧
  Forall silent (log r) ∧
  ∃ pre, log r = pre ++ [status_message "Operation complete: Copy successful.";
                         finished].
Proof.
  exact (same_file_is_destroyed Corner.copy_onto_itself (Sample.text "hello")
           Sample.machine eq_refl eq_refl eq_refl eq_refl eq_refl eq_refl
           eq_refl).
Defined.

(** The files of the sample disk. *)
Lemma disk_lookup p x :
  Sample.disk !! p = Some x →
  (p = ["src"; "a.txt"] ∧ x = Sample.text "hello") ∨
  (p = ["src"; "sub"; "b.txt"] ∧ x = Sample.text "world!").
Proof.
  unfold Sample.disk.
  intros [[<- <-]|[_ [[<- <-]|[_ H]]%lookup_insert_Some]]%lookup_insert_Some;
    [by left|by right|by rewrite lookup_empty in H].
Qed.

Lemma disk_tree_like : tree_like Sample.disk.
Proof.
  intros p q [x [[-> _]|[-> _]]%disk_lookup] [y [[-> _]|[-> _]]%disk_lookup]
    [k Hk]; by simplify_eq.
Qed.

Lemma batch_transfer_is_exact_witness :
  let w := Sample.machine in
  let r := Sync._process_directory [Sample.secure_move] 0 ["src"] ["dst"]
             "verify_and_delete" w in
  out r = Ok tt ∧
  (∀ rel data, rel ≠ [] → files w !! (["src"] ++ rel) = Some data →
     files (world r) !! (["dst"] ++ rel) = Some data ∧
     files (world r) !! (["src"] ++ rel) = None) ∧
  (∀ p, (∀ rel, rel ≠ [] → is_Some (files w !! (["src"] ++ rel)) →
                p ≠ ["dst"] ++ rel ∧ p ≠ ["src"] ++ rel) →
        files (world r) !! p = files w !! p) ∧
  ∃ pre msg, log r = pre ++ [operation_finished 0 true msg].
Proof.
  refine (batch_transfer_is_exact (HL := concat_hashlib)
            [Sample.secure_move] 0 ["src"] ["dst"] "verify_and_delete"
            Sample.machine _ eq_refl _ _ disk_tree_like _ _).
  - by split_and!.
  - intros [k Hk]. discriminate.
  - intros [k Hk]. discriminate.
  - intros q [k Hk]. destruct q as [|a [|b q]]; simplify_eq/=; by vm_compute.
  - intros rel Hrel [x Hx]. simpl in Hx.
    apply disk_lookup in Hx as [[Hx _]|[Hx _]]; simplify_eq; split.
    + intros [?|?%elem_of_singleton]%elem_of_union;
        [by apply elem_of_singleton in H|done].
    + intros q [k Hk] Hne.
      destruct q as [|a [|b [|c q]]]; simplify_eq/=; by vm_compute.
    + intros [?|?%elem_of_singleton]%elem_of_union;
        [by apply elem_of_singleton in H|done].
    + intros q [k Hk] Hne.
      destruct q as [|a [|b [|c [|e q]]]]; simplify_eq/=; by vm_compute.
Defined.

Lemma empty_source_is_a_success_witness :
  let w := Sample.machine in
  let r := Sync._process_directory [Sample.secure_move] 0 ["src"; "a.txt"]
             ["dst"] "verify_and_delete" w in
  out r = Ok tt ∧ files (world r) = files w ∧
  dirs (world r) = list_to_set (ancestors ["dst"]) ∪ dirs w ∧
  log r = [Makedirs ["dst"];
           operation_finished 0 true
             "Source directory is empty. Operation successful."].
Proof.
  refine (empty_source_is_a_success (HL := concat_hashlib)
            [Sample.secure_move] 0 ["src"; "a.txt"] ["dst"]
            "verify_and_delete" Sample.machine eq_refl _ _ _).
  - by vm_compute.
  - by vm_compute.
  - intros q [k Hk]. destruct q as [|a [|b q]]; simplify_eq/=; by vm_compute.
Defined.

Lemma same_directory_is_an_error_witness :
  let w := Sample.one_file in
  let f := ["src"; "a.txt"] in
  let r := Sync._process_directory [Sample.secure_move] 0 ["src"] ["src"]
             "verify_and_delete" w in
  out r = Raise (SameFileError f f) ∧ files (world r) = files w ∧
  Forall (λ e, match e with Copy2 _ _ | Remove _ => False | _ => True end)
    (log r).
Proof.
  refine (same_directory_is_an_error (HL := concat_hashlib)
            [Sample.secure_move] 0 ["src"] "verify_and_delete"
            Sample.one_file ["src"; "a.txt"] eq_refl eq_refl eq_refl _ _ _).
  - by vm_compute.
  - unfold Sample.one_file. simpl. by intros ?%elem_of_singleton.
  - intros q [k Hk] Hne.
    destruct q as [|a [|b [|c q]]]; simplify_eq/=; by vm_compute.
Defined.

(** ** The window of the throttled worker *)

Lemma pretty_N_char_not_R d : pretty_N_char d ≠ "R"%char.
Proof.
  destruct d as [|p]; [by cbv|].
  do 4 (try (destruct p as [p|p|]; try by cbv)).
Qed.

Lemma pretty_N_go_head x : ∀ s,
  (0 < x)%N → ∃ d s', pretty_N_go x s = String (pretty_N_char d) s'.
Proof.
  induction (N.lt_wf_0 x) as [x _ IH]. intros s Hx.
  rewrite pretty_N_go_step by done.
  destruct (decide (x `div` 10 = 0)%N) as [->|Hdiv].
  - rewrite pretty_N_go_0. by eexists _, _.
  - apply IH; [by apply N.div_lt|by apply N.neq_0_lt_0].
Qed.

Lemma string_app_assoc (s1 s2 s3 : string) :
  s1 +:+ (s2 +:+ s3) = (s1 +:+ s2) +:+ s3.
Proof.
  induction s1 as [|c s1 IH]; [done|].
  change (String c (s1 +:+ (s2 +:+ s3)) = String c ((s1 +:+ s2) +:+ s3)).
  by f_equal.
Qed.

Lemma prefix_head c s1 d s2 :
  c ≠ d → String.prefix (String c s1) (String d s2) = false.
Proof. intros Hne. simpl. by destruct (ascii_dec c d). Qed.

(** The text of a speed limit does not begin like a real-time sample. *)
Lemma speed_text_not_real_time (v : Z) rest :
  String.prefix "Real-time:" (pretty v +:+ rest) = false.
Proof.
  destruct v as [|p|p]; [done| |done].
  destruct (pretty_N_go_head (Npos p) "" ltac:(done)) as (d & s' & Hd).
  change (pretty (Z.pos p)) with (pretty_N_go (N.pos p) ""). rewrite Hd.
  change (String (pretty_N_char d) s' +:+ rest)
    with (String (pretty_N_char d) (s' +:+ rest)).
  apply prefix_head. intros Heq. by destruct (pretty_N_char_not_R d).
Qed.

Section window_facts.
Context (fixed2 : Q → string).

Abbreviation gui := ThrottleApp.FileTransferApp.

Lemma update_speed_label_tidy value (self : gui) :
  String.prefix "Real-time:" (ThrottleApp.speed_value_label self) = false →
  ThrottleApp._update_speed_label value self
  = Some (ThrottleApp.set_speed_value_label
            ((if bool_decide (value = 0%Z) then "Unlimited (Max Throttling)"
              else pretty value +:+ " MB/s") +:+ " (Real-time: N/A)") self).
Proof. intros H. unfold ThrottleApp._update_speed_label. by rewrite H. Qed.

Lemma speed_label_written (value : Z) rest :
  String.prefix "Real-time:"
    ((if bool_decide (value = 0%Z) then "Unlimited (Max Throttling)"
      else pretty value +:+ " MB/s") +:+ rest) = false.
Proof.
  case_bool_decide; [done|].
  rewrite <- string_app_assoc. apply speed_text_not_real_time.
Qed.

Lemma operation_finished_tidy (self : gui) :
  ThrottleApp.tidy self →
  ∃ self', ThrottleApp._operation_finished self = Some self' ∧
    ThrottleApp.tidy self' ∧
    ThrottleApp.worker_thread self' = Some false ∧
    ThrottleApp._is_running self' = false ∧
    ThrottleApp.start_btn self' = true ∧ ThrottleApp.stop_btn self' = false ∧
    ThrottleApp.src_input self' = true ∧ ThrottleApp.dest_input self' = true ∧
    ThrottleApp.src_btn self' = true ∧ ThrottleApp.dest_btn self' = true ∧
    ThrottleApp.operation_combo self' = true ∧
    ThrottleApp.speed_slider_enabled self' = true ∧
    ThrottleApp.speed_slider self' = ThrottleApp.speed_slider self ∧
    ThrottleApp.progress_bar self' = ThrottleApp.progress_bar self ∧
    ThrottleApp.status_label self' = ThrottleApp.status_label self ∧
    ThrottleApp.speed_value_label self'
    = (if bool_decide (ThrottleApp.speed_slider self = 0%Z)
       then "Unlimited (Max Throttling)"
       else pretty (ThrottleApp.speed_slider self) +:+ " MB/s")
      +:+ " (Real-time: N/A)".
Proof.
  intros [[running Hth] Hlabel]. unfold ThrottleApp._operation_finished.
  rewrite Hth. cbn [mbind option_bind]. rewrite update_speed_label_tidy by done.
  eexists. split; [done|]. cbn. split_and!; try done.
  split; [done|]. apply speed_label_written.
Qed.

Lemma slot_tidy e (self : gui) :
  ThrottleApp.tidy self →
  ∃ self', ThrottleApp.slot fixed2 e self = Some self' ∧
    ThrottleApp.tidy self' ∧
    ThrottleApp.speed_slider self' = ThrottleApp.speed_slider self.
Proof.
  intros Htidy. destruct e; simpl; try (by eexists).
  - destruct (operation_finished_tidy self) as (self' & Hs & Ht & H); [done|].
    exists self'. by intuition.
  - eexists. split; [done|]. split; [|done]. split; [apply Htidy|].
    unfold ThrottleApp._update_real_time_speed. cbn.
    case_bool_decide; [|done]. rewrite <- string_app_assoc.
    apply speed_text_not_real_time.
  - lazymatch goal with
    | |- context [ThrottleApp._handle_error ?m self] =>
        destruct (operation_finished_tidy
                    (ThrottleApp.set_status_label ("Error: " +:+ m) self))
          as (self' & Hs & Ht & H); [done|]
    end.
    exists self'. unfold ThrottleApp._handle_error. by intuition.
Qed.

Lemma deliver_app l1 l2 (self : gui) :
  ThrottleApp.deliver fixed2 (l1 ++ l2) self
  = ThrottleApp.deliver fixed2 l1 self ≫= ThrottleApp.deliver fixed2 l2.
Proof.
  revert self. induction l1 as [|e l1 IH]; intros self; [done|].
  simpl. destruct (ThrottleApp.slot fixed2 e self); [apply IH|done].
Qed.

Lemma deliver_tidy l : ∀ self : gui,
  ThrottleApp.tidy self →
  ∃ self', ThrottleApp.deliver fixed2 l self = Some self' ∧
    ThrottleApp.tidy self' ∧
    ThrottleApp.speed_slider self' = ThrottleApp.speed_slider self.
Proof.
  induction l as [|e l IH]; intros self Htidy; [by eexists|].
  destruct (slot_tidy e self Htidy) as (self1 & Hs1 & Ht1 & Hv1).
  destruct (IH self1 Ht1) as (self2 & Hs2 & Ht2 & Hv2).
  exists self2. simpl. rewrite Hs1. simpl. split_and!; [done..|congruence].
Qed.

(** X16. Whatever happens in the worker, the window comes back: after the
    signals of a run have been delivered, no slot has raised, the thread is
    stopped, every control is enabled again but the cancel button, the
    slider has kept its value, and the label of the speed shows the limit
    without a real-time sample. *)
Theorem window_comes_back (fw : FileWorker) w (self : gui) :
  is_Some (ThrottleApp.worker_thread self) →
  String.prefix "Real-time:" (ThrottleApp.speed_value_label self) = false →
  ∃ self', ThrottleApp.deliver fixed2 (log (run fw w)) self = Some self' ∧
    ThrottleApp.worker_thread self' = Some false ∧
    ThrottleApp._is_running self' = false ∧
    ThrottleApp.start_btn self' = true ∧ ThrottleApp.stop_btn self' = false ∧
    ThrottleApp.src_input self' = true ∧ ThrottleApp.dest_input self' = true ∧
    ThrottleApp.src_btn self' = true ∧ ThrottleApp.dest_btn self' = true ∧
    ThrottleApp.operation_combo self' = true ∧
    ThrottleApp.speed_slider_enabled self' = true ∧
    ThrottleApp.speed_slider self' = ThrottleApp.speed_slider self ∧
    ThrottleApp.speed_value_label self'
    = (if bool_decide (ThrottleApp.speed_slider self = 0%Z)
       then "Unlimited (Max Throttling)"
       else pretty (ThrottleApp.speed_slider self) +:+ " MB/s")
      +:+ " (Real-time: N/A)".
Proof.
  intros Hth Hlabel.
  pose proof (run_footprint fw w) as H. apply wp_run in H.
  destruct H as (_ & _ & (pre & -> & _) & _).
  destruct (deliver_tidy pre self) as (self1 & Hs1 & Ht1 & Hv1); [done|].
  destruct (operation_finished_tidy self1 Ht1) as (self2 & Hs2 & _ & H).
  exists self2. rewrite deliver_app, Hs1. simpl. rewrite Hs2. simpl.
  rewrite <- Hv1. by intuition.
Qed.

End window_facts.

Lemma window_comes_back_witness :
  ∃ self', ThrottleApp.deliver (λ _, "0.00")
             (log (run Sample.move_a Sample.machine)) ThrottleApp.started
           = Some self' ∧
    ThrottleApp.worker_thread self' = Some false ∧
    ThrottleApp._is_running self' = false ∧
    ThrottleApp.start_btn self' = true ∧ ThrottleApp.stop_btn self' = false ∧
    ThrottleApp.src_input self' = true ∧ ThrottleApp.dest_input self' = true ∧
    ThrottleApp.src_btn self' = true ∧ ThrottleApp.dest_btn self' = true ∧
    ThrottleApp.operation_combo self' = true ∧
    ThrottleApp.speed_slider_enabled self' = true ∧
    ThrottleApp.speed_slider self' = 10%Z ∧
    ThrottleApp.speed_value_label self' = "10 MB/s (Real-time: N/A)".
Proof.
  exact (window_comes_back (λ _, "0.00") Sample.move_a Sample.machine
           ThrottleApp.started ltac:(by eexists) eq_refl).
Defined.

(** ** The window of the batch worker *)

Lemma string_app_empty (s : string) : s +:+ "" = s.
Proof.
  induction s as [|c s IH]; [done|].
  change (String c (s +:+ "") = String c s). by f_equal.
Qed.

Lemma stop_operations_fields reply (a : SyncApp.FileCopierApp) :
  SyncApp.task_list (SyncApp._stop_operations reply a) = SyncApp.task_list a ∧
  SyncApp.task_list_widget (SyncApp._stop_operations reply a)
  = SyncApp.task_list_widget a ∧
  (is_Some (SyncApp.worker_thread a) →
   is_Some (SyncApp.worker_thread (SyncApp._stop_operations reply a))).
Proof.
  unfold SyncApp._stop_operations.
  case_bool_decide; [|done]. destruct reply; [|done]. simpl.
  split_and!; [done..|]. by eexists.
Qed.

Lemma row_text_suffix k t : SyncApp.row_text k t
  = SyncApp.row_text k t +:+ "".
Proof. by rewrite string_app_empty. Qed.

Lemma update_task_list_ui_numbered (a : SyncApp.FileCopierApp) :
  SyncApp.numbered (SyncApp._update_task_list_ui a).
Proof.
  split; simpl.
  - by rewrite length_imap.
  - intros k t Hk. exists "". rewrite list_lookup_imap, Hk. simpl.
    by rewrite string_app_empty.
Qed.

(** X18. The rows of the list widget stay those of the queue: adding a
    task, removing a row, renumbering and marking a task as completed or
    failed keep every row [k] beginning with the number [k + 1] and the name
    of the task at position [k] of the queue. *)
Theorem rows_stay_numbered (a : SyncApp.FileCopierApp) :
  SyncApp.numbered a →
  (∀ task_data, SyncApp.numbered (SyncApp._add_task task_data a)) ∧
  (∀ selected, SyncApp.numbered (SyncApp._remove_task selected a)) ∧
  SyncApp.numbered (SyncApp._update_task_list_ui a) ∧
  (∀ i ok message reply a',
     SyncApp._handle_task_completion i ok message reply a = Some a' →
     SyncApp.numbered a' ∧ SyncApp.task_list a' = SyncApp.task_list a).
Proof.
  intros [Hlen Hrows]. split_and!.
  - intros [t|]; [|done]. split; simpl.
    + rewrite !length_app. simpl. lia.
    + intros k t' Hk. apply lookup_app_Some in Hk as [Hk|[Hge Hk]].
      * destruct (Hrows k t' Hk) as [suffix Hs]. exists suffix.
        by rewrite lookup_app_l by (by eapply lookup_lt_Some).
      * apply list_lookup_singleton_Some in Hk as [Hk ->].
        assert (k = length (SyncApp.task_list a)) as -> by lia.
        exists "". rewrite lookup_app_r by lia. rewrite Hlen, Nat.sub_diag.
        simpl. rewrite string_app_empty, length_app. simpl. done.
  - intros [|row rest]; [done|]. apply update_task_list_ui_numbered.
  - apply update_task_list_ui_numbered.
  - intros i ok message reply a' Ha'.
    unfold SyncApp._handle_task_completion in Ha'.
    case_bool_decide as Hi; [by simplify_eq|].
    destruct (SyncApp.task_list_widget a !! i) as [item|] eqn:Hitem;
      [|done].
    simpl in Ha'.
    assert (∀ text,
      (∃ suffix, text = item +:+ suffix) →
      SyncApp.numbered
        (SyncApp.mkFileCopierApp (SyncApp.task_list a)
           (SyncApp.worker_thread a) (SyncApp.current_task_index a)
           (<[i := text]> (SyncApp.task_list_widget a))
           (SyncApp.start_btn a) (SyncApp.stop_btn a)
           (SyncApp.current_file_label a) (SyncApp.status_detail_label a)
           (SyncApp.progress_bar a))) as Hmark.
    { intros text [suffix ->]. split; simpl; [by rewrite length_insert|].
      intros k t Hk. destruct (Hrows k t Hk) as [suffix0 Hs].
      destruct (decide (k = i)) as [->|Hne].
      - rewrite list_lookup_insert_eq by (rewrite Hlen; lia).
        rewrite Hitem in Hs. injection Hs as ->.
        exists (suffix0 +:+ suffix). by rewrite string_app_assoc.
      - rewrite list_lookup_insert_ne by done. by exists suffix0. }
    destruct ok; injection Ha' as <-.
    + split; [|done]. apply Hmark. by eexists.
    + match goal with
      | |- context [SyncApp._stop_operations ?r ?x] =>
          destruct (stop_operations_fields r x) as (Hq & Hw & _);
          assert (SyncApp.numbered x) as Hx by (apply Hmark; by eexists)
      end.
      unfold SyncApp.numbered. by rewrite Hq, Hw.
Qed.

Lemma rows_stay_numbered_witness :
  (∀ task_data,
     SyncApp.numbered (SyncApp._add_task task_data SyncApp.started)) ∧
  (∀ selected,
     SyncApp.numbered (SyncApp._remove_task selected SyncApp.started)) ∧
  SyncApp.numbered (SyncApp._update_task_list_ui SyncApp.started) ∧
  (∀ i ok message reply a',
     SyncApp._handle_task_completion i ok message reply SyncApp.started
     = Some a' →
     SyncApp.numbered a' ∧
     SyncApp.task_list a' = SyncApp.task_list SyncApp.started).
Proof.
  apply rows_stay_numbered. split; [done|].
  intros [|k] t Hk; [|done]. injection Hk as <-. by exists "".
Defined.
